(** * gpx-collaboration: session registry and local edit reconciler

    A shallow embedding of the realtime server (the room registry, the
    access gateway of the [upgrade] handler, the idle eviction timers) and
    of the web client's reconciliation handlers of [RoomPage.tsx], with
    the properties of the specification proved over them.  It goes on
    with the rest of the server (routing of a request, endpoints,
    shutdown, allowed origins), of the page (throttling, shortcuts,
    selection, GPX import), with the home page's room ids, the client's
    connection settings and the registry of the first server.

    JavaScript maps are [gmap]s, sets are [gset]s, an optional field is an
    [option], a timestamp in milliseconds is a [Z].  A WebSocket and a
    timer handle are object identities, modelled as [nat]. *)

From Stdlib Require Import ZArith String Ascii Lia.
From stdpp Require Import base option gmap sets list strings pretty.

Local Open Scope string_scope.
Local Open Scope list_scope.

(** ** Replicated features ([collaboration/types.ts]) *)

Inductive Kind := line | point.

(** [SupportedGeometry]: a coordinate is a [(lng, lat)] pair, held at the
    six decimal digits of [roundCoordinate], in micro-degrees. *)
Inductive Geometry :=
  | LineString (coordinates : list (Z * Z))
  | Point (coordinates : Z * Z).

(** A [CollaborativeFeature]; of the open [properties] the model keeps
    [kind] and [name]. *)
Record Feature := {
  f_id : string;
  f_geometry : Geometry;
  f_kind : Kind;
  f_name : option string
}.

#[global] Instance Kind_eq_dec : EqDecision Kind.
Proof. solve_decision. Defined.

#[global] Instance Geometry_eq_dec : EqDecision Geometry.
Proof. solve_decision. Defined.

#[global] Instance Feature_eq_dec : EqDecision Feature.
Proof. solve_decision. Defined.

(** JavaScript truthiness of an optional string: [undefined], [null] and
    the empty string are falsy. *)
Definition truthy (o : option string) : bool :=
  match o with
  | Some EmptyString => false
  | Some _ => true
  | None => false
  end.

(** * The realtime server *)

Module Server.

(** The [Awareness] object of a room: per-client presence states. *)
Record Awareness := {
  aw_states : gmap nat string;
  aw_destroyed : bool
}.

(** The shared document held by the server ([WSSharedDoc]). *)
Record YDoc := {
  doc_id : nat;
  doc_features : list Feature;
  doc_awareness : option Awareness;
  doc_destroyed : bool
}.

Record RoomContext := {
  doc : YDoc;
  awareness : Awareness;
  connections : gset nat;
  createdAt : Z;
  lastActive : Z;
  passcode : option string;
  cleanupTimer : option nat
}.

Inductive LogEntry :=
  | LogInfo (msg : string) (roomId : string)
  | LogWarn (msg : string) (err : string) (roomId : string).

(** The module-level state of the server process.  [timers] is the event
    loop's table of pending timeouts: handle, room to clean, deadline. *)
Record State := {
  rooms : gmap string RoomContext;
  roomCreationRate : gmap string Z;
  totalRoomsCreated : nat;
  yDocs : gmap string YDoc;
  timers : gmap nat (string * Z);
  nextTimer : nat;
  logs : list LogEntry
}.

Definition initial : State :=
  {| rooms := ∅; roomCreationRate := ∅; totalRoomsCreated := 0;
     yDocs := ∅; timers := ∅; nextTimer := 0; logs := [] |}.

Definition set_rooms (m : gmap string RoomContext) (st : State) : State :=
  {| rooms := m; roomCreationRate := roomCreationRate st;
     totalRoomsCreated := totalRoomsCreated st; yDocs := yDocs st;
     timers := timers st; nextTimer := nextTimer st; logs := logs st |}.

Definition set_roomCreationRate (m : gmap string Z) (st : State) : State :=
  {| rooms := rooms st; roomCreationRate := m;
     totalRoomsCreated := totalRoomsCreated st; yDocs := yDocs st;
     timers := timers st; nextTimer := nextTimer st; logs := logs st |}.

Definition set_totalRoomsCreated (n : nat) (st : State) : State :=
  {| rooms := rooms st; roomCreationRate := roomCreationRate st;
     totalRoomsCreated := n; yDocs := yDocs st;
     timers := timers st; nextTimer := nextTimer st; logs := logs st |}.

Definition set_yDocs (m : gmap string YDoc) (st : State) : State :=
  {| rooms := rooms st; roomCreationRate := roomCreationRate st;
     totalRoomsCreated := totalRoomsCreated st; yDocs := m;
     timers := timers st; nextTimer := nextTimer st; logs := logs st |}.

Definition set_timers (m : gmap nat (string * Z)) (n : nat) (st : State) : State :=
  {| rooms := rooms st; roomCreationRate := roomCreationRate st;
     totalRoomsCreated := totalRoomsCreated st; yDocs := yDocs st;
     timers := m; nextTimer := n; logs := logs st |}.

Definition log (e : LogEntry) (st : State) : State :=
  {| rooms := rooms st; roomCreationRate := roomCreationRate st;
     totalRoomsCreated := totalRoomsCreated st; yDocs := yDocs st;
     timers := timers st; nextTimer := nextTimer st; logs := logs st ++ [e] |}.

Definition set_doc (d : YDoc) (c : RoomContext) : RoomContext :=
  {| doc := d; awareness := awareness c; connections := connections c;
     createdAt := createdAt c; lastActive := lastActive c;
     passcode := passcode c; cleanupTimer := cleanupTimer c |}.

Definition set_awareness (a : Awareness) (c : RoomContext) : RoomContext :=
  {| doc := doc c; awareness := a; connections := connections c;
     createdAt := createdAt c; lastActive := lastActive c;
     passcode := passcode c; cleanupTimer := cleanupTimer c |}.

Definition set_connections (s : gset nat) (c : RoomContext) : RoomContext :=
  {| doc := doc c; awareness := awareness c; connections := s;
     createdAt := createdAt c; lastActive := lastActive c;
     passcode := passcode c; cleanupTimer := cleanupTimer c |}.

Definition set_lastActive (t : Z) (c : RoomContext) : RoomContext :=
  {| doc := doc c; awareness := awareness c; connections := connections c;
     createdAt := createdAt c; lastActive := t;
     passcode := passcode c; cleanupTimer := cleanupTimer c |}.

Definition set_passcode (p : option string) (c : RoomContext) : RoomContext :=
  {| doc := doc c; awareness := awareness c; connections := connections c;
     createdAt := createdAt c; lastActive := lastActive c;
     passcode := p; cleanupTimer := cleanupTimer c |}.

Definition set_cleanupTimer (h : option nat) (c : RoomContext) : RoomContext :=
  {| doc := doc c; awareness := awareness c; connections := connections c;
     createdAt := createdAt c; lastActive := lastActive c;
     passcode := passcode c; cleanupTimer := h |}.

(** ** Exceptions

    [cleanupRoom] wraps the two teardown calls in [try]/[catch]; a
    computation either returns or throws, and keeps the state it reached. *)

Inductive Outcome (A : Type) :=
  | Returned (a : A)
  | Threw (err : string).
Arguments Returned {A} a.
Arguments Threw {A} err.

Definition M (A : Type) : Type := State → Outcome A * State.

Definition ret {A} (a : A) : M A := λ st, (Returned a, st).

Definition bind {A B} (m : M A) (k : A → M B) : M B :=
  λ st, match m st with
        | (Returned a, st') => k a st'
        | (Threw e, st') => (Threw e, st')
        end.

Definition try_catch {A} (m : M A) (handler : string → M A) : M A :=
  λ st, match m st with
        | (Returned a, st') => (Returned a, st')
        | (Threw e, st') => handler e st'
        end.

Definition modify (f : State → State) : M unit := λ st, (Returned tt, f st).

Definition get : M State := λ st, (Returned st, st).

Notation "'let!' x ':=' m 'in' k" := (bind m (λ x, k))
  (at level 10, x name, m at level 100, k at level 200).
Notation "m >>> k" := (bind m (λ _, k))
  (at level 90, right associativity).

(** ** Request parsing ([upgrade] handler, lines 214-222) *)

(** One character of [[a-zA-Z0-9-_]]. *)
Definition room_char (c : ascii) : bool :=
  let n := nat_of_ascii c in
  ((97 <=? n) && (n <=? 122) || (65 <=? n) && (n <=? 90)
   || (48 <=? n) && (n <=? 57) || (n =? 45) || (n =? 95))%nat.

(** [/^[a-zA-Z0-9-_]{3,64}$/.test(roomId)] *)
Definition valid_room_id (roomId : string) : bool :=
  forallb room_char (list_ascii_of_string roomId)
  && (3 <=? String.length roomId)%nat && (String.length roomId <=? 64)%nat.

(** [passcodeParam ? passcodeParam.slice(0, 128) : undefined] *)
Definition sanitizedPasscode (passcodeParam : option string) : option string :=
  match passcodeParam with
  | Some s => if truthy (Some s) then Some (substring 0 128 s) else None
  | None => None
  end.

(** The part of an upgrade request the handler reads once the path has
    been matched: the decoded and trimmed room segment, the [k] and [mode]
    query parameters, and the origin computed by [extractIp]. *)
Record Request := {
  req_roomId : string;
  req_k : option string;
  req_mode : option string;
  req_ip : string
}.

Inductive UpgradeResult :=
  | Aborted (statusCode : Z) (message : string)
  | Closed (code : Z) (reason : string)
  | Attached.

Inductive Verdict :=
  | Refuse (statusCode : Z) (message : string)
  | Deny
  | Pass.

(** What the server takes from outside: the configuration read from the
    environment, and the collaborators from [y-websocket], [y-protocols]
    and [yjs].  [getYDoc] looks a document up in [yDocs] or registers one;
    the two [destroy] methods may throw. *)
Record Env := {
  ROOM_TTL_MS : Z;
  ROOM_CREATION_THROTTLE_MS : Z;
  getYDoc : string → gmap string YDoc → YDoc * gmap string YDoc;
  new_Awareness : YDoc → Awareness;
  awareness_destroy : Awareness → Outcome Awareness;
  doc_destroy : YDoc → Outcome YDoc
}.

(** [roomCreationRate.get(ip) ?? 0] *)
Definition last_creation (st : State) (ip : string) : Z :=
  default 0%Z (roomCreationRate st !! ip).

(** The answer of [abortUpgrade(socket, 429, 'Rate Limit')]. *)
Definition rate_limited : UpgradeResult := Aborted 429 "Rate Limit".

(** The secret a room holds once a connection supplying [supplied] has
    been admitted (lines 238-240). *)
Definition adopt (stored supplied : option string) : option string :=
  if negb (truthy stored) && truthy supplied then supplied else stored.

(** The context of a room after a connection was attached to it. *)
Definition attached (ws : nat) (now : Z) (supplied : option string)
    (context : RoomContext) : RoomContext :=
  {| doc := doc context; awareness := awareness context;
     connections := {[ws]} ∪ connections context;
     createdAt := createdAt context; lastActive := now;
     passcode := adopt (passcode context) supplied;
     cleanupTimer := None |}.

(** The pending timeouts once that of [context] has been cleared. *)
Definition cleared (context : RoomContext) (pending : gmap nat (string * Z))
    : gmap nat (string * Z) :=
  match cleanupTimer context with
  | Some h => delete h pending
  | None => pending
  end.

(** The context of a room after the socket [ws] closed; [timer] is its
    eviction timer from then on. *)
Definition detached (ws : nat) (now : Z) (timer : option nat)
    (context : RoomContext) : RoomContext :=
  {| doc := doc context; awareness := awareness context;
     connections := connections context ∖ {[ws]};
     createdAt := createdAt context; lastActive := now;
     passcode := passcode context;
     cleanupTimer := timer |}.

(** A stored secret is never empty and has at most 128 characters. *)
Definition passcode_wf (p : option string) : Prop :=
  ∀ secret, p = Some secret →
    secret ≠ EmptyString ∧ (String.length secret ≤ 128)%nat.

(** A room between two events: it has connections or a pending timeout,
    never both. *)
Definition room_settled (st : State) (roomId : string) (context : RoomContext) : Prop :=
  (connections context = ∅ ↔ is_Some (cleanupTimer context))
  ∧ (∀ h, cleanupTimer context = Some h →
       ∃ deadline, timers st !! h = Some (roomId, deadline)).

Definition registry_inv (st : State) : Prop :=
  (∀ roomId context, rooms st !! roomId = Some context →
     room_settled st roomId context)
  ∧ (∀ h roomId deadline, timers st !! h = Some (roomId, deadline) →
       ∃ context, rooms st !! roomId = Some context
                  ∧ cleanupTimer context = Some h)
  ∧ (∀ h, is_Some (timers st !! h) → (h < nextTimer st)%nat)
  ∧ (∀ roomId context, rooms st !! roomId = Some context →
       valid_room_id roomId = true ∧ passcode_wf (passcode context)).

(** What happens to the server: an upgrade request whose handshake
    completes, a socket closing, a pending timeout firing. *)
Inductive Event :=
  | EvUpgrade (req : Request) (ws : nat) (now : Z)
  | EvClose (roomId : string) (ws : nat) (now : Z)
  | EvTimeout (h : nat).

Section Registry.

Variable env : Env.

(** [context.awareness.destroy()] on the context registered under [roomId]. *)
Definition destroy_awareness (roomId : string) (context : RoomContext) : M unit :=
  λ st, match awareness_destroy env (awareness context) with
        | Returned a =>
            (Returned tt,
             set_rooms (alter (set_awareness a) roomId (rooms st)) st)
        | Threw e => (Threw e, st)
        end.

(** [context.doc.destroy()] *)
Definition destroy_doc (roomId : string) (context : RoomContext) : M unit :=
  λ st, match doc_destroy env (doc context) with
        | Returned d =>
            (Returned tt,
             set_rooms (alter (set_doc d) roomId (rooms st)) st)
        | Threw e => (Threw e, st)
        end.

Definition cleanupRoom (roomId : string) : M unit :=
  let! st := get in
  match rooms st !! roomId with
  | None => ret tt
  | Some context =>
      modify (log (LogInfo "destroying inactive room" roomId)) >>>
      modify (λ s, set_rooms (alter (set_cleanupTimer None) roomId (rooms s)) s) >>>
      try_catch (destroy_awareness roomId context)
        (λ error, modify (log (LogWarn "failed to destroy awareness" error roomId))) >>>
      try_catch (destroy_doc roomId context)
        (λ error, modify (log (LogWarn "failed to destroy ydoc" error roomId))) >>>
      modify (λ s, set_rooms (delete roomId (rooms s)) s) >>>
      let! s := get in
      if bool_decide (is_Some (yDocs s !! roomId))
      then modify (λ s, set_yDocs (delete roomId (yDocs s)) s)
      else ret tt
  end.

(** The warnings one eviction of [context] logs. *)
Definition teardown_warnings (roomId : string) (context : RoomContext)
    : list LogEntry :=
  match awareness_destroy env (awareness context) with
  | Threw e => [LogWarn "failed to destroy awareness" e roomId]
  | Returned _ => []
  end ++
  match doc_destroy env (doc context) with
  | Threw e => [LogWarn "failed to destroy ydoc" e roomId]
  | Returned _ => []
  end.

(** The state [cleanupRoom] leaves, whatever its outcome. *)
Definition cleanupRoom_state (roomId : string) (st : State) : State :=
  snd (cleanupRoom roomId st).

(** [clearTimeout] followed by [setTimeout(() => cleanupRoom(roomId), ROOM_TTL_MS)]. *)
Definition scheduleCleanup (roomId : string) (now : Z) (st : State) : State :=
  match rooms st !! roomId with
  | None => st
  | Some context =>
      let pending :=
        match cleanupTimer context with
        | Some h => delete h (timers st)
        | None => timers st
        end in
      let timeout := nextTimer st in
      set_rooms (<[roomId := set_cleanupTimer (Some timeout) context]> (rooms st))
        (set_timers (<[timeout := (roomId, (now + ROOM_TTL_MS env)%Z)]> pending)
           (S timeout) st)
  end.

Definition canCreateRoom (ip : string) (now : Z) (st : State) : bool * State :=
  let last := last_creation st ip in
  if bool_decide (now - last < ROOM_CREATION_THROTTLE_MS env)%Z
  then (false, st)
  else (true, set_roomCreationRate (<[ip := now]> (roomCreationRate st)) st).

Definition ensureRoomContext (roomId : string) (passcode : option string)
    (now : Z) (st : State) : RoomContext * State :=
  match rooms st !! roomId with
  | Some context => (context, st)
  | None =>
      let '(doc0, docs) := getYDoc env roomId (yDocs st) in
      let awareness := default (new_Awareness env doc0) (doc_awareness doc0) in
      let doc1 := {| doc_id := doc_id doc0; doc_features := doc_features doc0;
                     doc_awareness := Some awareness;
                     doc_destroyed := doc_destroyed doc0 |} in
      let context := {| doc := doc1; awareness := awareness; connections := ∅;
                        createdAt := now; lastActive := now;
                        passcode := passcode; cleanupTimer := None |} in
      (context,
       set_totalRoomsCreated (S (totalRoomsCreated st))
         (set_rooms (<[roomId := context]> (rooms st))
            (set_yDocs (<[roomId := doc1]> docs) st)))
  end.

(** The [upgrade] handler from the room-id check up to the call of
    [wss.handleUpgrade] (lines 214-240). *)
Definition gateway (req : Request) (now : Z) (st : State) : Verdict * State :=
  let roomId := req_roomId req in
  if negb (valid_room_id roomId) then (Refuse 400 "Invalid Room", st) else
  let sanitized := sanitizedPasscode (req_k req) in
  let ip := req_ip req in
  match rooms st !! roomId with
  | None =>
      let '(allowed, st1) := canCreateRoom ip now st in
      if negb allowed then (Refuse 429 "Rate Limit", st1) else
      let '(_, st2) := ensureRoomContext roomId sanitized now st1 in
      (Pass, log (LogInfo "created room" roomId) st2)
  | Some context =>
      if truthy (passcode context)
         && negb (bool_decide (passcode context = sanitized))
      then (Deny, st)
      else if negb (truthy (passcode context)) && truthy sanitized
      then (Pass,
            set_rooms (<[roomId := set_passcode sanitized context]> (rooms st)) st)
      else (Pass, st)
  end.

(** The callback given to [wss.handleUpgrade] (lines 243-254). *)
Definition attach (roomId : string) (ws : nat) (now : Z) (st : State)
    : UpgradeResult * State :=
  match rooms st !! roomId with
  | None => (Closed 1011 "room-missing", st)
  | Some room =>
      let room1 := set_lastActive now
                     (set_connections ({[ws]} ∪ connections room) room) in
      match cleanupTimer room1 with
      | Some h =>
          (Attached,
           set_rooms (<[roomId := set_cleanupTimer None room1]> (rooms st))
             (set_timers (delete h (timers st)) (nextTimer st) st))
      | None => (Attached, set_rooms (<[roomId := room1]> (rooms st)) st)
      end
  end.

(** The whole [upgrade] handler, when the handshake completes within the
    event (as [ws] does): the gateway, then the callback. *)
Definition upgrade (req : Request) (ws : nat) (now : Z) (st : State)
    : UpgradeResult * State :=
  match gateway req now st with
  | (Refuse statusCode message, st1) => (Aborted statusCode message, st1)
  | (Deny, st1) => (Closed 4003 "passcode-required", st1)
  | (Pass, st1) => attach (req_roomId req) ws now st1
  end.

(** The [close] listener registered by the attach callback. *)
Definition on_close (roomId : string) (ws : nat) (now : Z) (st : State) : State :=
  match rooms st !! roomId with
  | None => st
  | Some current =>
      let current1 := set_lastActive now
                        (set_connections (connections current ∖ {[ws]}) current) in
      let st1 := set_rooms (<[roomId := current1]> (rooms st)) st in
      if bool_decide (size (connections current1) = 0%nat)
      then scheduleCleanup roomId now st1
      else st1
  end.

(** A pending timeout fires: the event loop drops it and runs its callback. *)
Definition fire (h : nat) (st : State) : State :=
  match timers st !! h with
  | None => st
  | Some (roomId, _) =>
      cleanupRoom_state roomId (set_timers (delete h (timers st)) (nextTimer st) st)
  end.

(** ** The server as a transition system *)

Definition step (ev : Event) (st : State) : State :=
  match ev with
  | EvUpgrade req ws now => snd (upgrade req ws now st)
  | EvClose roomId ws now => on_close roomId ws now st
  | EvTimeout h => fire h st
  end.

Definition run (evs : list Event) (st : State) : State :=
  foldl (λ s ev, step ev s) st evs.

(** The states the process goes through. *)
Inductive reachable : State → Prop :=
  | reachable_initial : reachable initial
  | reachable_step st ev : reachable st → reachable (step ev st).

(** A run of upgrade requests, with the answer to each. *)
Fixpoint attempts (reqs : list (Request * nat * Z)) (st : State)
    : list UpgradeResult * State :=
  match reqs with
  | [] => ([], st)
  | (req, ws, now) :: reqs' =>
      let '(r, st1) := upgrade req ws now st in
      let '(rs, st2) := attempts reqs' st1 in
      (r :: rs, st2)
  end.

End Registry.

(** ** Sample collaborators, for running the model *)

Definition empty_awareness : Awareness :=
  {| aw_states := ∅; aw_destroyed := false |}.

(** [getYDoc] as [y-websocket] documents it: the document registered
    under the name, or a fresh empty one that it registers. *)
Definition sample_getYDoc (name : string) (docs : gmap string YDoc)
    : YDoc * gmap string YDoc :=
  match docs !! name with
  | Some d => (d, docs)
  | None =>
      let d := {| doc_id := size docs; doc_features := [];
                  doc_awareness := Some empty_awareness;
                  doc_destroyed := false |} in
      (d, <[name := d]> docs)
  end.

Definition sample_env : Env :=
  {| ROOM_TTL_MS := 60 * 60 * 1000;
     ROOM_CREATION_THROTTLE_MS := 3000;
     getYDoc := sample_getYDoc;
     new_Awareness := λ _, empty_awareness;
     awareness_destroy := λ a,
       Returned {| aw_states := ∅; aw_destroyed := true |};
     doc_destroy := λ d,
       Returned {| doc_id := doc_id d; doc_features := doc_features d;
                   doc_awareness := doc_awareness d; doc_destroyed := true |} |}.

(** The same server over collaborators whose teardown always throws. *)
Definition throwing_env : Env :=
  {| ROOM_TTL_MS := 60 * 60 * 1000;
     ROOM_CREATION_THROTTLE_MS := 3000;
     getYDoc := sample_getYDoc;
     new_Awareness := λ _, empty_awareness;
     awareness_destroy := λ _, Threw "awareness already destroyed";
     doc_destroy := λ _, Threw "doc already destroyed" |}.

Definition request (roomId : string) (k : option string) (ip : string) : Request :=
  {| req_roomId := roomId; req_k := k; req_mode := None; req_ip := ip |}.

(** A secret of exactly 128 characters. *)
Definition long_secret : string :=
  string_of_list_ascii (replicate 128 "a"%char).

(** Room [abc123] with one connection, socket 1, and no secret. *)
Definition one_connection : State :=
  run sample_env [EvUpgrade (request "abc123" None "10.0.0.1") 1 5000] initial.

(** The same room once that connection has closed: its timeout, handle 0,
    is pending. *)
Definition waiting_eviction : State :=
  run sample_env [EvClose "abc123" 1 6000] one_connection.

(** Room [abc123] created with [long_secret]. *)
Definition guarded_room : State :=
  run sample_env [EvUpgrade (request "abc123" (Some long_secret) "10.0.0.1") 1 5000]
    initial.

End Server.

(** * The web client *)

Module Client.

(** ** The replicated feature list ([Y.Array])

    [Y.Array] is a type of the [yjs] library; this is what the page uses
    of it.  An item keeps its identity and its place for ever; deleting
    it marks it.  [order] is the sequence of item identities, [deleted]
    the marked ones, [clock] the next fresh identity. *)
Record YArray := {
  order : list nat;
  content : gmap nat Feature;
  deleted : gset nat;
  clock : nat
}.

Definition empty_array : YArray :=
  {| order := []; content := ∅; deleted := ∅; clock := 0 |}.

Definition live_order (arr : YArray) : list nat :=
  filter (λ i, i ∉ deleted arr) (order arr).

(** [features.toJSON()] *)
Definition toJSON (arr : YArray) : list Feature :=
  omap (λ i, content arr !! i) (live_order arr).

(** The place in [l] of the live item number [index]; the end of [l] when
    [index] is the number of live items. *)
Fixpoint live_pos (del : gset nat) (l : list nat) (index : nat) : nat :=
  match l with
  | [] => 0
  | i :: l' =>
      if decide (i ∈ del) then S (live_pos del l' index)
      else match index with
           | 0 => 0
           | S k => S (live_pos del l' k)
           end
  end.

Fixpoint insert_items (ids : list nat) (fs : list Feature)
    (m : gmap nat Feature) : gmap nat Feature :=
  match ids, fs with
  | i :: ids', f :: fs' => <[i := f]> (insert_items ids' fs' m)
  | _, _ => m
  end.

(** [features.insert(index, fs)].  Beyond the end [yjs] raises; no call
    of the client gets there, and the array is then left as it is. *)
Definition yarray_insert (index : nat) (fs : list Feature) (arr : YArray) : YArray :=
  if decide (index ≤ length (live_order arr))%nat then
    let ids := seq (clock arr) (length fs) in
    let p := live_pos (deleted arr) (order arr) index in
    {| order := take p (order arr) ++ ids ++ drop p (order arr);
       content := insert_items ids fs (content arr);
       deleted := deleted arr;
       clock := clock arr + length fs |}
  else arr.

(** [features.delete(index, len)] *)
Definition yarray_delete (index len : nat) (arr : YArray) : YArray :=
  {| order := order arr;
     content := content arr;
     deleted := deleted arr ∪ list_to_set (take len (drop index (live_order arr)));
     clock := clock arr |}.

(** [features.push(fs)] *)
Definition yarray_push (fs : list Feature) (arr : YArray) : YArray :=
  yarray_insert (length (live_order arr)) fs arr.

Inductive Op :=
  | Insert (index : nat) (fs : list Feature)
  | Delete (index len : nat)
  | Push (fs : list Feature).

Definition apply_op (op : Op) (arr : YArray) : YArray :=
  match op with
  | Insert index fs => yarray_insert index fs arr
  | Delete index len => yarray_delete index len arr
  | Push fs => yarray_push fs arr
  end.

(** The body of one transaction on the feature list. *)
Definition apply_ops (ops : list Op) (arr : YArray) : YArray :=
  foldl (λ a op, apply_op op a) arr ops.

(** [list.findIndex((item) => item.id === id)] *)
Fixpoint findIndex (id : string) (l : list Feature) : option nat :=
  match l with
  | [] => None
  | item :: l' =>
      if bool_decide (f_id item = id) then Some 0
      else S <$> findIndex id l'
  end.

(** ** Origins and the undo manager *)

(** The origin of a transaction: a symbol minted by a session, the
    websocket provider for what arrives from peers, the undo manager for
    its own reverts, or none. *)
Inductive Origin :=
  | Sym (id : nat)
  | Provider
  | Undoer
  | NoOrigin.

#[global] Instance Origin_eq_dec : EqDecision Origin.
Proof. solve_decision. Defined.

(** What one captured transaction did to the feature list. *)
Record StackItem := {
  insertions : gset nat;
  deletions : gset nat
}.

Record UndoManager := {
  trackedOrigins : list Origin;
  undoStack : list StackItem;
  redoStack : list StackItem
}.

(** [new Y.UndoManager(features, { trackedOrigins: undoOrigin ? new
    Set([undoOrigin]) : undefined })]; without the option [yjs] tracks the
    transactions that have no origin. *)
Definition new_UndoManager (undoOrigin : option Origin) : UndoManager :=
  {| trackedOrigins := match undoOrigin with
                       | Some o => [o]
                       | None => [NoOrigin]
                       end;
     undoStack := []; redoStack := [] |}.

Definition tx_insertions (before after : YArray) : gset nat :=
  list_to_set (order after) ∖ list_to_set (order before).

Definition tx_deletions (before after : YArray) : gset nat :=
  deleted after ∖ deleted before.

Definition stack_item (before after : YArray) : StackItem :=
  {| insertions := tx_insertions before after;
     deletions := tx_deletions before after |}.

Definition array_changed (before after : YArray) : bool :=
  negb (bool_decide (tx_insertions before after = ∅
                     ∧ tx_deletions before after = ∅)).

(** Modelled from the spec: the capture rule of [Y.UndoManager], which
    is a library and not in the sources (section 4.6: the stacks are
    populated only from transactions whose origin is tracked; a new local
    edit clears the redo stack).  The manager is scoped to the feature
    list, so a transaction that leaves the list as it was is not captured. *)
Definition capture (origin : Origin) (before after : YArray)
    (um : UndoManager) : UndoManager :=
  if bool_decide (origin ∈ trackedOrigins um) && array_changed before after
  then {| trackedOrigins := trackedOrigins um;
          undoStack := stack_item before after :: undoStack um;
          redoStack := [] |}
  else um.

(** Modelled from the spec: applying the inverse of a captured
    transaction (section 4.6): what it inserted is deleted, what it
    deleted is live again. *)
Definition revert (item : StackItem) (arr : YArray) : YArray :=
  {| order := order arr; content := content arr;
     deleted := (deleted arr ∖ deletions item) ∪ insertions item;
     clock := clock arr |}.

(** Modelled from the spec: applying a reverted transaction again. *)
Definition reapply (item : StackItem) (arr : YArray) : YArray :=
  {| order := order arr; content := content arr;
     deleted := (deleted arr ∖ insertions item) ∪ deletions item;
     clock := clock arr |}.

(** The list [a3] with the transaction from [a2] to [a3] reverted, and
    that list with the transaction from [a0] to [a1] reverted too. *)
Definition once_undone (a2 a3 : YArray) : YArray :=
  revert (stack_item a2 a3) a3.

Definition twice_undone (a0 a1 a2 a3 : YArray) : YArray :=
  revert (stack_item a0 a1) (once_undone a2 a3).

(** ** A connection ([useRoomConnection]) *)

Record ViewState := {
  center : Z * Z;
  zoom : Z;
  bounds : option ((Z * Z) * (Z * Z));
  suggestedBy : option nat;
  updatedAt : Z
}.

Inductive Target := OnFeatures | OnSelection | OnView.

(** A committed transaction, as the document's update log sees it. *)
Record Transaction := {
  tx_origin : Origin;
  tx_target : Target
}.

(** The three structures of the document under the [state] map (the
    selection map is keyed by [String(clientId)]), the undo manager, and
    the transactions applied to this replica, in order. *)
Record Connection := {
  features : YArray;
  selectionMap : gmap nat string;
  viewMap : option ViewState;
  undoManager : UndoManager;
  clientId : nat;
  txlog : list Transaction
}.

Definition new_Connection (undoOrigin : option Origin) (clientId : nat) : Connection :=
  {| features := empty_array; selectionMap := ∅; viewMap := None;
     undoManager := new_UndoManager undoOrigin; clientId := clientId;
     txlog := [] |}.

(** [doc.transact(() => { ...ops on features... }, origin)], before the
    observers run. *)
Definition commit (ops : list Op) (origin : Origin) (conn : Connection) : Connection :=
  let after := apply_ops ops (features conn) in
  {| features := after;
     selectionMap := selectionMap conn;
     viewMap := viewMap conn;
     undoManager := capture origin (features conn) after (undoManager conn);
     clientId := clientId conn;
     txlog := txlog conn ++ [{| tx_origin := origin; tx_target := OnFeatures |}] |}.

(** Modelled from the spec: [undoManager.undo()] (section 4.6: pops the
    most recent captured transaction, applies its inverse, pushes it to the
    redo stack). *)
Definition undo (conn : Connection) : Connection :=
  match undoStack (undoManager conn) with
  | [] => conn
  | item :: rest =>
      {| features := revert item (features conn);
         selectionMap := selectionMap conn;
         viewMap := viewMap conn;
         undoManager := {| trackedOrigins := trackedOrigins (undoManager conn);
                           undoStack := rest;
                           redoStack := item :: redoStack (undoManager conn) |};
         clientId := clientId conn;
         txlog := txlog conn ++ [{| tx_origin := Undoer; tx_target := OnFeatures |}] |}
  end.

(** Modelled from the spec: [undoManager.redo()]. *)
Definition redo (conn : Connection) : Connection :=
  match redoStack (undoManager conn) with
  | [] => conn
  | item :: rest =>
      {| features := reapply item (features conn);
         selectionMap := selectionMap conn;
         viewMap := viewMap conn;
         undoManager := {| trackedOrigins := trackedOrigins (undoManager conn);
                           undoStack := item :: undoStack (undoManager conn);
                           redoStack := rest |};
         clientId := clientId conn;
         txlog := txlog conn ++ [{| tx_origin := Undoer; tx_target := OnFeatures |}] |}
  end.

(** [selectionMap.set(String(clientId), featureId)] and [delete]: each is
    a transaction of its own, without origin. *)
Definition selection_set (featureId : string) (conn : Connection) : Connection :=
  {| features := features conn;
     selectionMap := <[clientId conn := featureId]> (selectionMap conn);
     viewMap := viewMap conn; undoManager := undoManager conn;
     clientId := clientId conn;
     txlog := txlog conn ++ [{| tx_origin := NoOrigin; tx_target := OnSelection |}] |}.

Definition selection_delete (conn : Connection) : Connection :=
  {| features := features conn;
     selectionMap := delete (clientId conn) (selectionMap conn);
     viewMap := viewMap conn; undoManager := undoManager conn;
     clientId := clientId conn;
     txlog := txlog conn ++ [{| tx_origin := NoOrigin; tx_target := OnSelection |}] |}.

(** [doc.transact(() => viewMap.set('current', state), origin)] *)
Definition view_set (state : ViewState) (origin : Origin) (conn : Connection) : Connection :=
  {| features := features conn; selectionMap := selectionMap conn;
     viewMap := Some state; undoManager := undoManager conn;
     clientId := clientId conn;
     txlog := txlog conn ++ [{| tx_origin := origin; tx_target := OnView |}] |}.

(** ** The room page ([RoomPage.tsx]) *)

(** A Leaflet layer: a polyline or a circle marker, with the two
    properties the page hangs on it. *)
Inductive Shape :=
  | Polyline (latlngs : list (Z * Z))
  | CircleMarker (latlng : Z * Z).

Record Layer := {
  featureId : option string;
  layer_feature : option Feature;
  shape : Shape
}.

(** The component: its connection, its props and its refs.  [mapRef]
    tells whether the map is mounted; [toasts] are the messages shown. *)
Record Client := {
  connection : option Connection;
  readOnly : bool;
  undoOrigin : Origin;
  mapRef : bool;
  layersRef : gmap string Layer;
  layerHandlersRef : gset string;
  featureCacheRef : gmap string Feature;
  suppressLocalEventsRef : bool;
  localSelectionRef : option string;
  toasts : list string
}.

Definition set_connection (c : option Connection) (cl : Client) : Client :=
  {| connection := c; readOnly := readOnly cl; undoOrigin := undoOrigin cl;
     mapRef := mapRef cl; layersRef := layersRef cl;
     layerHandlersRef := layerHandlersRef cl;
     featureCacheRef := featureCacheRef cl;
     suppressLocalEventsRef := suppressLocalEventsRef cl;
     localSelectionRef := localSelectionRef cl; toasts := toasts cl |}.

Definition set_layersRef (m : gmap string Layer) (cl : Client) : Client :=
  {| connection := connection cl; readOnly := readOnly cl;
     undoOrigin := undoOrigin cl; mapRef := mapRef cl; layersRef := m;
     layerHandlersRef := layerHandlersRef cl;
     featureCacheRef := featureCacheRef cl;
     suppressLocalEventsRef := suppressLocalEventsRef cl;
     localSelectionRef := localSelectionRef cl; toasts := toasts cl |}.

Definition set_layerHandlersRef (h : gset string) (cl : Client) : Client :=
  {| connection := connection cl; readOnly := readOnly cl;
     undoOrigin := undoOrigin cl; mapRef := mapRef cl;
     layersRef := layersRef cl; layerHandlersRef := h;
     featureCacheRef := featureCacheRef cl;
     suppressLocalEventsRef := suppressLocalEventsRef cl;
     localSelectionRef := localSelectionRef cl; toasts := toasts cl |}.

Definition set_featureCacheRef (m : gmap string Feature) (cl : Client) : Client :=
  {| connection := connection cl; readOnly := readOnly cl;
     undoOrigin := undoOrigin cl; mapRef := mapRef cl;
     layersRef := layersRef cl; layerHandlersRef := layerHandlersRef cl;
     featureCacheRef := m;
     suppressLocalEventsRef := suppressLocalEventsRef cl;
     localSelectionRef := localSelectionRef cl; toasts := toasts cl |}.

Definition set_suppressLocalEventsRef (b : bool) (cl : Client) : Client :=
  {| connection := connection cl; readOnly := readOnly cl;
     undoOrigin := undoOrigin cl; mapRef := mapRef cl;
     layersRef := layersRef cl; layerHandlersRef := layerHandlersRef cl;
     featureCacheRef := featureCacheRef cl;
     suppressLocalEventsRef := b;
     localSelectionRef := localSelectionRef cl; toasts := toasts cl |}.

Definition set_localSelectionRef (o : option string) (cl : Client) : Client :=
  {| connection := connection cl; readOnly := readOnly cl;
     undoOrigin := undoOrigin cl; mapRef := mapRef cl;
     layersRef := layersRef cl; layerHandlersRef := layerHandlersRef cl;
     featureCacheRef := featureCacheRef cl;
     suppressLocalEventsRef := suppressLocalEventsRef cl;
     localSelectionRef := o; toasts := toasts cl |}.

Definition toast (msg : string) (cl : Client) : Client :=
  {| connection := connection cl; readOnly := readOnly cl;
     undoOrigin := undoOrigin cl; mapRef := mapRef cl;
     layersRef := layersRef cl; layerHandlersRef := layerHandlersRef cl;
     featureCacheRef := featureCacheRef cl;
     suppressLocalEventsRef := suppressLocalEventsRef cl;
     localSelectionRef := localSelectionRef cl; toasts := toasts cl ++ [msg] |}.

(** Coordinates are held at the precision [roundCoordinate] gives, so
    [normalizeFeature] returns its argument. *)
Definition normalizeFeature (feature : Feature) : Feature := feature.

(** The geometry [layer.toGeoJSON()] reports. *)
Definition layer_geometry (layer : Layer) : Geometry :=
  match shape layer with
  | Polyline latlngs => LineString latlngs
  | CircleMarker latlng => Point latlng
  end.

(** [layerToFeature]: the properties of [layer.toGeoJSON()] are those of
    [layer.feature], and they are spread after [kind]. *)
Definition layerToFeature (layer : Layer) (featureId : string) (kind : Kind) : Feature :=
  normalizeFeature
    {| f_id := featureId;
       f_geometry := layer_geometry layer;
       f_kind := match layer_feature layer with
                 | Some f => f_kind f
                 | None => kind
                 end;
       f_name := match layer_feature layer with
                 | Some f => f_name f
                 | None => None
                 end |}.

Definition createLayerForFeature (cl : Client) (feature : Feature) : option Layer :=
  if negb (mapRef cl) then None
  else Some {| featureId := Some (f_id feature);
               layer_feature := Some feature;
               shape := match f_geometry feature with
                        | LineString coordinates => Polyline coordinates
                        | Point coordinates => CircleMarker coordinates
                        end |}.

Definition updateLayerGeometry (layer : Layer) (feature : Feature) : Layer :=
  {| featureId := featureId layer;
     layer_feature := Some feature;
     shape := match f_geometry feature, shape layer with
              | LineString coordinates, Polyline _ => Polyline coordinates
              | Point coordinates, CircleMarker _ => CircleMarker coordinates
              | _, sh => sh
              end |}.

Definition detachLayerHandlers (featureId : string) (cl : Client) : Client :=
  match layersRef cl !! featureId with
  | Some _ =>
      if decide (featureId ∈ layerHandlersRef cl)
      then set_layerHandlersRef (layerHandlersRef cl ∖ {[featureId]}) cl
      else cl
  | None => cl
  end.

Definition attachLayerHandlers (layer : Layer) (feature : Feature) (cl : Client) : Client :=
  let cl1 := detachLayerHandlers (f_id feature) cl in
  set_layerHandlersRef ({[f_id feature]} ∪ layerHandlersRef cl1) cl1.

(** [connection.doc.transact(..., undoOrigin)] on the feature list; the
    observer of the list runs when the list changed. *)
Definition transact (observer : Client → Client) (ops : list Op) (cl : Client) : Client :=
  match connection cl with
  | None => cl
  | Some conn =>
      let conn1 := commit ops (undoOrigin cl) conn in
      let cl1 := set_connection (Some conn1) cl in
      if array_changed (features conn) (features conn1) then observer cl1 else cl1
  end.

(** The [pm:remove] listener of the drawing effect (lines 729-745). *)
Definition handleRemove (observer : Client → Client) (layer : Layer) (cl : Client) : Client :=
  match connection cl with
  | None => cl
  | Some conn =>
      if suppressLocalEventsRef cl || readOnly cl then cl else
      if negb (truthy (featureId layer)) then cl else
      match featureId layer with
      | None => cl
      | Some fid =>
          match findIndex fid (toJSON (features conn)) with
          | Some index => transact observer [Delete index 1] cl
          | None => cl
          end
      end
  end.

(** The second [pm:remove] listener (lines 1110-1115); [selectionState]
    mirrors the selection map. *)
Definition handleRemoveFeature (layer : Layer) (cl : Client) : Client :=
  match connection cl with
  | None => cl
  | Some conn =>
      if truthy (featureId layer)
         && bool_decide (selectionMap conn !! clientId conn = featureId layer)
      then set_connection (Some (selection_delete conn)) cl
      else cl
  end.

(** What removing a layer from the map tells the page: both listeners,
    in the order they were registered. *)
Definition pm_remove (observer : Client → Client) (layer : Layer) (cl : Client) : Client :=
  handleRemoveFeature layer (handleRemove observer layer cl).

(** [syncLayers], first loop: one feature of the list. *)
Definition sync_feature (cl : Client) (feature : Feature) : Client :=
  let cl1 := set_featureCacheRef (<[f_id feature := feature]> (featureCacheRef cl)) cl in
  match layersRef cl1 !! f_id feature with
  | Some existing =>
      set_layersRef
        (<[f_id feature := updateLayerGeometry existing feature]> (layersRef cl1)) cl1
  | None =>
      match createLayerForFeature cl1 feature with
      | Some newLayer =>
          attachLayerHandlers newLayer feature
            (set_layersRef (<[f_id feature := newLayer]> (layersRef cl1)) cl1)
      | None => cl1
      end
  end.

(** [syncLayers], second loop: one key of [layersRef]. *)
Definition sync_remove (removed : Layer → Client → Client) (seen : gset string)
    (cl : Client) (featureId : string) : Client :=
  if decide (featureId ∈ seen) then cl else
  let cl1 :=
    match layersRef cl !! featureId with
    | Some layer =>
        let c1 := detachLayerHandlers featureId cl in
        let c2 := set_suppressLocalEventsRef true c1 in
        let c3 := removed layer c2 in
        set_suppressLocalEventsRef false c3
    | None => cl
    end in
  set_featureCacheRef (delete featureId (featureCacheRef cl1))
    (set_layersRef (delete featureId (layersRef cl1)) cl1).

(** [syncLayers], open in what [map.removeLayer] notifies. *)
Definition syncLayers_with (removed : Layer → Client → Client)
    (items : list Feature) (cl : Client) : Client :=
  if negb (mapRef cl) then cl else
  let cl1 := foldl sync_feature cl items in
  let seen : gset string := list_to_set (f_id <$> items) in
  foldl (sync_remove removed seen) cl1 (fst <$> map_to_list (layersRef cl1)).

(** The observer of the feature list.  Removing a layer notifies
    [handleRemove], whose transaction would notify the observer again:
    [depth] bounds that nesting. *)
Fixpoint observer (depth : nat) (cl : Client) : Client :=
  match connection cl with
  | None => cl
  | Some conn =>
      syncLayers_with
        (λ layer c, match depth with
                    | 0 => c
                    | S d => pm_remove (observer d) layer c
                    end)
        (toJSON (features conn)) cl
  end.

(** One level of nesting is all the page ever uses ([observer_depth]). *)
Definition features_observer : Client → Client := observer 1.


(** The [pm:create] listener (lines 702-727); [newId] is what [nanoid()]
    returns. *)
Definition handleCreate (layer : Layer) (newId : string) (cl : Client) : Client :=
  match connection cl with
  | None => cl
  | Some _ =>
      if readOnly cl then
        set_suppressLocalEventsRef false
          (pm_remove features_observer layer (set_suppressLocalEventsRef true cl))
      else
        let kind := match shape layer with
                    | CircleMarker _ => point
                    | Polyline _ => line
                    end in
        let feature := normalizeFeature (layerToFeature layer newId kind) in
        let layer1 := {| featureId := Some (f_id feature);
                         layer_feature := Some feature;
                         shape := shape layer |} in
        let cl1 := set_featureCacheRef
                     (<[f_id feature := feature]> (featureCacheRef cl)) cl in
        let cl2 := set_layersRef (<[f_id feature := layer1]> (layersRef cl1)) cl1 in
        let cl3 := attachLayerHandlers layer1 feature cl2 in
        let cl4 := transact features_observer [Push [feature]] cl3 in
        let cl5 := set_localSelectionRef (Some (f_id feature)) cl4 in
        match connection cl5 with
        | Some conn5 => set_connection (Some (selection_set (f_id feature) conn5)) cl5
        | None => cl5
        end
  end.

Definition commitFeatureUpdate (feature : Feature) (cl : Client) : Client :=
  match connection cl with
  | None => cl
  | Some conn =>
      match findIndex (f_id feature) (toJSON (features conn)) with
      | None => cl
      | Some index =>
          transact features_observer [Delete index 1; Insert index [feature]] cl
      end
  end.


(** [handleImportFiles], from the list [ensureFeature] made of the files. *)
Definition handleImportFiles (importedFeatures : list Feature) (cl : Client) : Client :=
  match connection cl with
  | None => toast "Connexion non établie." cl
  | Some _ =>
      if readOnly cl then toast "Session en lecture seule." cl else
      match importedFeatures with
      | [] => cl
      | _ => toast "élément(s) importé(s)."
               (transact features_observer [Push importedFeatures] cl)
      end
  end.

(** [shareView]; [state] is what the map's camera gives. *)
Definition shareView (silent : bool) (state : ViewState) (cl : Client) : Client :=
  if negb (mapRef cl) then cl else
  match connection cl with
  | None => cl
  | Some conn =>
      if readOnly cl then
        (if silent then cl else toast "Session en lecture seule." cl)
      else
        let cl1 := set_connection (Some (view_set state (undoOrigin cl) conn)) cl in
        if silent then cl1 else toast "Vue partagée avec la session." cl1
  end.

(** Running the observer after the undo manager changed the list. *)
Definition after_manager (before : YArray) (cl : Client) : Client :=
  match connection cl with
  | None => cl
  | Some conn =>
      if array_changed before (features conn) then features_observer cl else cl
  end.

Definition handleUndo (cl : Client) : Client :=
  if readOnly cl then cl else
  match connection cl with
  | None => cl
  | Some conn => after_manager (features conn) (set_connection (Some (undo conn)) cl)
  end.

Definition handleRedo (cl : Client) : Client :=
  if readOnly cl then cl else
  match connection cl with
  | None => cl
  | Some conn => after_manager (features conn) (set_connection (Some (redo conn)) cl)
  end.

Definition handleSelect (layer : Layer) (cl : Client) : Client :=
  match connection cl with
  | None => cl
  | Some conn =>
      match featureId layer with
      | Some fid =>
          if truthy (Some fid)
          then set_connection (Some (selection_set fid conn))
                 (set_localSelectionRef (Some fid) cl)
          else cl
      | None => cl
      end
  end.

(** ** Notions used in the statements *)

(** The identities of an array are below its clock, its marks are on its
    items, no identity occurs twice, every item has its content. *)
Definition wf_array (arr : YArray) : Prop :=
  (∀ i, i ∈ order arr → (i < clock arr)%nat)
  ∧ (∀ i, i ∈ deleted arr → i ∈ order arr)
  ∧ NoDup (order arr)
  ∧ (∀ i, i ∈ order arr → is_Some (content arr !! i)).

(** [after] is [before] some transactions later. *)
Definition extends (before after : YArray) : Prop :=
  (clock before ≤ clock after)%nat
  ∧ deleted before ⊆ deleted after
  ∧ filter (λ i, (i < clock before)%nat) (order after) = order before
  ∧ (∀ i, (i < clock before)%nat → content after !! i = content before !! i).

#[global] Instance Target_eq_dec : EqDecision Target.
Proof. solve_decision. Defined.

(** The transactions on the feature list that a connection committed. *)
Definition feature_transactions (conn : Connection) : list Transaction :=
  filter (λ t, tx_target t = OnFeatures) (txlog conn).

(** What of the document the feature list and its history consist of. *)
Definition doc_view (cl : Client) : option (YArray * UndoManager * list Transaction) :=
  (λ conn, (features conn, undoManager conn, feature_transactions conn))
    <$> connection cl.

(** What a listener may change while [syncLayers] removes a layer:
    neither the feature list and its history, nor the props, nor the
    layers. *)
Definition frame (c c' : Client) : Prop :=
  doc_view c' = doc_view c
  ∧ readOnly c' = readOnly c
  ∧ undoOrigin c' = undoOrigin c
  ∧ mapRef c' = mapRef c
  ∧ layersRef c' = layersRef c.

(** A listener that keeps to [frame] whenever local events are suppressed. *)
Definition quiet (removed : Layer → Client → Client) : Prop :=
  ∀ layer c, suppressLocalEventsRef c = true → frame c (removed layer c).

(** The view holds, under [k], a layer that carries the feature id [k]. *)
Definition has_layer (k : string) (cl : Client) : Prop :=
  ∃ layer, layersRef cl !! k = Some layer ∧ featureId layer = Some k.

(** The layer [syncLayers] leaves for a feature of the list. *)
Definition synced_layer (old : option Layer) (feature : Feature) : Layer :=
  match old with
  | Some existing => updateLayerGeometry existing feature
  | None => {| featureId := Some (f_id feature);
               layer_feature := Some feature;
               shape := match f_geometry feature with
                        | LineString coordinates => Polyline coordinates
                        | Point coordinates => CircleMarker coordinates
                        end |}
  end.


(** ** Sample data, for running the model *)


Definition sample_client (ro : bool) : Client :=
  {| connection := Some (new_Connection (Some (Sym 7)) 1);
     readOnly := ro; undoOrigin := Sym 7; mapRef := true;
     layersRef := ∅; layerHandlersRef := ∅; featureCacheRef := ∅;
     suppressLocalEventsRef := false; localSelectionRef := None;
     toasts := [] |}.


(** A client that receives [tx] from the provider and observes it. *)
Definition receive (ops : list Op) (cl : Client) : Client :=
  match connection cl with
  | Some conn =>
      features_observer (set_connection (Some (commit ops Provider conn)) cl)
  | None => cl
  end.




Definition feature_a : Feature :=
  {| f_id := "a"; f_geometry := Point (1, 1)%Z; f_kind := point; f_name := None |}.
Definition feature_b : Feature :=
  {| f_id := "b"; f_geometry := Point (2, 2)%Z; f_kind := point; f_name := None |}.
Definition feature_c : Feature :=
  {| f_id := "c"; f_geometry := Point (3, 3)%Z; f_kind := point; f_name := None |}.

End Client.

(** * The server's endpoints and its shutdown *)

Module Endpoints.
Import Server.

(** [rooms.size], the figure of [/health] and the first of [/metrics]. *)
Definition rooms_active (st : State) : nat := size (rooms st).

(** [Array.from(rooms.values()).filter((room) => room.cleanupTimer).length] *)
Definition rooms_waiting_cleanup (st : State) : nat :=
  length (filter (λ room, is_Some (cleanupTimer room))
            (snd <$> map_to_list (rooms st))).

Definition newline : string := String (ascii_of_nat 10) EmptyString.

(** The body that [/metrics] sends. *)
Definition metrics (st : State) : string :=
  "rooms_active " +:+ pretty (rooms_active st) +:+ newline
  +:+ "rooms_total_created " +:+ pretty (totalRoomsCreated st) +:+ newline
  +:+ "rooms_waiting_cleanup " +:+ pretty (rooms_waiting_cleanup st) +:+ newline.

(** The room an event is about; a timeout is about the room its callback
    was scheduled for. *)
Definition event_room (st : State) (ev : Event) : option string :=
  match ev with
  | EvUpgrade req _ _ => Some (req_roomId req)
  | EvClose roomId _ _ => Some roomId
  | EvTimeout h => fst <$> timers st !! h
  end.

(** Every pending timeout is due [ROOM_TTL_MS] after the last activity
    of the room it is for. *)
Definition timers_due (env : Env) (st : State) : Prop :=
  ∀ h roomId deadline, timers st !! h = Some (roomId, deadline) →
    ∃ context, rooms st !! roomId = Some context
               ∧ deadline = (lastActive context + ROOM_TTL_MS env)%Z.

(** [logger.info({ roomId }, 'created room')] *)
Definition created_log (e : LogEntry) : bool :=
  match e with
  | LogInfo msg _ => String.eqb msg "created room"
  | LogWarn _ _ _ => false
  end.

(** How many rooms the log says were created. *)
Definition creations_logged (st : State) : nat :=
  length (List.filter created_log (logs st)).

Section Shutdown.

Variable env : Env.

(** [keys.forEach((key) => cleanupRoom(key))] *)
Definition cleanup_each (keys : list string) (st : State) : State :=
  foldl (λ s key, cleanupRoom_state env key s) st keys.

(** [rooms.forEach((_value, key) => cleanupRoom(key))], the registry work
    of [shutdown] (line 287): every entry of the map is visited, since a
    callback deletes no entry but its own. *)
Definition shutdown (st : State) : State :=
  cleanup_each (fst <$> map_to_list (rooms st)) st.

End Shutdown.

End Endpoints.

(** * Routing of an upgrade request (server, lines 69-71, 118-127, 185-222)

    A string is a sequence of code units below 256. *)

Module Routing.
Import Server.

(** [path.startsWith('/') ? path : `/${path}`] *)
Definition normalizePath (path : string) : string :=
  if String.prefix "/" path then path else "/" +:+ path.

(** [s.split(sep)], for a separator of one character: the parts between
    the separators, empty ones included. *)
Fixpoint split (sep : ascii) (s : string) : list string :=
  match s with
  | EmptyString => [EmptyString]
  | String c s' =>
      let parts := split sep s' in
      if Ascii.eqb c sep then EmptyString :: parts
      else String c (hd EmptyString parts) :: tl parts
  end.

(** [parts.filter(Boolean)] *)
Definition filter_Boolean (parts : list string) : list string :=
  List.filter (λ part, truthy (Some part)) parts.

(** [path.split('/').filter(Boolean)] *)
Definition segments (path : string) : list string :=
  filter_Boolean (split "/" path).

(** [l.every((x, index) => p(x, index))], counting from [index]. *)
Fixpoint every {A} (p : A → nat → bool) (l : list A) (index : nat) : bool :=
  match l with
  | [] => true
  | x :: l' => p x index && every p l' (S index)
  end.

(** [wsPathSegments.every((segment, index) => pathSegments[index] === segment)] *)
Definition pathMatches (wsPathSegments pathSegments : list string) : bool :=
  every (λ segment index, bool_decide (pathSegments !! index = Some segment))
    wsPathSegments 0.

(** The white space and line terminators that [trim] strips, among the
    code units below 256: TAB, LF, VT, FF, CR, SP and NBSP. *)
Definition white_space (c : ascii) : bool :=
  let n := nat_of_ascii c in
  ((9 <=? n) && (n <=? 13) || (n =? 32) || (n =? 160))%nat.

Fixpoint trimStart (s : string) : string :=
  match s with
  | EmptyString => EmptyString
  | String c s' => if white_space c then trimStart s' else s
  end.

Fixpoint trimEnd (s : string) : string :=
  match s with
  | EmptyString => EmptyString
  | String c s' =>
      match trimEnd s' with
      | EmptyString => if white_space c then EmptyString else String c EmptyString
      | rest => String c rest
      end
  end.

(** [s.trim()] *)
Definition trim (s : string) : string := trimEnd (trimStart s).

(** A string of white space only. *)
Definition all_white (s : string) : bool :=
  forallb white_space (list_ascii_of_string s).

(** The header [x-forwarded-for] as [req.headers] holds it. *)
Inductive Forwarded :=
  | NoForwarded
  | ForwardedString (value : string)
  | ForwardedArray (values : list string).

Definition extractIp (forwarded : Forwarded) (remoteAddress : option string)
    : string :=
  match forwarded with
  | ForwardedString (String c s) =>
      default "unknown" (trim <$> head (split "," (String c s)))
  | ForwardedArray (first :: _) => first
  | _ => default "unknown" remoteAddress
  end.

(** ** Allowed origins (lines 33-51) *)

(** [(process.env.CORS_ORIGINS ?? '').split(',').map((entry) =>
    entry.trim()).filter(Boolean)] *)
Definition allowedOrigins (CORS_ORIGINS : option string) : list string :=
  filter_Boolean (trim <$> split "," (default EmptyString CORS_ORIGINS)).

Inductive CorsVerdict :=
  | OriginAllowed
  | OriginRefused (message : string).

(** The [origin] callback given to [cors]. *)
Definition cors_origin (allowed : list string) (origin : option string)
    : CorsVerdict :=
  if negb (truthy origin) || bool_decide (default EmptyString origin ∈ allowed)
  then OriginAllowed
  else OriginRefused "Origin not allowed by CORS".

(** What the server does of the [Origin] of a request: [None] when the
    middleware is not installed, for want of an allowed origin. *)
Definition cors (CORS_ORIGINS : option string) (origin : option string)
    : option CorsVerdict :=
  let allowed := allowedOrigins CORS_ORIGINS in
  if (0 <? length allowed)%nat then Some (cors_origin allowed origin) else None.

(** What the handler reads of [new URL(req.url ?? '/', `http://${host}`)]. *)
Record Url := {
  pathname : string;
  search_k : option string;
  search_mode : option string
}.

(** An upgrade request as it reaches the handler; [url] is [None] when
    [new URL] throws. *)
Record Incoming := {
  headers_host : option string;
  url : option Url;
  x_forwarded_for : Forwarded;
  remoteAddress : option string
}.

(** How the first part of the handler ends: with [abortUpgrade], after
    the warning it logged if any; with an exception that nothing catches;
    or with the request that goes on to the room lookup. *)
Inductive Routed :=
  | Abort (statusCode : Z) (message : string) (warning : option string)
  | Uncaught (err : string)
  | Proceed (req : Request).


Section Handler.

Variable env : Env.

(** [process.env.WS_PATH ?? '/ws'] *)
Variable WS_PATH : string.

(** [decodeURIComponent] of the platform, which throws on a malformed
    escape sequence. *)
Variable decodeURIComponent : string → Outcome string.

Definition normalizedWsPath : string := normalizePath WS_PATH.

Definition wsPathSegments : list string := segments normalizedWsPath.

(** The [upgrade] handler up to the room lookup (lines 186-224). *)
Definition route (inc : Incoming) : Routed :=
  if negb (truthy (headers_host inc)) then Abort 400 "Bad Request" None else
  match url inc with
  | None => Abort 400 "Bad Request" (Some "failed to parse ws url")
  | Some requestUrl =>
      let pathSegments := segments (pathname requestUrl) in
      if negb (pathMatches wsPathSegments pathSegments)
      then Abort 404 "Not Found" None else
      let roomSegment := pathSegments !! length wsPathSegments in
      if negb (truthy roomSegment) then Abort 400 "Room Required" None else
      match decodeURIComponent (default EmptyString roomSegment) with
      | Threw err => Uncaught err
      | Returned decoded =>
          Proceed {| req_roomId := trim decoded;
                     req_k := search_k requestUrl;
                     req_mode := search_mode requestUrl;
                     req_ip := extractIp (x_forwarded_for inc)
                                 (remoteAddress inc) |}
      end
  end.


End Handler.

(** ** Sample data, for running the model *)

(** A decoder for the sample requests: it knows [%20] and throws on any
    other escape. *)
Fixpoint sample_decode (s : string) : Outcome string :=
  match s with
  | EmptyString => Returned EmptyString
  | String "%" (String "2" (String "0" s')) =>
      match sample_decode s' with
      | Returned t => Returned (String " " t)
      | Threw err => Threw err
      end
  | String "%" _ => Threw "URIError: URI malformed"
  | String c s' =>
      match sample_decode s' with
      | Returned t => Returned (String c t)
      | Threw err => Threw err
      end
  end.

Definition incoming (path : string) (forwarded : Forwarded) : Incoming :=
  {| headers_host := Some "localhost:1234";
     url := Some {| pathname := path; search_k := None; search_mode := None |};
     x_forwarded_for := forwarded;
     remoteAddress := Some "10.0.0.1" |}.

End Routing.

(** * More of the room page ([RoomPage.tsx]) *)

Module Page.
Import Client.

(** ** [throttle] (lines 35-63)

    The closure's three variables, the due time of the pending
    [setTimeout] standing for its handle, and the calls of [fn] made so
    far: when, and with which arguments. *)
Record Throttle (A : Type) := {
  last : Z;
  timeout : option Z;
  trailing : option A;
  calls : list (Z * A)
}.
Arguments last {A} _.
Arguments timeout {A} _.
Arguments trailing {A} _.
Arguments calls {A} _.

(** [throttle(fn, wait)] *)
Definition throttle {A} : Throttle A :=
  {| last := 0; timeout := None; trailing := None; calls := [] |}.

(** One call of the throttled function, when [Date.now()] is [now]. *)
Definition throttled {A} (wait : Z) (now : Z) (args : A) (t : Throttle A)
    : Throttle A :=
  if bool_decide (now - last t >= wait)%Z then
    {| last := now; timeout := None; trailing := trailing t;
       calls := calls t ++ [(now, args)] |}
  else
    {| last := last t;
       timeout := match timeout t with
                  | Some due => Some due
                  | None => Some (now + (wait - (now - last t)))%Z
                  end;
       trailing := Some args;
       calls := calls t |}.

(** The callback of the pending [setTimeout], run when [Date.now()] is
    [now]; without a pending timeout nothing runs. *)
Definition expire {A} (now : Z) (t : Throttle A) : Throttle A :=
  match timeout t with
  | None => t
  | Some _ =>
      {| last := now; timeout := None; trailing := None;
         calls := calls t ++ match trailing t with
                             | Some args => [(now, args)]
                             | None => []
                             end |}
  end.

(** What happens to a throttled function: it is called, or its timeout
    fires. *)
Inductive Tick (A : Type) :=
  | Call (now : Z) (args : A)
  | Expire (now : Z).
Arguments Call {A} now args.
Arguments Expire {A} now.

Definition tick {A} (wait : Z) (t : Throttle A) (ev : Tick A) : Throttle A :=
  match ev with
  | Call now args => throttled wait now args t
  | Expire now => expire now t
  end.

Definition ticks {A} (wait : Z) (evs : list (Tick A)) (t : Throttle A)
    : Throttle A :=
  foldl (tick wait) t evs.

(** A timeout fires only when one is pending, and not before it is due. *)
Definition timely {A} (t : Throttle A) (ev : Tick A) : Prop :=
  match ev with
  | Call _ _ => True
  | Expire now => ∃ due, timeout t = Some due ∧ (due ≤ now)%Z
  end.

Fixpoint timely_run {A} (wait : Z) (evs : list (Tick A)) (t : Throttle A)
    : Prop :=
  match evs with
  | [] => True
  | ev :: evs' => timely t ev ∧ timely_run wait evs' (tick wait t ev)
  end.

(** Successive moments at least [wait] apart. *)
Fixpoint spaced (wait : Z) (times : list Z) : Prop :=
  match times with
  | t1 :: ((t2 :: _) as rest) => (wait ≤ t2 - t1)%Z ∧ spaced wait rest
  | _ => True
  end.

(** The most recent call among the events. *)
Definition last_call {A} (evs : list (Tick A)) : option (Z * A) :=
  foldl (λ acc ev, match ev with
                   | Call now args => Some (now, args)
                   | Expire _ => acc
                   end) None evs.


(** ** The keyboard shortcuts (lines 1047-1094) *)

Record KeyboardEvent := {
  ctrlKey : bool;
  shiftKey : bool;
  key : string
}.

(** What a key press triggers. *)
Inductive Shortcut :=
  | DoUndo
  | DoRedo
  | DoDrawLine
  | DoDrawPoint
  | DoEditMode
  | DoRemovalMode
  | DoImport
  | DoExport
  | NoShortcut.

(** The lower case of a code unit below 256: [A]-[Z], and the capital
    letters of Latin-1 but the multiplication sign. *)
Definition lower (c : ascii) : ascii :=
  let n := nat_of_ascii c in
  if ((65 <=? n) && (n <=? 90)
      || (192 <=? n) && (n <=? 222) && negb (n =? 215))%nat
  then ascii_of_nat (n + 32)
  else c.

(** [s.toLowerCase()] *)
Fixpoint toLowerCase (s : string) : string :=
  match s with
  | EmptyString => EmptyString
  | String c s' => String (lower c) (toLowerCase s')
  end.

(** [handleKeyDown]: the first test that holds decides. *)
Definition handleKeyDown (event : KeyboardEvent) : Shortcut :=
  let k := toLowerCase (key event) in
  if ctrlKey event && String.eqb k "z" then DoUndo
  else if (ctrlKey event && String.eqb k "y")
          || (ctrlKey event && shiftKey event && String.eqb k "z") then DoRedo
  else if String.eqb k "d" then DoDrawLine
  else if String.eqb k "p" then DoDrawPoint
  else if String.eqb k "e" then DoEditMode
  else if String.eqb (key event) "Delete" || String.eqb (key event) "Backspace"
  then DoRemovalMode
  else if String.eqb k "g" then DoImport
  else if String.eqb k "x" then DoExport
  else NoShortcut.

(** ** Selection (lines 747-771) *)

(** The [pm:unselect] listener. *)
Definition handleUnselect (layer : Layer) (cl : Client) : Client :=
  match connection cl with
  | None => cl
  | Some conn =>
      if negb (truthy (featureId layer)) then cl else
      if bool_decide (localSelectionRef cl = featureId layer)
      then set_connection (Some (selection_delete conn))
             (set_localSelectionRef None cl)
      else cl
  end.

(** ** GPX import (lines 96-159, 786-831) *)

(** The geometry of a feature that [togeojson] made of a file. *)
Inductive GeoGeometry :=
  | GLineString (coordinates : list (Z * Z))
  | GPoint (coordinates : Z * Z)
  | GMultiLineString (coordinates : list (list (Z * Z)))
  | GMultiPoint (coordinates : list (Z * Z))
  | GOther.

(** Such a feature; [g_kind] and [g_name] are the [kind] and the [name]
    among its properties, when it has them. *)
Record GeoFeature := {
  g_geometry : GeoGeometry;
  g_kind : option Kind;
  g_name : option string
}.

(** A dropped file: [gpx] is what parsing it and [togeojson] give, [None]
    when reading, parsing or converting throws. *)
Record File := {
  file_name : string;
  file_size : N;
  gpx : option (list GeoFeature)
}.

Definition MAX_FILE_SIZE : N := 10 * 1024 * 1024.

Section GpxImport.

(** The successive results of [nanoid()]. *)
Variable nanoid : nat → string.

(** The feature made of one geometry; the properties of the imported
    feature are spread after [kind]. *)
Definition imported (feature : GeoFeature) (id : string) (geometry : Geometry)
    (kind : Kind) : Feature :=
  normalizeFeature
    {| f_id := id; f_geometry := geometry;
       f_kind := default kind (g_kind feature);
       f_name := g_name feature |}.

(** [ensureFeature], [n] calls of [nanoid] having been made before; it
    returns the number of calls made after. *)
Definition ensureFeature (feature : GeoFeature) (n : nat) : list Feature * nat :=
  let id := nanoid n in
  match g_geometry feature with
  | GLineString coordinates =>
      ([imported feature id (LineString coordinates) line], S n)
  | GPoint coordinates =>
      ([imported feature id (Point coordinates) point], S n)
  | GMultiLineString multi =>
      (imap (λ i coords, imported feature (nanoid (S n + i)) (LineString coords) line)
         multi,
       S n + length multi)
  | GMultiPoint multi =>
      (imap (λ i coord, imported feature (nanoid (S n + i)) (Point coord) point)
         multi,
       S n + length multi)
  | GOther => ([], S n)
  end.

(** [geojson.features.forEach((feature) => { importedFeatures =
    importedFeatures.concat(ensureFeature(feature)) })] *)
Definition ensureFeatures (features : list GeoFeature) (n : nat)
    : list Feature * nat :=
  foldl (λ '(importedFeatures, k) feature,
           let '(fs, k') := ensureFeature feature k in
           (importedFeatures ++ fs, k'))
    ([], n) features.

(** What the loop over the files has so far: the features, the number of
    [nanoid] calls, the error toasts. *)
Record Imported := {
  importedFeatures : list Feature;
  ids_used : nat;
  errors : list string
}.

(** One turn of the loop over the files. *)
Definition import_file (acc : Imported) (file : File) : Imported :=
  if (MAX_FILE_SIZE <? file_size file)%N then
    {| importedFeatures := importedFeatures acc; ids_used := ids_used acc;
       errors := errors acc
                 ++ ["“" +:+ file_name file +:+ "” est trop volumineux (max 10 Mo)."] |}
  else
    match gpx file with
    | None =>
        {| importedFeatures := importedFeatures acc; ids_used := ids_used acc;
           errors := errors acc ++ ["Impossible d’importer " +:+ file_name file] |}
    | Some features =>
        let '(fs, k) := ensureFeatures features (ids_used acc) in
        {| importedFeatures := importedFeatures acc ++ fs; ids_used := k;
           errors := errors acc |}
    end.

Definition import_files (files : list File) (n : nat) : Imported :=
  foldl import_file
    {| importedFeatures := []; ids_used := n; errors := [] |} files.

(** [handleImportFiles] over the files themselves. *)
Definition handleImportFileList (files : list File) (n : nat) (cl : Client)
    : Client :=
  match connection cl with
  | None => toast "Connexion non établie." cl
  | Some _ =>
      if readOnly cl then toast "Session en lecture seule." cl else
      let result := import_files files n in
      handleImportFiles (importedFeatures result)
        (foldl (λ c msg, toast msg c) cl (errors result))
  end.

(** The ids of [fs] are results of [nanoid], each of another call, the
    calls being among those from the [n]-th to before the [k]-th. *)
Definition supplied (n k : nat) (fs : list Feature) : Prop :=
  ∃ ks, f_id <$> fs = nanoid <$> ks ∧ NoDup ks
        ∧ ∀ j, j ∈ ks → (n ≤ j < k)%nat.

End GpxImport.

(** Sample data, for running the model. *)
Definition sample_nanoid (n : nat) : string := "id-" +:+ pretty n.

Definition track : GeoFeature :=
  {| g_geometry := GMultiLineString [[(1, 1); (2, 2)]; [(3, 3); (4, 4)]]%Z;
     g_kind := None; g_name := Some "Col du Galibier" |}.

Definition waypoint : GeoFeature :=
  {| g_geometry := GPoint (5, 5)%Z; g_kind := None; g_name := None |}.

Definition sample_files : list File :=
  [ {| file_name := "big.gpx"; file_size := 20000000; gpx := Some [waypoint] |};
    {| file_name := "ride.gpx"; file_size := 2048; gpx := Some [track; waypoint] |};
    {| file_name := "broken.gpx"; file_size := 10; gpx := None |} ].

(** What holds of the closure between two events: the calls made are
    spaced and none is later than [last]; a pending timeout is due [wait]
    after [last]; and the most recent call of the throttled function has
    been passed on, or waits in [trailing] for a timeout due after it. *)
Definition throttle_inv {A} (wait : Z) (t : Throttle A)
    (latest : option (Z * A)) : Prop :=
  spaced wait (fst <$> calls t)
  ∧ (∀ time, time ∈ fst <$> calls t → time ≤ last t)%Z
  ∧ (∀ due, timeout t = Some due → due = last t + wait)%Z
  ∧ match latest with
    | None => True
    | Some (now, args) =>
        match timeout t with
        | Some due => trailing t = Some args ∧ (now ≤ due)%Z
        | None => ∃ time, list.last (calls t) = Some (time, args) ∧ (now ≤ time)%Z
        end
    end.

End Page.

(** * The home page ([HomePage.tsx]) *)

Module Home.
Import Routing Page.

(** Every code unit of [s] satisfies [p]. *)
Definition all_chars (p : ascii → bool) (s : string) : bool :=
  forallb p (list_ascii_of_string s).

(** [\w]: a letter of [A-Za-z], a digit or the underscore. *)
Definition word_char (c : ascii) : bool :=
  let n := nat_of_ascii c in
  ((97 <=? n) && (n <=? 122) || (65 <=? n) && (n <=? 90)
   || (48 <=? n) && (n <=? 57) || (n =? 95))%nat.

Definition hyphen (c : ascii) : bool := Ascii.eqb c "-".

(** [[\w\s-]], what the first [replace] of [slugify] keeps. *)
Definition kept (c : ascii) : bool := word_char c || white_space c || hyphen c.

(** [[\s_-]], what the second [replace] turns into hyphens. *)
Definition separator (c : ascii) : bool :=
  white_space c || Ascii.eqb c "_" || hyphen c.

(** [s.replace(/[^\w\s-]/g, '')] *)
Fixpoint strip_symbols (s : string) : string :=
  match s with
  | EmptyString => EmptyString
  | String c s' => if kept c then String c (strip_symbols s') else strip_symbols s'
  end.

(** [s.replace(/[\s_-]+/g, '-')]; [in_run] tells that the code unit
    before was a separator. *)
Fixpoint hyphenate (in_run : bool) (s : string) : string :=
  match s with
  | EmptyString => EmptyString
  | String c s' =>
      if separator c
      then (if in_run then hyphenate true s' else String "-" (hyphenate true s'))
      else String c (hyphenate false s')
  end.

Fixpoint strip_leading_hyphens (s : string) : string :=
  match s with
  | EmptyString => EmptyString
  | String c s' => if hyphen c then strip_leading_hyphens s' else s
  end.

Fixpoint strip_trailing_hyphens (s : string) : string :=
  match s with
  | EmptyString => EmptyString
  | String c s' =>
      match strip_trailing_hyphens s' with
      | EmptyString => if hyphen c then EmptyString else String c EmptyString
      | rest => String c rest
      end
  end.

(** [s.replace(/^-+|-+$/g, '')] *)
Definition strip_hyphens (s : string) : string :=
  strip_trailing_hyphens (strip_leading_hyphens s).

Section Slug.

(** [String.prototype.normalize('NFKD')] of the platform. *)
Variable normalize_NFKD : string → string.

Definition slugify (value : string) : string :=
  toLowerCase
    (strip_hyphens (hyphenate false (trim (strip_symbols (normalize_NFKD value))))).

(** [buildRoomSlug]; [suffix] is what [nanoid(8)] returns. *)
Definition buildRoomSlug (name suffix : string) : string :=
  let trimmed := trim name in
  if negb (truthy (Some trimmed)) then suffix else
  let slug := slugify trimmed in
  if truthy (Some slug) then slug +:+ "-" +:+ suffix else suffix.

End Slug.

(** A code unit of ASCII. *)
Definition is_ascii (c : ascii) : bool := (nat_of_ascii c <? 128)%nat.

(** [[a-z0-9-]], the alphabet of a slug. *)
Definition slug_char (c : ascii) : bool :=
  let n := nat_of_ascii c in
  ((97 <=? n) && (n <=? 122) || (48 <=? n) && (n <=? 57) || (n =? 45))%nat.

(** A letter of [A-Za-z], a digit or a hyphen: what a slug is made of
    before it is put in lower case. *)
Definition slug_source (c : ascii) : bool :=
  word_char c && negb (Ascii.eqb c "_") || hyphen c.

(** No hyphen follows a hyphen. *)
Fixpoint single_hyphens (s : string) : bool :=
  match s with
  | EmptyString => true
  | String c s' =>
      match s' with
      | String c' _ => negb (hyphen c && hyphen c')
      | EmptyString => true
      end && single_hyphens s'
  end.

(** The first code unit of a string. *)
Definition first_char (s : string) : option ascii :=
  match s with
  | EmptyString => None
  | String c _ => Some c
  end.

(** The last code unit of a string. *)
Fixpoint last_char (s : string) : option ascii :=
  match s with
  | EmptyString => None
  | String c EmptyString => Some c
  | String _ s' => last_char s'
  end.

(** A session name of sixty letters. *)
Definition long_name : string :=
  string_of_list_ascii (replicate 60 "a"%char).

End Home.

(** * The connection of a client ([useRoomConnection.ts]) *)

Module Hook.
Import Routing.





End Hook.

(** * The first server ([server/src/room-registry.ts], [server/src/index.ts]) *)

Module Legacy.

(** A [RoomInfo]; [doc] is opaque to the registry. *)
Record RoomInfo := {
  doc : nat;
  clientsCount : Z;
  lastSeen : Z
}.

(** The registry object [rooms], as a map from room ids (the ids that
    name a property of [Object.prototype] aside). *)
Notation Rooms := (gmap string RoomInfo).

Definition getRoom (roomId : string) (rooms : Rooms) : option RoomInfo :=
  rooms !! roomId.

Definition setRoom (roomId : string) (info : RoomInfo) (rooms : Rooms) : Rooms :=
  <[roomId := info]> rooms.

Definition removeRoom (roomId : string) (rooms : Rooms) : Rooms :=
  delete roomId rooms.

(** [updateLastSeen], when [Date.now()] is [now]. *)
Definition updateLastSeen (roomId : string) (now : Z) (rooms : Rooms) : Rooms :=
  match rooms !! roomId with
  | Some info =>
      <[roomId := {| doc := doc info; clientsCount := clientsCount info;
                     lastSeen := now |}]> rooms
  | None => rooms
  end.

Definition updateClientsCount (roomId : string) (count : Z) (rooms : Rooms)
    : Rooms :=
  match rooms !! roomId with
  | Some info =>
      <[roomId := {| doc := doc info; clientsCount := count;
                     lastSeen := lastSeen info |}]> rooms
  | None => rooms
  end.

Definition ROOM_TTL_MS : Z := 60 * 60 * 1000.

(** One turn of the collector's loop over [Object.entries(rooms)]. *)
Definition collect (now : Z) (rooms : Rooms) (entry : string * RoomInfo) : Rooms :=
  if bool_decide (now - lastSeen entry.2 > ROOM_TTL_MS)%Z
  then removeRoom entry.1 rooms
  else rooms.

(** The callback of the collector's [setInterval], when [Date.now()] is
    [now]; the line it prints for each removal is left out. *)
Definition garbage_collect (now : Z) (rooms : Rooms) : Rooms :=
  foldl (collect now) rooms (map_to_list rooms).

(** [roomCount] and [clientCount] of [/metrics]. *)
Definition roomCount (rooms : Rooms) : nat := length (map_to_list rooms).*1.

Definition clientCount (rooms : Rooms) : Z :=
  foldl (λ acc info, (acc + clientsCount info)%Z) 0%Z (map_to_list rooms).*2.

End Legacy.

(** * Properties of the replicated feature list *)

Module ArrayTheory.
Import Client.

Section ListFacts.

Context {A B : Type}.

Lemma omap_ext_in (f g : A → option B) (l : list A) :
  (∀ x, x ∈ l → f x = g x) → omap f l = omap g l.
Proof.
  induction l as [|x l IH]; intros Hfg; [done|]. cbn.
  rewrite (Hfg x) by set_solver. rewrite IH; [done|].
  intros y Hy. apply Hfg. set_solver.
Qed.

Lemma filter_all (P : A → Prop) `{!∀ x, Decision (P x)} (l : list A) :
  (∀ x, x ∈ l → P x) → filter P l = l.
Proof.
  induction l as [|x l IH]; intros Hall; [done|].
  rewrite filter_cons_True by (apply Hall; set_solver).
  f_equal. apply IH. intros y Hy. apply Hall. set_solver.
Qed.

Lemma filter_none (P : A → Prop) `{!∀ x, Decision (P x)} (l : list A) :
  (∀ x, x ∈ l → ¬ P x) → filter P l = [].
Proof.
  induction l as [|x l IH]; intros Hnone; [done|].
  rewrite filter_cons_False by (apply Hnone; set_solver).
  apply IH. intros y Hy. apply Hnone. set_solver.
Qed.

Lemma omap_take (f : A → option B) (l : list A) n :
  (∀ x, x ∈ l → is_Some (f x)) → omap f (take n l) = take n (omap f l).
Proof.
  revert n. induction l as [|x l IH]; intros [|n] Hall; csimpl; try done.
  destruct (Hall x) as [y Hy]; [set_solver|]. rewrite Hy. csimpl. f_equal.
  apply IH. intros z Hz. apply Hall. set_solver.
Qed.

Lemma omap_drop (f : A → option B) (l : list A) n :
  (∀ x, x ∈ l → is_Some (f x)) → omap f (drop n l) = drop n (omap f l).
Proof.
  revert n. induction l as [|x l IH]; intros [|n] Hall; csimpl; try done.
  destruct (Hall x) as [y Hy]; [set_solver|]. rewrite Hy. csimpl.
  apply IH. intros z Hz. apply Hall. set_solver.
Qed.

End ListFacts.

Lemma insert_items_notin ids fs (m : gmap nat Feature) i :
  i ∉ ids → insert_items ids fs m !! i = m !! i.
Proof.
  revert fs. induction ids as [|j ids IH]; intros [|f fs] Hnotin; cbn; try done.
  rewrite lookup_insert_ne by set_solver. apply IH. set_solver.
Qed.

Lemma insert_items_is_Some ids fs (m : gmap nat Feature) i :
  length ids = length fs → i ∈ ids → is_Some (insert_items ids fs m !! i).
Proof.
  revert fs. induction ids as [|j ids IH]; intros [|f fs] Hlen Hin; cbn in *;
    try done; try (by apply elem_of_nil in Hin).
  destruct (decide (j = i)) as [->|Hne].
  - rewrite lookup_insert_eq. eauto.
  - rewrite lookup_insert_ne by done. apply IH; [lia|set_solver].
Qed.

Lemma omap_insert_items ids fs (m : gmap nat Feature) :
  NoDup ids → length ids = length fs →
  omap (λ i, insert_items ids fs m !! i) ids = fs.
Proof.
  revert fs. induction ids as [|j ids IH]; intros [|f fs] Hnd Hlen; cbn in *;
    try done.
  apply NoDup_cons in Hnd as [Hj Hnd].
  rewrite lookup_insert_eq. cbn. f_equal.
  transitivity (omap (λ i, insert_items ids fs m !! i) ids);
    [|apply IH; [done|lia]].
  apply omap_ext_in. intros i Hi.
  rewrite lookup_insert_ne; [done|]. by intros ->.
Qed.

Lemma wf_empty : wf_array empty_array.
Proof.
  unfold wf_array, empty_array; cbn.
  repeat split; try (intros i Hi; set_solver). constructor.
Qed.

Lemma extends_refl arr : wf_array arr → extends arr arr.
Proof.
  intros (Hlt & _). repeat split; try done.
  apply filter_all. intros i Hi. by apply Hlt.
Qed.

Lemma elem_of_take_drop (o : list nat) p i :
  i ∈ o ↔ i ∈ take p o ∨ i ∈ drop p o.
Proof. by rewrite <- elem_of_app, take_drop. Qed.

Lemma elem_of_spliced (o ids : list nat) p i :
  i ∈ take p o ++ ids ++ drop p o ↔ i ∈ o ∨ i ∈ ids.
Proof. rewrite !elem_of_app, (elem_of_take_drop o p). tauto. Qed.

Lemma NoDup_spliced (o ids : list nat) p :
  NoDup o → NoDup ids → (∀ i, i ∈ o → i ∉ ids) →
  NoDup (take p o ++ ids ++ drop p o).
Proof.
  intros Ho Hids Hdisj. rewrite <- (take_drop p o) in Ho.
  apply NoDup_app in Ho as (Ht & Htd & Hd).
  apply NoDup_app. split; [done|]. split.
  - intros i Hi [Hin|Hin]%elem_of_app.
    + apply (Hdisj i); [|done]. apply (elem_of_take_drop o p). by left.
    + by apply (Htd i).
  - apply NoDup_app. split; [done|]. split; [|done].
    intros i Hi Hin. apply (Hdisj i); [|done].
    apply (elem_of_take_drop o p). by right.
Qed.

Lemma wf_yarray_insert index fs arr :
  wf_array arr → wf_array (yarray_insert index fs arr).
Proof.
  intros (Hlt & Hdel & Hnd & Hc). unfold yarray_insert.
  case_decide; [|done]. split; [|split; [|split]]; cbn.
  - intros i [Hi|Hi]%elem_of_spliced.
    + specialize (Hlt i Hi). lia.
    + apply elem_of_seq in Hi. lia.
  - intros i Hi. apply elem_of_spliced. left. by apply Hdel.
  - apply NoDup_spliced; [done|apply NoDup_seq|].
    intros i Hi Hs%elem_of_seq. specialize (Hlt i Hi). lia.
  - intros i [Hi|Hi]%elem_of_spliced.
    + rewrite insert_items_notin; [by apply Hc|].
      intros Hs%elem_of_seq. specialize (Hlt i Hi). lia.
    + apply insert_items_is_Some; [by rewrite length_seq|done].
Qed.

Lemma extends_yarray_insert index fs arr :
  wf_array arr → extends arr (yarray_insert index fs arr).
Proof.
  intros Hwf. unfold yarray_insert. case_decide; [|by apply extends_refl].
  destruct Hwf as (Hlt & Hdel & Hnd & Hc).
  split; [|split; [|split]]; cbn.
  - lia.
  - done.
  - rewrite !filter_app.
    rewrite (filter_none _ (seq _ _)) by (intros i Hi%elem_of_seq; lia).
    rewrite (filter_all _ (take _ _)), (filter_all _ (drop _ _)).
    + apply take_drop.
    + intros i Hi. apply Hlt. apply (elem_of_take_drop _ (live_pos (deleted arr) (order arr) index)).
      by right.
    + intros i Hi. apply Hlt. apply (elem_of_take_drop _ (live_pos (deleted arr) (order arr) index)).
      by left.
  - intros i Hi. apply insert_items_notin. intros Hs%elem_of_seq. lia.
Qed.

Lemma live_order_subseteq arr i : i ∈ live_order arr → i ∈ order arr.
Proof. unfold live_order. by intros [_ ?]%list_elem_of_filter. Qed.

Lemma victims_live arr index len i :
  i ∈ take len (drop index (live_order arr)) → i ∈ live_order arr.
Proof.
  intros Hi. apply (elem_of_take_drop _ index). right.
  apply (elem_of_take_drop _ len). by left.
Qed.

Lemma wf_yarray_delete index len arr :
  wf_array arr → wf_array (yarray_delete index len arr).
Proof.
  intros (Hlt & Hdel & Hnd & Hc). split; [|split; [|split]]; cbn; try done.
  intros i [Hi|Hi]%elem_of_union; [by apply Hdel|].
  apply elem_of_list_to_set in Hi.
  by apply live_order_subseteq, (victims_live _ index len).
Qed.

Lemma extends_yarray_delete index len arr :
  wf_array arr → extends arr (yarray_delete index len arr).
Proof.
  intros (Hlt & _). split; [|split; [|split]]; cbn; try done.
  - set_solver.
  - apply filter_all. intros i Hi. by apply Hlt.
Qed.

Lemma wf_apply_op op arr : wf_array arr → wf_array (apply_op op arr).
Proof.
  destruct op; cbn;
    [apply wf_yarray_insert|apply wf_yarray_delete|apply wf_yarray_insert].
Qed.

Lemma extends_apply_op op arr : wf_array arr → extends arr (apply_op op arr).
Proof.
  destruct op; cbn;
    [apply extends_yarray_insert|apply extends_yarray_delete
    |apply extends_yarray_insert].
Qed.

Lemma extends_trans a b c : extends a b → extends b c → extends a c.
Proof.
  intros (Hc1 & Hd1 & Hf1 & Hm1) (Hc2 & Hd2 & Hf2 & Hm2).
  split; [lia|]. split; [set_solver|]. split.
  - rewrite <- Hf1, <- Hf2. symmetry. apply list_filter_filter_l.
    intros i Hi. lia.
  - intros i Hi. rewrite Hm2 by lia. by apply Hm1.
Qed.

Lemma apply_ops_wf_extends ops arr :
  wf_array arr →
  wf_array (apply_ops ops arr) ∧ extends arr (apply_ops ops arr).
Proof.
  revert arr. induction ops as [|op ops IH]; intros arr Hwf; cbn.
  - split; [done|by apply extends_refl].
  - destruct (IH (apply_op op arr)) as [Hwf' Hext']; [by apply wf_apply_op|].
    split; [done|].
    eapply extends_trans; [by apply extends_apply_op|done].
Qed.

(** *** What [toJSON] shows of a push and of a delete *)

Lemma live_pos_end (del : gset nat) (o : list nat) :
  let p := live_pos del o (length (filter (λ i, i ∉ del) o)) in
  filter (λ i, i ∉ del) (take p o) = filter (λ i, i ∉ del) o
  ∧ filter (λ i, i ∉ del) (drop p o) = [].
Proof.
  induction o as [|i o IH]; [done|]. cbn zeta in *. destruct IH as [IH1 IH2].
  destruct (decide (i ∈ del)) as [Hin|Hout].
  - rewrite (filter_cons_False _ i o) by (by intros ?).
    cbn [live_pos]. rewrite decide_True by done. cbn [take drop].
    rewrite filter_cons_False by (by intros ?). done.
  - rewrite (filter_cons_True _ i o) by done.
    cbn [live_pos length]. rewrite decide_False by done. cbn [take drop].
    rewrite filter_cons_True by done. by rewrite IH1.
Qed.

Lemma toJSON_push fs arr :
  wf_array arr → toJSON (yarray_push fs arr) = toJSON arr ++ fs.
Proof.
  intros (Hlt & Hdel & Hnd & Hc).
  unfold yarray_push, yarray_insert. rewrite decide_True by done.
  unfold toJSON, live_order. cbn.
  destruct (live_pos_end (deleted arr) (order arr)) as [Htake Hdrop].
  rewrite !filter_app, Htake, Hdrop, app_nil_r.
  rewrite (filter_all _ (seq _ _)).
  - rewrite omap_app. f_equal.
    + apply omap_ext_in. intros i [_ Hi]%list_elem_of_filter.
      apply insert_items_notin. intros Hs%elem_of_seq.
      specialize (Hlt i Hi). lia.
    + apply omap_insert_items; [apply NoDup_seq|by rewrite length_seq].
  - intros i Hi%elem_of_seq Hd. specialize (Hlt i (Hdel i Hd)). lia.
Qed.

Lemma filter_cut (l : list nat) index len :
  NoDup l →
  filter (λ x, x ∉ (list_to_set (take len (drop index l)) : gset nat)) l
  = take index l ++ drop (index + len) l.
Proof.
  intros Hnd.
  assert (l = take index l ++ take len (drop index l) ++ drop (index + len) l)
    as Hsplit by (by rewrite <- drop_drop, !take_drop).
  rewrite Hsplit in Hnd.
  apply NoDup_app in Hnd as (_ & Hab & Hnd).
  apply NoDup_app in Hnd as (_ & Hbc & _).
  rewrite Hsplit at 1. rewrite !filter_app.
  rewrite (filter_all _ (take index l)), (filter_none _ (take len _)),
    (filter_all _ (drop (index + len) l)); [done|..].
  - intros x Hx Hin%elem_of_list_to_set. by apply (Hbc x).
  - intros x Hx Hnot. apply Hnot. by apply elem_of_list_to_set.
  - intros x Hx Hin%elem_of_list_to_set. apply (Hab x Hx).
    apply elem_of_app. by left.
Qed.

Lemma live_order_delete index len arr :
  live_order (yarray_delete index len arr)
  = filter (λ x, x ∉ (list_to_set (take len (drop index (live_order arr)))
                      : gset nat))
      (live_order arr).
Proof.
  unfold live_order, yarray_delete. cbn [deleted order].
  rewrite list_filter_filter. apply list_filter_iff. intros i. set_solver.
Qed.

Lemma toJSON_delete index len arr :
  wf_array arr →
  toJSON (yarray_delete index len arr)
  = take index (toJSON arr) ++ drop (index + len) (toJSON arr).
Proof.
  intros (Hlt & Hdel & Hnd & Hc). unfold toJSON.
  assert (live_order (yarray_delete index len arr)
          = take index (live_order arr) ++ drop (index + len) (live_order arr))
    as ->.
  { rewrite live_order_delete. by apply filter_cut, NoDup_filter. }
  assert (∀ i, i ∈ live_order arr → is_Some (content arr !! i)) as Hdef
    by (intros i Hi; by apply Hc, live_order_subseteq).
  cbn. by rewrite omap_app, omap_take, omap_drop.
Qed.


End ArrayTheory.

(** * Properties of the undo manager *)

Module UndoTheory.
Import Client ArrayTheory.

Lemma filter_ext_in {A} (P Q : A → Prop)
    `{!∀ x, Decision (P x), !∀ x, Decision (Q x)} (l : list A) :
  (∀ x, x ∈ l → P x ↔ Q x) → filter P l = filter Q l.
Proof.
  induction l as [|x l IH]; intros Hext; [done|].
  rewrite !filter_cons.
  rewrite IH by (intros y Hy; apply Hext; set_solver).
  apply decide_ext, Hext. set_solver.
Qed.

Lemma elem_of_tx_insertions before after i :
  i ∈ tx_insertions before after ↔ i ∈ order after ∧ i ∉ order before.
Proof. unfold tx_insertions. set_solver. Qed.

Lemma elem_of_tx_deletions before after i :
  i ∈ tx_deletions before after ↔ i ∈ deleted after ∧ i ∉ deleted before.
Proof. unfold tx_deletions. set_solver. Qed.

Section Between.

(** Two states of the list, the second some transactions after the first. *)
Variables before after : YArray.
Hypothesis Hwf : wf_array before.
Hypothesis Hwf' : wf_array after.
Hypothesis Hext : extends before after.

Lemma order_kept i : i ∈ order before → i ∈ order after.
Proof using Hext.
  destruct Hext as (_ & _ & Hf & _). rewrite <- Hf.
  by intros [_ ?]%list_elem_of_filter.
Qed.

Lemma order_old i :
  i ∈ order after → (i < clock before)%nat → i ∈ order before.
Proof using Hext.
  destruct Hext as (_ & _ & Hf & _). rewrite <- Hf. intros Hi Hlt.
  by apply list_elem_of_filter.
Qed.

Lemma order_below i : i ∈ order before → (i < clock before)%nat.
Proof using Hwf. destruct Hwf as (Hlt & _). apply Hlt. Qed.

Lemma deleted_kept i : i ∈ deleted before → i ∈ deleted after.
Proof using Hext. destruct Hext as (_ & Hd & _). apply Hd. Qed.

(** Reverting the transaction right after it shows the list as it was. *)
Lemma toJSON_revert :
  toJSON (revert (stack_item before after) after) = toJSON before.
Proof.
  destruct Hext as (Hclock & Hdel & Hf & Hcontent).
  assert (live_order (revert (stack_item before after) after)
          = live_order before) as Hlive.
  { transitivity (filter (λ i, i ∉ deleted before)
                    (filter (λ i, (i < clock before)%nat) (order after)));
      [|unfold live_order; by rewrite Hf].
    rewrite list_filter_filter. unfold live_order.
    cbn [revert stack_item deleted order insertions deletions].
    apply filter_ext_in. intros i Hi.
    rewrite elem_of_union, elem_of_difference,
      elem_of_tx_insertions, elem_of_tx_deletions.
    split.
    - intros Hnot. split.
      + intros Hd. apply Hnot. left. split; [by apply deleted_kept|].
        by intros [_ ?].
      + destruct (decide (i < clock before)%nat) as [|Hge]; [done|].
        exfalso. apply Hnot. right. split; [done|].
        intros Hold%order_below. lia.
    - intros [Hnd Hlt] [[Hd Hn]|[_ Hnew]].
      + apply Hn. by split.
      + apply Hnew. by apply order_old. }
  unfold toJSON. rewrite Hlive. cbn [revert content].
  apply omap_ext_in. intros i [_ Hi]%list_elem_of_filter.
  apply Hcontent. by apply order_below.
Qed.

End Between.

Lemma commit_features ops origin conn :
  features (commit ops origin conn) = apply_ops ops (features conn).
Proof. reflexivity. Qed.

Lemma commit_tracked ops origin conn :
  origin ∈ trackedOrigins (undoManager conn) →
  array_changed (features conn) (apply_ops ops (features conn)) = true →
  undoManager (commit ops origin conn)
  = {| trackedOrigins := trackedOrigins (undoManager conn);
       undoStack :=
         stack_item (features conn) (apply_ops ops (features conn))
         :: undoStack (undoManager conn);
       redoStack := [] |}.
Proof.
  intros Hin Hchanged. unfold commit, capture. cbn.
  by rewrite bool_decide_eq_true_2, Hchanged.
Qed.

Lemma commit_untracked ops origin conn :
  origin ∉ trackedOrigins (undoManager conn) →
  undoManager (commit ops origin conn) = undoManager conn.
Proof.
  intros Hout. unfold commit, capture. cbn.
  by rewrite bool_decide_eq_false_2.
Qed.

(** The status of an item after [revert]. *)
Lemma elem_of_deleted_revert item arr i :
  i ∈ deleted (revert item arr)
  ↔ i ∈ deleted arr ∧ i ∉ deletions item ∨ i ∈ insertions item.
Proof. unfold revert. cbn. by rewrite elem_of_union, elem_of_difference. Qed.

Section Chain.

(** The list before [A], after [A], after [B], after [C]. *)
Variables a0 a1 a2 a3 : YArray.
Hypothesis Hwf0 : wf_array a0.
Hypothesis Hwf1 : wf_array a1.
Hypothesis Hwf2 : wf_array a2.
Hypothesis Hwf3 : wf_array a3.
Hypothesis Hext1 : extends a0 a1.
Hypothesis Hext2 : extends a1 a2.
Hypothesis Hext3 : extends a2 a3.

Lemma first_undo_status i :
  i ∈ order a2 → (i ∈ deleted (once_undone a2 a3) ↔ i ∈ deleted a2).
Proof.
  intros Hi. unfold once_undone. rewrite elem_of_deleted_revert. cbn.
  rewrite elem_of_tx_insertions, elem_of_tx_deletions.
  pose proof (deleted_kept _ _ Hext3 i).
  destruct (decide (i ∈ deleted a2)); naive_solver.
Qed.

Lemma second_undo_inserted i :
  i ∈ tx_insertions a0 a1 → i ∈ deleted (twice_undone a0 a1 a2 a3).
Proof.
  intros Hi. unfold twice_undone. apply elem_of_deleted_revert. by right.
Qed.

Lemma second_undo_deleted i :
  i ∈ tx_deletions a0 a1 → i ∉ tx_insertions a0 a1 →
  i ∉ deleted (twice_undone a0 a1 a2 a3).
Proof.
  intros Hd Hn. unfold twice_undone. rewrite elem_of_deleted_revert. cbn. tauto.
Qed.

Lemma remote_untouched i :
  i ∈ tx_insertions a1 a2 ∪ tx_deletions a1 a2 →
  (i ∈ deleted (once_undone a2 a3) ↔ i ∈ deleted a2)
  ∧ (i ∈ deleted (twice_undone a0 a1 a2 a3) ↔ i ∈ deleted a2).
Proof.
  destruct Hwf1 as (_ & Hin1 & _). destruct Hwf2 as (_ & Hin2 & _).
  intros [Hi|Hi]%elem_of_union.
  - apply elem_of_tx_insertions in Hi as [Hi Hn].
    split; [by apply first_undo_status|].
    rewrite <- (first_undo_status i Hi). unfold twice_undone.
    rewrite (elem_of_deleted_revert (stack_item a0 a1)). cbn.
    rewrite elem_of_tx_insertions, elem_of_tx_deletions.
    split; [|by left; split; [|intros [?%Hin1 _]]].
    intros [[? _]|[? _]]; done.
  - apply elem_of_tx_deletions in Hi as [Hi Hn].
    pose proof (first_undo_status i (Hin2 i Hi)) as Hs.
    assert (i ∈ deleted (once_undone a2 a3)) as Hd1 by (by apply Hs).
    split; [done|].
    split; [done|]. intros _. unfold twice_undone.
    apply elem_of_deleted_revert.
    left. split; [done|]. cbn. rewrite elem_of_tx_deletions. by intros [? _].
Qed.

End Chain.

(** C2.  The undo manager captures the transactions whose origin is the
    session's own and no other.  After a local transaction [A], a remote
    one [B] and a local one [C], each changing the list, the first undo
    shows the list as it was after [A] and [B]; the second undo deletes
    what [A] inserted and restores what [A] deleted; what [B] inserted
    or deleted keeps, after each undo, the status [B] left it with. *)
Theorem undo_scoped_to_local_edits
    (conn : Connection) (local remote : Origin) (A B C : list Op) :
  wf_array (features conn) →
  trackedOrigins (undoManager conn) = [local] →
  remote ≠ local →
  let c1 := commit A local conn in
  let c2 := commit B remote c1 in
  let c3 := commit C local c2 in
  array_changed (features conn) (features c1) = true →
  array_changed (features c2) (features c3) = true →
  let itemA := stack_item (features conn) (features c1) in
  let itemC := stack_item (features c2) (features c3) in
  let u1 := undo c3 in
  let u2 := undo u1 in
  undoStack (undoManager c3) = itemC :: itemA :: undoStack (undoManager conn)
  ∧ toJSON (features u1) = toJSON (features c2)
  ∧ undoStack (undoManager u1) = itemA :: undoStack (undoManager conn)
  ∧ (∀ i, i ∈ insertions itemA → i ∈ deleted (features u2))
  ∧ (∀ i, i ∈ deletions itemA → i ∉ insertions itemA →
       i ∉ deleted (features u2))
  ∧ undoStack (undoManager u2) = undoStack (undoManager conn)
  ∧ (∀ i, i ∈ tx_insertions (features c1) (features c2)
            ∪ tx_deletions (features c1) (features c2) →
       (i ∈ deleted (features u1) ↔ i ∈ deleted (features c2))
       ∧ (i ∈ deleted (features u2) ↔ i ∈ deleted (features c2))).
Proof.
  intros Hwf0 Htracked Hremote c1 c2 c3 HchA HchC itemA itemC u1 u2.
  destruct (apply_ops_wf_extends A _ Hwf0) as [Hwf1 Hext1].
  destruct (apply_ops_wf_extends B _ Hwf1) as [Hwf2 Hext2].
  destruct (apply_ops_wf_extends C _ Hwf2) as [Hwf3 Hext3].
  assert (undoManager c1
          = {| trackedOrigins := [local];
               undoStack := itemA :: undoStack (undoManager conn);
               redoStack := [] |}) as Hum1.
  { unfold c1. rewrite commit_tracked; [by rewrite Htracked| |done].
    rewrite Htracked. set_solver. }
  assert (undoManager c2 = undoManager c1) as Hum2.
  { unfold c2. apply commit_untracked. rewrite Hum1. cbn. set_solver. }
  assert (undoManager c3
          = {| trackedOrigins := [local];
               undoStack := itemC :: itemA :: undoStack (undoManager conn);
               redoStack := [] |}) as Hum3.
  { unfold c3. rewrite commit_tracked; [by rewrite Hum2, Hum1| |done].
    rewrite Hum2, Hum1. cbn. set_solver. }
  assert (features u1 = revert itemC (features c3)
          ∧ undoStack (undoManager u1) = itemA :: undoStack (undoManager conn))
    as [Hu1 Hst1].
  { unfold u1, undo. by rewrite Hum3. }
  assert (features u2 = revert itemA (revert itemC (features c3))
          ∧ undoStack (undoManager u2) = undoStack (undoManager conn))
    as [Hu2 Hst2].
  { unfold u2, undo. rewrite Hst1. by rewrite Hu1. }
  split; [by rewrite Hum3|].
  split; [rewrite Hu1; by apply toJSON_revert|].
  split; [done|].
  split; [intros i Hi; rewrite Hu2; by apply second_undo_inserted|].
  split; [intros i Hd Hn; rewrite Hu2; by apply second_undo_deleted|].
  split; [done|].
  intros i Hi. rewrite Hu1, Hu2.
  by apply (remote_untouched (features conn) (features c1) (features c2)
              (features c3)).
Qed.

(** The scenario on three points: [a] drawn here, [b] received from a
    peer, [c] drawn here. *)
Example undo_scenario :
  let conn := new_Connection (Some (Sym 7)) 1 in
  let c3 := commit [Push [feature_c]] (Sym 7)
              (commit [Push [feature_b]] Provider
                 (commit [Push [feature_a]] (Sym 7) conn)) in
  toJSON (features c3) = [feature_a; feature_b; feature_c]
  ∧ toJSON (features (undo c3)) = [feature_a; feature_b]
  ∧ toJSON (features (undo (undo c3))) = [feature_b]
  ∧ toJSON (features (undo (undo (undo c3)))) = [feature_b].
Proof. repeat split; vm_compute; reflexivity. Qed.

Lemma undo_scoped_to_local_edits_witness :
  let conn := new_Connection (Some (Sym 7)) 1 in
  let c1 := commit [Push [feature_a]] (Sym 7) conn in
  let c2 := commit [Push [feature_b]] Provider c1 in
  let c3 := commit [Push [feature_c]] (Sym 7) c2 in
  array_changed (features conn) (features c1) = true
  ∧ array_changed (features c2) (features c3) = true
  ∧ toJSON (features (undo c3)) = toJSON (features c2)
  ∧ undoStack (undoManager (undo (undo c3))) = [].
Proof.
  assert (array_changed (features (new_Connection (Some (Sym 7)) 1))
            (features (commit [Push [feature_a]] (Sym 7)
                         (new_Connection (Some (Sym 7)) 1))) = true) as HchA
    by (vm_compute; reflexivity).
  assert (array_changed
            (features (commit [Push [feature_b]] Provider
                         (commit [Push [feature_a]] (Sym 7)
                            (new_Connection (Some (Sym 7)) 1))))
            (features (commit [Push [feature_c]] (Sym 7)
                         (commit [Push [feature_b]] Provider
                            (commit [Push [feature_a]] (Sym 7)
                               (new_Connection (Some (Sym 7)) 1))))) = true)
    as HchC by (vm_compute; reflexivity).
  destruct (undo_scoped_to_local_edits (new_Connection (Some (Sym 7)) 1)
              (Sym 7) Provider [Push [feature_a]] [Push [feature_b]]
              [Push [feature_c]] wf_empty eq_refl ltac:(discriminate) HchA HchC)
    as (_ & Hfirst & _ & _ & _ & Hstack & _).
  cbn zeta. split; [exact HchA|]. split; [exact HchC|].
  split; [exact Hfirst|exact Hstack].
Defined.

End UndoTheory.

(** * Properties of the local edit reconciler *)

Module ReconcilerTheory.
Import Client ArrayTheory.

Lemma frame_refl c : frame c c.
Proof. by repeat split. Qed.

Lemma frame_trans c1 c2 c3 : frame c1 c2 → frame c2 c3 → frame c1 c3.
Proof.
  intros (H1 & H2 & H3 & H4 & H5) (H1' & H2' & H3' & H4' & H5').
  repeat split; congruence.
Qed.

Lemma handleRemove_suppressed observer layer c :
  suppressLocalEventsRef c = true → handleRemove observer layer c = c.
Proof.
  intros Hflag. unfold handleRemove. rewrite Hflag.
  by destruct (connection c).
Qed.

Lemma handleRemoveFeature_frame layer c : frame c (handleRemoveFeature layer c).
Proof.
  unfold handleRemoveFeature.
  destruct (connection c) as [conn|] eqn:Hconn; [|apply frame_refl].
  destruct (truthy (featureId layer) && _); [|apply frame_refl].
  repeat split. unfold doc_view. cbn. rewrite Hconn. cbn.
  unfold feature_transactions. cbn.
  rewrite filter_app, filter_cons_False, filter_nil, app_nil_r by done.
  done.
Qed.

(** While [syncLayers] removes a layer the flag is set: [handleRemove]
    returns at once, whatever the observer. *)
Lemma pm_remove_quiet observer : quiet (pm_remove observer).
Proof.
  intros layer c Hflag. unfold pm_remove.
  rewrite handleRemove_suppressed by done. apply handleRemoveFeature_frame.
Qed.

Lemma detachLayerHandlers_frame k c : frame c (detachLayerHandlers k c).
Proof.
  unfold detachLayerHandlers. destruct (layersRef c !! k); [|apply frame_refl].
  case_decide; [|apply frame_refl]. by repeat split.
Qed.

Lemma detachLayerHandlers_flag k c :
  suppressLocalEventsRef (detachLayerHandlers k c) = suppressLocalEventsRef c.
Proof.
  unfold detachLayerHandlers. destruct (layersRef c !! k); [|done].
  by case_decide.
Qed.

Section SyncLayers.

Variable removed : Layer → Client → Client.
Hypothesis Hquiet : quiet removed.

Lemma sync_remove_spec seen cl k :
  let cl' := sync_remove removed seen cl k in
  doc_view cl' = doc_view cl
  ∧ readOnly cl' = readOnly cl
  ∧ undoOrigin cl' = undoOrigin cl
  ∧ mapRef cl' = mapRef cl
  ∧ layersRef cl' = (if decide (k ∈ seen) then layersRef cl
                     else delete k (layersRef cl))
  ∧ (suppressLocalEventsRef cl = false → suppressLocalEventsRef cl' = false).
Proof.
  cbn zeta. unfold sync_remove. case_decide as Hseen; [done|].
  destruct (layersRef cl !! k) as [layer|] eqn:Hlayer; cbn; [|done].
  destruct (detachLayerHandlers_frame k cl) as (D1 & D2 & D3 & D4 & D5).
  destruct (Hquiet layer
              (set_suppressLocalEventsRef true (detachLayerHandlers k cl))
              eq_refl) as (Q1 & Q2 & Q3 & Q4 & Q5).
  unfold doc_view in *. cbn in *.
  repeat split; try congruence.
Qed.

Lemma foldl_sync_remove_spec seen ks cl :
  let cl' := foldl (sync_remove removed seen) cl ks in
  doc_view cl' = doc_view cl
  ∧ readOnly cl' = readOnly cl
  ∧ undoOrigin cl' = undoOrigin cl
  ∧ mapRef cl' = mapRef cl
  ∧ (∀ k, layersRef cl' !! k =
          if decide (k ∈ ks ∧ k ∉ seen) then None else layersRef cl !! k)
  ∧ (suppressLocalEventsRef cl = false → suppressLocalEventsRef cl' = false).
Proof.
  revert cl. induction ks as [|k0 ks IH]; intros cl; cbn zeta.
  - cbn. repeat split;
      try (intros k; rewrite decide_False;
           [done|intros [Hk _]; by apply elem_of_nil in Hk]);
      done.
  - cbn [foldl].
    destruct (sync_remove_spec seen cl k0) as (S1 & S2 & S3 & S4 & S5 & S6).
    destruct (IH (sync_remove removed seen cl k0)) as (I1 & I2 & I3 & I4 & I5 & I6).
    repeat split; try congruence; [|by auto].
    intros k. rewrite I5, S5.
    destruct (decide (k0 ∈ seen)) as [Hs|Hs];
      destruct (decide (k = k0)) as [->|Hne];
      repeat case_decide; rewrite ?lookup_delete_eq, ?lookup_delete_ne by done;
      try done; set_solver.
Qed.

End SyncLayers.

Lemma sync_feature_spec cl feature :
  mapRef cl = true →
  let cl' := sync_feature cl feature in
  doc_view cl' = doc_view cl
  ∧ readOnly cl' = readOnly cl
  ∧ undoOrigin cl' = undoOrigin cl
  ∧ mapRef cl' = true
  ∧ suppressLocalEventsRef cl' = suppressLocalEventsRef cl
  ∧ layersRef cl' = <[f_id feature := synced_layer (layersRef cl !! f_id feature) feature]>
                      (layersRef cl).
Proof.
  intros Hmap. cbn zeta. unfold sync_feature. cbn [layersRef set_featureCacheRef].
  destruct (layersRef cl !! f_id feature) as [existing|] eqn:Hlayer; cbn.
  - done.
  - unfold createLayerForFeature. cbn. rewrite Hmap. cbn.
    unfold attachLayerHandlers, detachLayerHandlers. cbn.
    rewrite lookup_insert_eq. by case_decide.
Qed.

Lemma foldl_sync_feature_spec items cl :
  mapRef cl = true →
  let cl' := foldl sync_feature cl items in
  doc_view cl' = doc_view cl
  ∧ readOnly cl' = readOnly cl
  ∧ undoOrigin cl' = undoOrigin cl
  ∧ mapRef cl' = true
  ∧ suppressLocalEventsRef cl' = suppressLocalEventsRef cl
  ∧ dom (layersRef cl') = dom (layersRef cl) ∪ list_to_set (f_id <$> items)
  ∧ (∀ k, k ∉ f_id <$> items → layersRef cl' !! k = layersRef cl !! k).
Proof.
  revert cl. induction items as [|f items IH]; intros cl Hmap; cbn zeta.
  - cbn. repeat split; try done; set_solver.
  - cbn [foldl].
    destruct (sync_feature_spec cl f Hmap) as (S1 & S2 & S3 & S4 & S5 & S6).
    destruct (IH (sync_feature cl f) S4) as (I1 & I2 & I3 & I4 & I5 & I6 & I7).
    repeat split; try congruence.
    + rewrite I6, S6, dom_insert_L. cbn. set_solver.
    + intros k Hk. rewrite I7 by set_solver.
      rewrite S6, lookup_insert_ne; [done|]. set_solver.
Qed.

Lemma syncLayers_with_spec removed items cl :
  quiet removed →
  let cl' := syncLayers_with removed items cl in
  doc_view cl' = doc_view cl
  ∧ readOnly cl' = readOnly cl
  ∧ undoOrigin cl' = undoOrigin cl
  ∧ mapRef cl' = mapRef cl
  ∧ (suppressLocalEventsRef cl = false → suppressLocalEventsRef cl' = false)
  ∧ (mapRef cl = true →
       dom (layersRef cl') = list_to_set (f_id <$> items)
       ∧ ∀ k, k ∈ f_id <$> items →
           layersRef cl' !! k = layersRef (foldl sync_feature cl items) !! k).
Proof.
  intros Hquiet. cbn zeta. unfold syncLayers_with.
  destruct (mapRef cl) eqn:Hmap; cbn; [|done].
  destruct (foldl_sync_feature_spec items cl Hmap)
    as (F1 & F2 & F3 & F4 & F5 & F6 & F7).
  set (cl1 := foldl sync_feature cl items) in *.
  destruct (foldl_sync_remove_spec removed Hquiet
              (list_to_set (f_id <$> items)) (fst <$> map_to_list (layersRef cl1)) cl1)
    as (R1 & R2 & R3 & R4 & R5 & R6).
  repeat split; try congruence.
  - intros Hflag. apply R6. congruence.
  - apply set_eq. intros k. rewrite elem_of_dom, R5.
    case_decide as Hk.
    + split; [by intros [? ?]|]. intros Hin. by destruct Hk as [_ Hk].
    + rewrite <- elem_of_dom, F6, elem_of_union.
      split; [|by right]. intros [Hd|Hin]; [|done].
      destruct (decide (k ∈ (list_to_set (f_id <$> items) : gset string)))
        as [|Hout]; [done|].
      exfalso. apply Hk. split; [|done].
      apply elem_of_dom in Hd as [layer Hlayer].
      rewrite <- F7 in Hlayer
        by (intros Hin; apply Hout; by apply elem_of_list_to_set).
      apply list_elem_of_fmap. exists (k, layer). split; [done|].
      by apply elem_of_map_to_list.
  - intros k Hk. rewrite R5. rewrite decide_False; [done|].
    intros [_ Hout]. apply Hout. by apply elem_of_list_to_set.
Qed.

Lemma sync_feature_has_layer k cl feature :
  mapRef cl = true → has_layer k cl → has_layer k (sync_feature cl feature).
Proof.
  intros Hmap (layer & Hlayer & Hid).
  destruct (sync_feature_spec cl feature Hmap) as (_ & _ & _ & _ & _ & Hl).
  unfold has_layer. rewrite Hl.
  destruct (decide (f_id feature = k)) as [Heq|Hne].
  - rewrite Heq, lookup_insert_eq, Hlayer. cbn. eauto.
  - rewrite lookup_insert_ne by done. eauto.
Qed.

Lemma foldl_sync_feature_has_layer k items cl :
  mapRef cl = true → has_layer k cl →
  has_layer k (foldl sync_feature cl items).
Proof.
  revert cl. induction items as [|f items IH]; intros cl Hmap Hk; [done|].
  cbn. apply IH.
  - by destruct (sync_feature_spec cl f Hmap) as (_ & _ & _ & ? & _).
  - by apply sync_feature_has_layer.
Qed.

Lemma removed_at_depth_quiet d :
  quiet (λ layer c, match d with
                    | 0 => c
                    | S d' => pm_remove (observer d') layer c
                    end).
Proof.
  destruct d as [|d']; [|apply pm_remove_quiet].
  intros layer c _. apply frame_refl.
Qed.

(** The observer of the feature list leaves the list and its history as
    they are, and makes the layers those of the list. *)
Lemma observer_spec d cl :
  let cl' := observer d cl in
  doc_view cl' = doc_view cl
  ∧ readOnly cl' = readOnly cl
  ∧ undoOrigin cl' = undoOrigin cl
  ∧ mapRef cl' = mapRef cl
  ∧ (suppressLocalEventsRef cl = false → suppressLocalEventsRef cl' = false)
  ∧ (∀ conn, connection cl = Some conn → mapRef cl = true →
       dom (layersRef cl') = list_to_set (f_id <$> toJSON (features conn))
       ∧ ∀ k, k ∈ f_id <$> toJSON (features conn) →
           has_layer k cl → has_layer k cl').
Proof.
  cbn zeta. destruct d as [|d']; cbn [observer];
    (destruct (connection cl) as [conn|] eqn:Hconn; [|by repeat split]).
  all: match goal with
       | |- context [syncLayers_with ?r ?items ?c] =>
           destruct (syncLayers_with_spec r items c) as (S1 & S2 & S3 & S4 & S5 & S6)
       end.
  1: apply (removed_at_depth_quiet 0).
  2: apply (removed_at_depth_quiet (S d')).
  all: do 5 (split; [done|]).
  all: intros conn0 [= <-] Hmap; destruct (S6 Hmap) as [Hdom Hlook];
    split; [done|]; intros k Hk Hhas; unfold has_layer; rewrite Hlook by done;
    by apply foldl_sync_feature_has_layer.
Qed.

Lemma sync_remove_ext r1 r2 seen cl k :
  (∀ layer c, suppressLocalEventsRef c = true → r1 layer c = r2 layer c) →
  sync_remove r1 seen cl k = sync_remove r2 seen cl k.
Proof.
  intros Hagree. unfold sync_remove. case_decide; [done|].
  destruct (layersRef cl !! k); [|done]. by rewrite Hagree.
Qed.

Lemma syncLayers_with_ext r1 r2 items cl :
  (∀ layer c, suppressLocalEventsRef c = true → r1 layer c = r2 layer c) →
  syncLayers_with r1 items cl = syncLayers_with r2 items cl.
Proof.
  intros Hagree. unfold syncLayers_with. destruct (mapRef cl); cbn; [|done].
  generalize (fst <$> map_to_list (layersRef (foldl sync_feature cl items))).
  generalize (foldl sync_feature cl items).
  intros c0 ks. revert c0.
  induction ks as [|k ks IH]; intros c0; [done|]. cbn.
  rewrite (sync_remove_ext r1 r2) by done. apply IH.
Qed.

(** Nesting the observer deeper changes nothing: the listener returns
    before it commits. *)
Lemma observer_depth d cl : observer (S d) cl = features_observer cl.
Proof.
  unfold features_observer. cbn [observer].
  destruct (connection cl) as [conn|]; [|done].
  apply syncLayers_with_ext. intros layer c0 Hflag. unfold pm_remove.
  by rewrite !handleRemove_suppressed.
Qed.

Lemma transact_spec ops cl conn :
  connection cl = Some conn →
  let after := apply_ops ops (features conn) in
  let cl' := transact features_observer ops cl in
  doc_view cl'
  = Some (after,
          capture (undoOrigin cl) (features conn) after (undoManager conn),
          feature_transactions conn
          ++ [{| tx_origin := undoOrigin cl; tx_target := OnFeatures |}])
  ∧ readOnly cl' = readOnly cl
  ∧ undoOrigin cl' = undoOrigin cl
  ∧ mapRef cl' = mapRef cl
  ∧ (suppressLocalEventsRef cl = false → suppressLocalEventsRef cl' = false)
  ∧ (∀ k, mapRef cl = true → k ∈ f_id <$> toJSON after →
          has_layer k cl → has_layer k cl').
Proof.
  intros Hconn. cbn zeta. unfold transact. rewrite Hconn.
  set (cl1 := set_connection (Some (commit ops (undoOrigin cl) conn)) cl).
  assert (doc_view cl1
          = Some (apply_ops ops (features conn),
                  capture (undoOrigin cl) (features conn)
                    (apply_ops ops (features conn)) (undoManager conn),
                  feature_transactions conn
                  ++ [{| tx_origin := undoOrigin cl; tx_target := OnFeatures |}]))
    as Hview.
  { unfold doc_view, feature_transactions. cbn.
    by rewrite filter_app, filter_cons_True, filter_nil. }
  destruct (array_changed _ _); [|by repeat split].
  destruct (observer_spec 1 cl1) as (O1 & O2 & O3 & O4 & O5 & O6).
  fold features_observer in O1, O2, O3, O4, O5, O6.
  repeat split; try congruence; try done.
  intros k Hmap Hk Hhas.
  by apply (O6 (commit ops (undoOrigin cl) conn) eq_refl Hmap).
Qed.

Lemma doc_view_Some cl arr um txs :
  doc_view cl = Some (arr, um, txs) →
  ∃ conn, connection cl = Some conn ∧ features conn = arr
          ∧ undoManager conn = um ∧ feature_transactions conn = txs.
Proof.
  unfold doc_view. destruct (connection cl) as [conn|]; [|done].
  intros [= <- <- <-]. eauto.
Qed.



(** The handlers that test the read-only flag commit nothing on a
    read-only client. *)
Lemma readonly_guards cl layer newId fs silent state :
  readOnly cl = true →
  doc_view (handleCreate layer newId cl) = doc_view cl
  ∧ handleRemove features_observer layer cl = cl
  ∧ connection (handleImportFiles fs cl) = connection cl
  ∧ connection (shareView silent state cl) = connection cl
  ∧ handleUndo cl = cl
  ∧ handleRedo cl = cl.
Proof.
  intros Hro. unfold handleCreate, handleRemove, handleImportFiles, shareView,
    handleUndo, handleRedo. rewrite Hro.
  repeat split.
  - destruct (connection cl) as [conn|] eqn:Hconn; [|done].
    destruct (pm_remove_quiet features_observer layer
                (set_suppressLocalEventsRef true cl) eq_refl) as (Hview & _).
    unfold doc_view in *. cbn in *. by rewrite Hview.
  - destruct (connection cl); [|done]. by rewrite orb_true_r.
  - by destruct (connection cl) eqn:Hconn; cbn; rewrite Hconn.
  - destruct (mapRef cl); cbn; [|done].
    by destruct (connection cl) eqn:Hconn; [destruct silent|]; cbn;
      rewrite Hconn.
Qed.



End ReconcilerTheory.

(** * Properties of the realtime server *)

Module ServerTheory.
Import Server.

Section Eviction.

Variable env : Env.

Lemma rooms_log e st : rooms (log e st) = rooms st.
Proof. reflexivity. Qed.

Lemma cleanupRoom_absent roomId st :
  rooms st !! roomId = None →
  cleanupRoom env roomId st = (Returned tt, st).
Proof.
  intros Hnone. unfold cleanupRoom, bind, get. cbn. by rewrite Hnone.
Qed.

Lemma cleanupRoom_present roomId st context :
  rooms st !! roomId = Some context →
  ∃ st', cleanupRoom env roomId st = (Returned tt, st')
    ∧ rooms st' = delete roomId (rooms st)
    ∧ yDocs st' = delete roomId (yDocs st)
    ∧ timers st' = timers st
    ∧ nextTimer st' = nextTimer st
    ∧ roomCreationRate st' = roomCreationRate st
    ∧ totalRoomsCreated st' = totalRoomsCreated st
    ∧ logs st' = logs st ++ LogInfo "destroying inactive room" roomId
                    :: teardown_warnings env roomId context.
Proof.
  intros Hsome.
  unfold cleanupRoom, teardown_warnings, bind, get, try_catch, modify,
    destroy_awareness, destroy_doc, ret.
  cbn. rewrite Hsome. cbn.
  destruct (awareness_destroy env (awareness context)) as [a|e1];
    destruct (doc_destroy env (doc context)) as [d|e2]; cbn.
  all: case_bool_decide as Hd; cbn.
  all: eexists; split; [reflexivity|]; cbn.
  all: rewrite ?delete_alter_eq, <- ?app_assoc; repeat split.
  all: symmetry; apply delete_id; by apply eq_None_not_Some.
Qed.

(** C8. [cleanupRoom] (evictNow) always returns, also when destroying
    the presence state or the document throws: the error is logged as a
    warning and not propagated; the room id is then absent from the
    registry, and a second call for the same id returns with the state
    untouched. *)
Theorem cleanupRoom_terminal_idempotent (roomId : string) (st : State) :
  ∃ st', cleanupRoom env roomId st = (Returned tt, st')
    ∧ rooms st' !! roomId = None
    ∧ rooms st' = delete roomId (rooms st)
    ∧ logs st' = logs st ++
        match rooms st !! roomId with
        | Some context => LogInfo "destroying inactive room" roomId
                          :: teardown_warnings env roomId context
        | None => []
        end
    ∧ cleanupRoom env roomId st' = (Returned tt, st').
Proof.
  destruct (rooms st !! roomId) as [context|] eqn:Hroom.
  - destruct (cleanupRoom_present roomId st context Hroom)
      as (st' & Hrun & Hrooms & _ & _ & _ & _ & _ & Hlogs).
    exists st'. split; [done|].
    assert (rooms st' !! roomId = None) as Hgone
      by (rewrite Hrooms; apply lookup_delete_eq).
    repeat split; try done. by apply cleanupRoom_absent.
  - exists st. rewrite (cleanupRoom_absent roomId st Hroom).
    repeat split; try done.
    + symmetry. by apply delete_id.
    + by rewrite app_nil_r.
Qed.

(** Both teardown calls throw: the two warnings are logged, the call
    returns and the room is gone. *)
Example eviction_with_failing_teardown :
  let '(outcome, st) := cleanupRoom throwing_env "abc123" waiting_eviction in
  outcome = Returned tt
  ∧ rooms st !! "abc123" = None
  ∧ yDocs st !! "abc123" = None
  ∧ drop 1 (logs st)
    = [LogInfo "destroying inactive room" "abc123";
       LogWarn "failed to destroy awareness" "awareness already destroyed" "abc123";
       LogWarn "failed to destroy ydoc" "doc already destroyed" "abc123"].
Proof. vm_compute. repeat split; reflexivity. Qed.

Lemma cleanupRoom_state_rooms roomId st :
  rooms (cleanupRoom_state env roomId st) = delete roomId (rooms st).
Proof.
  unfold cleanupRoom_state.
  destruct (rooms st !! roomId) as [context|] eqn:Hroom.
  - destruct (cleanupRoom_present roomId st context Hroom)
      as (st' & Hrun & Hrooms & _).
    by rewrite Hrun.
  - rewrite (cleanupRoom_absent roomId st Hroom). symmetry. by apply delete_id.
Qed.

Lemma cleanupRoom_state_timers roomId st :
  timers (cleanupRoom_state env roomId st) = timers st
  ∧ nextTimer (cleanupRoom_state env roomId st) = nextTimer st.
Proof.
  unfold cleanupRoom_state.
  destruct (rooms st !! roomId) as [context|] eqn:Hroom.
  - destruct (cleanupRoom_present roomId st context Hroom)
      as (st' & -> & _ & _ & Ht & Hn & _). done.
  - by rewrite (cleanupRoom_absent roomId st Hroom).
Qed.

End Eviction.

(** ** The creation throttle *)

Section Throttle.

Variable env : Env.

Lemma ensureRoomContext_absent roomId p now st :
  rooms st !! roomId = None →
  ∃ context docs,
    ensureRoomContext env roomId p now st =
      (context,
       set_totalRoomsCreated (S (totalRoomsCreated st))
         (set_rooms (<[roomId := context]> (rooms st)) (set_yDocs docs st)))
    ∧ connections context = ∅ ∧ cleanupTimer context = None
    ∧ passcode context = p ∧ createdAt context = now
    ∧ lastActive context = now.
Proof.
  intros Hnone. unfold ensureRoomContext. rewrite Hnone.
  destruct (getYDoc env roomId (yDocs st)) as [doc0 docs].
  eexists _, _. split; [reflexivity|]. done.
Qed.

Lemma upgrade_rejected req ws now st :
  valid_room_id (req_roomId req) = true →
  rooms st !! req_roomId req = None →
  (now - last_creation st (req_ip req) < ROOM_CREATION_THROTTLE_MS env)%Z →
  upgrade env req ws now st = (rate_limited, st).
Proof.
  intros Hvalid Hnone Hlt.
  unfold upgrade, gateway, canCreateRoom. rewrite Hvalid, Hnone. cbn.
  fold (last_creation st (req_ip req)).
  by rewrite bool_decide_eq_true_2.
Qed.

Lemma upgrade_creates_room req ws now st :
  valid_room_id (req_roomId req) = true →
  rooms st !! req_roomId req = None →
  (ROOM_CREATION_THROTTLE_MS env ≤ now - last_creation st (req_ip req))%Z →
  ∃ st' context,
    upgrade env req ws now st = (Attached, st')
    ∧ rooms st' = <[req_roomId req := context]> (rooms st)
    ∧ connections context = {[ws]}
    ∧ cleanupTimer context = None
    ∧ passcode context = sanitizedPasscode (req_k req)
    ∧ createdAt context = now
    ∧ roomCreationRate st' = <[req_ip req := now]> (roomCreationRate st)
    ∧ timers st' = timers st ∧ nextTimer st' = nextTimer st.
Proof.
  intros Hvalid Hnone Hge.
  unfold upgrade, gateway, canCreateRoom. rewrite Hvalid, Hnone. cbn.
  fold (last_creation st (req_ip req)).
  rewrite bool_decide_eq_false_2 by lia. cbn.
  destruct (ensureRoomContext_absent (req_roomId req)
              (sanitizedPasscode (req_k req)) now
              (set_roomCreationRate (<[req_ip req := now]> (roomCreationRate st)) st)
              Hnone)
    as (context & docs & -> & Hc & Ht & Hp & Hcr & Hla).
  unfold attach. cbn. rewrite lookup_insert_eq. cbn. rewrite Ht.
  eexists _, _. split; [reflexivity|]. cbn.
  rewrite insert_insert_eq. rewrite Hc.
  repeat split; try done. by rewrite union_empty_r_L.
Qed.

(** Whatever the request, the timestamp table either stays as it was or
    records [now] for the origin of a room that was just created. *)
Lemma upgrade_timestamp req ws now st :
  roomCreationRate (snd (upgrade env req ws now st)) = roomCreationRate st
  ∨ (fst (upgrade env req ws now st) = Attached
     ∧ rooms st !! req_roomId req = None
     ∧ is_Some (rooms (snd (upgrade env req ws now st)) !! req_roomId req)
     ∧ roomCreationRate (snd (upgrade env req ws now st))
       = <[req_ip req := now]> (roomCreationRate st)).
Proof.
  destruct (valid_room_id (req_roomId req)) eqn:Hvalid.
  - destruct (rooms st !! req_roomId req) as [context|] eqn:Hroom.
    + left. unfold upgrade, gateway. rewrite Hvalid, Hroom. cbn.
      destruct (truthy (passcode context)
                && negb (bool_decide (passcode context = sanitizedPasscode (req_k req))));
        [done|].
      destruct (negb (truthy (passcode context)) && truthy (sanitizedPasscode (req_k req)));
        unfold attach; cbn; rewrite ?lookup_insert_eq, ?Hroom; cbn;
        by destruct (cleanupTimer context).
    + destruct (decide (now - last_creation st (req_ip req)
                        < ROOM_CREATION_THROTTLE_MS env)%Z) as [Hlt|Hge].
      * left. by rewrite upgrade_rejected.
      * right.
        destruct (upgrade_creates_room req ws now st Hvalid Hroom)
          as (st' & context & -> & Hrooms & _ & _ & _ & _ & Hrate & _); [lia|].
        cbn. rewrite Hrooms, lookup_insert_eq. done.
  - left. unfold upgrade, gateway. by rewrite Hvalid.
Qed.

Lemma upgrade_rate_limited_state req ws now st st' :
  upgrade env req ws now st = (rate_limited, st') → st' = st.
Proof.
  unfold upgrade, gateway. intros Hup.
  destruct (valid_room_id (req_roomId req)); cbn in Hup; [|by inversion Hup].
  destruct (rooms st !! req_roomId req) as [context|] eqn:Hroom.
  - destruct (truthy (passcode context) && _); [by inversion Hup|].
    destruct (negb (truthy (passcode context)) && _);
      unfold attach in Hup; cbn in Hup;
      rewrite ?lookup_insert_eq, ?Hroom in Hup; cbn in Hup;
      destruct (cleanupTimer context); by inversion Hup.
  - unfold canCreateRoom in Hup. case_bool_decide; cbn in Hup;
      [by inversion Hup|].
    destruct (ensureRoomContext _ _ _ _ _) as [c s2] eqn:He.
    unfold ensureRoomContext in He. cbn in He. rewrite Hroom in He.
    destruct (getYDoc _ _ _) as [d0 ds]. inversion He; subst; clear He.
    unfold attach in Hup. cbn in Hup. rewrite lookup_insert_eq in Hup.
    cbn in Hup. by inversion Hup.
Qed.

(** C10. A rate-limited creation attempt leaves the server state, and so
    the per-origin timestamp, as it was: the timestamp is written only by
    a request that creates its room.  After any number of rejected
    attempts the origin waits no longer than it did before them. *)
Theorem rejected_attempts_do_not_extend_throttle
    (reqs : list (Request * nat * Z)) (st : State) :
  Forall (λ r, r = rate_limited) (fst (attempts env reqs st)) →
  snd (attempts env reqs st) = st
  ∧ roomCreationRate (snd (attempts env reqs st)) = roomCreationRate st
  ∧ (∀ req ws now,
       valid_room_id (req_roomId req) = true →
       rooms st !! req_roomId req = None →
       (ROOM_CREATION_THROTTLE_MS env ≤ now - last_creation st (req_ip req))%Z →
       fst (upgrade env req ws now (snd (attempts env reqs st))) = Attached).
Proof.
  intros Hall.
  assert (snd (attempts env reqs st) = st) as Hsame.
  { revert st Hall.
    induction reqs as [|[[req ws] now] reqs IH]; intros st Hall; [done|].
    cbn in *.
    destruct (upgrade env req ws now st) as [r st1] eqn:Hup.
    destruct (attempts env reqs st1) as [rs st2] eqn:Hrest.
    cbn in *. inversion Hall as [|? ? Hr Hrs]; subst.
    rewrite (upgrade_rate_limited_state _ _ _ _ _ Hup) in Hrest.
    specialize (IH st). rewrite Hrest in IH. cbn in IH. by apply IH. }
  rewrite Hsame. repeat split; try done.
  intros req ws now Hvalid Hnone Hge.
  destruct (upgrade_creates_room req ws now st Hvalid Hnone Hge) as (st' & c & -> & _).
  done.
Qed.

(** C9. With a throttle of 3000 ms, of two creation attempts for two new
    room ids from one origin, the first being admitted: the second, 500 ms
    later, is answered 429 and creates nothing; the second, 4000 ms later,
    is admitted, and both rooms are in the registry. *)
Theorem creation_throttle_scenario
    (st : State) (req1 req2 : Request) (ws1 ws2 : nat) (t0 : Z) :
  ROOM_CREATION_THROTTLE_MS env = 3000%Z →
  req_ip req1 = req_ip req2 →
  req_roomId req1 ≠ req_roomId req2 →
  valid_room_id (req_roomId req1) = true →
  valid_room_id (req_roomId req2) = true →
  rooms st !! req_roomId req1 = None →
  rooms st !! req_roomId req2 = None →
  (3000 ≤ t0 - last_creation st (req_ip req1))%Z →
  ∃ st1,
    upgrade env req1 ws1 t0 st = (Attached, st1)
    ∧ is_Some (rooms st1 !! req_roomId req1)
    ∧ upgrade env req2 ws2 (t0 + 500) st1 = (Aborted 429 "Rate Limit", st1)
    ∧ rooms st1 !! req_roomId req2 = None
    ∧ ∃ st2,
        upgrade env req2 ws2 (t0 + 4000) st1 = (Attached, st2)
        ∧ is_Some (rooms st2 !! req_roomId req1)
        ∧ is_Some (rooms st2 !! req_roomId req2).
Proof.
  intros Hthr Hip Hne Hv1 Hv2 Hn1 Hn2 Hfirst.
  destruct (upgrade_creates_room req1 ws1 t0 st Hv1 Hn1)
    as (st1 & c1 & Hup1 & Hrooms1 & _ & _ & _ & _ & Hrate1 & _); [lia|].
  assert (rooms st1 !! req_roomId req2 = None) as Hn2'
    by (by rewrite Hrooms1, lookup_insert_ne).
  assert (last_creation st1 (req_ip req2) = t0) as Hlast.
  { unfold last_creation. by rewrite Hrate1, Hip, lookup_insert_eq. }
  exists st1. split; [done|].
  split; [rewrite Hrooms1, lookup_insert_eq; eauto|].
  split; [apply upgrade_rejected; [done|done|rewrite Hlast; lia]|].
  split; [done|].
  destruct (upgrade_creates_room req2 ws2 (t0 + 4000) st1 Hv2 Hn2')
    as (st2 & c2 & Hup2 & Hrooms2 & _); [rewrite Hlast; lia|].
  exists st2. split; [done|].
  rewrite Hrooms2. split.
  - rewrite lookup_insert_ne by done. rewrite Hrooms1, lookup_insert_eq. eauto.
  - rewrite lookup_insert_eq. eauto.
Qed.

End Throttle.

(** ** The gateway on a registered room *)

Section Gateway.

Variable env : Env.

Lemma substring_0_length n s : (String.length (substring 0 n s) ≤ n)%nat.
Proof.
  revert s. induction n as [|n IH]; intros [|c s]; cbn; try lia.
  specialize (IH s). lia.
Qed.

Lemma substring_0_id n s : (String.length s ≤ n)%nat → substring 0 n s = s.
Proof.
  revert s. induction n as [|n IH]; intros [|c s]; cbn; intros Hlen;
    try done; try lia.
  f_equal. apply IH. lia.
Qed.

Lemma sanitizedPasscode_wf k : passcode_wf (sanitizedPasscode k).
Proof.
  intros secret. destruct k as [[|c s]|]; cbn; try done.
  intros [= <-]. split; [done|]. cbn.
  pose proof (substring_0_length 127 s). lia.
Qed.


Lemma sanitizedPasscode_exact secret :
  passcode_wf (Some secret) → sanitizedPasscode (Some secret) = Some secret.
Proof.
  intros Hwf. destruct (Hwf secret eq_refl) as [Hne Hlen].
  destruct secret as [|c s]; [done|]. cbn. f_equal. f_equal.
  apply substring_0_id. cbn in Hlen. lia.
Qed.

Lemma adopt_wf stored supplied :
  passcode_wf stored → passcode_wf supplied → passcode_wf (adopt stored supplied).
Proof. unfold adopt. by destruct (negb (truthy stored) && truthy supplied). Qed.

Lemma passcode_wf_truthy p : passcode_wf p → truthy p = bool_decide (is_Some p).
Proof.
  intros Hwf. destruct p as [[|c s]|]; try done.
  by destruct (Hwf EmptyString eq_refl).
Qed.

(** The whole [upgrade] handler on a room that is in the registry. *)
Lemma upgrade_present req ws now st context :
  valid_room_id (req_roomId req) = true →
  rooms st !! req_roomId req = Some context →
  let supplied := sanitizedPasscode (req_k req) in
  if truthy (passcode context) && negb (bool_decide (passcode context = supplied))
  then upgrade env req ws now st = (Closed 4003 "passcode-required", st)
  else ∃ st',
    upgrade env req ws now st = (Attached, st')
    ∧ rooms st' = <[req_roomId req := attached ws now supplied context]> (rooms st)
    ∧ timers st' = cleared context (timers st)
    ∧ nextTimer st' = nextTimer st
    ∧ roomCreationRate st' = roomCreationRate st
    ∧ totalRoomsCreated st' = totalRoomsCreated st
    ∧ yDocs st' = yDocs st
    ∧ logs st' = logs st.
Proof.
  intros Hvalid Hroom supplied.
  unfold upgrade, gateway. rewrite Hvalid, Hroom. cbn. fold supplied.
  destruct (truthy (passcode context)
            && negb (bool_decide (passcode context = supplied))) eqn:Hdeny;
    [done|].
  unfold attached, adopt, cleared.
  destruct (negb (truthy (passcode context)) && truthy supplied) eqn:Hadopt;
    unfold attach; cbn; rewrite ?lookup_insert_eq, ?Hroom; cbn;
    destruct (cleanupTimer context) as [h|] eqn:Htimer; cbn;
    eexists; (split; [reflexivity|]); cbn;
    rewrite ?insert_insert_eq;
    unfold set_lastActive, set_connections, set_passcode, set_cleanupTimer;
    cbn; rewrite ?Htimer; done.
Qed.

End Gateway.

(** ** Detaching and the eviction timer *)

Section Scheduler.

Variable env : Env.

Lemma on_close_absent roomId ws now st :
  rooms st !! roomId = None → on_close env roomId ws now st = st.
Proof. intros Hnone. unfold on_close. by rewrite Hnone. Qed.

(** The [close] listener on a registered room: when the last socket
    leaves, a timeout is armed in place of the one the room had. *)
Lemma on_close_present roomId ws now st context :
  rooms st !! roomId = Some context →
  let st' := on_close env roomId ws now st in
  roomCreationRate st' = roomCreationRate st
  ∧ totalRoomsCreated st' = totalRoomsCreated st
  ∧ yDocs st' = yDocs st ∧ logs st' = logs st
  ∧ if decide (connections context ∖ {[ws]} = ∅)
    then rooms st' = <[roomId := detached ws now (Some (nextTimer st)) context]> (rooms st)
         ∧ timers st' = <[nextTimer st := (roomId, (now + ROOM_TTL_MS env)%Z)]>
                          (cleared context (timers st))
         ∧ nextTimer st' = S (nextTimer st)
    else rooms st' = <[roomId := detached ws now (cleanupTimer context) context]> (rooms st)
         ∧ timers st' = timers st
         ∧ nextTimer st' = nextTimer st.
Proof.
  intros Hroom. cbn zeta. unfold on_close. rewrite Hroom. cbn.
  destruct (decide (connections context ∖ {[ws]} = ∅)) as [Hempty|Hsome].
  - rewrite bool_decide_eq_true_2
      by (by rewrite Hempty, size_empty).
    unfold scheduleCleanup. cbn. rewrite lookup_insert_eq. cbn.
    rewrite insert_insert_eq. unfold detached, cleared. cbn.
    rewrite Hempty. by destruct (cleanupTimer context).
  - rewrite bool_decide_eq_false_2.
    + done.
    + intros Hsize. apply Hsome. apply leibniz_equiv.
      by apply size_empty_iff.
Qed.

Lemma fire_pending h roomId deadline st :
  timers st !! h = Some (roomId, deadline) →
  rooms (fire env h st) = delete roomId (rooms st)
  ∧ timers (fire env h st) = delete h (timers st)
  ∧ nextTimer (fire env h st) = nextTimer st.
Proof.
  intros Hpending. unfold fire. rewrite Hpending.
  rewrite cleanupRoom_state_rooms.
  by destruct (cleanupRoom_state_timers env roomId
                 (set_timers (delete h (timers st)) (nextTimer st) st)) as [-> ->].
Qed.

Lemma registry_inv_initial : registry_inv initial.
Proof.
  unfold registry_inv, initial; cbn.
  split; [|split; [|split]]; intros *; rewrite lookup_empty; try done.
Qed.

Lemma cleared_lookup context pending h :
  cleared context pending !! h =
    if decide (cleanupTimer context = Some h) then None else pending !! h.
Proof.
  unfold cleared. destruct (cleanupTimer context) as [h0|].
  - rewrite lookup_delete. repeat case_decide; congruence.
  - by case_decide.
Qed.

Lemma registry_inv_upgrade req ws now st :
  registry_inv st → registry_inv (snd (upgrade env req ws now st)).
Proof.
  intros (I1 & I2 & I3 & I4).
  destruct (valid_room_id (req_roomId req)) eqn:Hvalid;
    [|unfold upgrade, gateway; by rewrite Hvalid].
  destruct (rooms st !! req_roomId req) as [context|] eqn:Hroom.
  - pose proof (upgrade_present env req ws now st context Hvalid Hroom) as Hup.
    cbn zeta in Hup.
    destruct (truthy (passcode context) && _); [by rewrite Hup|].
    destruct Hup as (st' & -> & Hrooms & Htimers & Hnext & _). cbn.
    destruct (I1 _ _ Hroom) as [Hiff Hpend].
    split; [|split; [|split]].
    + intros r c. rewrite Hrooms.
      destruct (decide (r = req_roomId req)) as [->|Hne].
      * rewrite lookup_insert_eq. intros [= <-]. split; cbn.
        -- split; [set_solver|by intros [? ?]].
        -- done.
      * rewrite lookup_insert_ne by done. intros Hr.
        destruct (I1 _ _ Hr) as [Hiff' Hpend']. split; [done|].
        intros h Hh. destruct (Hpend' h Hh) as [d Hd]. exists d.
        rewrite Htimers, cleared_lookup. case_decide as Hc; [|done].
        destruct (Hpend h Hc) as [d' Hd']. congruence.
    + intros h r d. rewrite Htimers, cleared_lookup.
      case_decide as Hc; [done|]. intros Hh.
      destruct (I2 _ _ _ Hh) as (c & Hr & Hct). exists c. split; [|done].
      rewrite Hrooms, lookup_insert_ne; [done|]. intros <-. congruence.
    + intros h. rewrite Htimers, Hnext, cleared_lookup.
      case_decide; [by intros [? ?]|]. apply I3.
    + intros r c. rewrite Hrooms.
      destruct (decide (r = req_roomId req)) as [->|Hne].
      * rewrite lookup_insert_eq. intros [= <-]. split; [done|]. cbn.
        apply adopt_wf; [by apply (I4 _ _ Hroom)|apply sanitizedPasscode_wf].
      * rewrite lookup_insert_ne by done. apply I4.
  - destruct (decide (now - last_creation st (req_ip req)
                      < ROOM_CREATION_THROTTLE_MS env)%Z) as [Hlt|Hge].
    + by rewrite upgrade_rejected.
    + destruct (upgrade_creates_room env req ws now st Hvalid Hroom)
        as (st' & c0 & -> & Hrooms & Hconn & Htimer & Hpass & _ & _ & Htimers & Hnext);
        [lia|].
      cbn. split; [|split; [|split]].
      * intros r c. rewrite Hrooms.
        destruct (decide (r = req_roomId req)) as [->|Hne].
        -- rewrite lookup_insert_eq. intros [= <-]. split.
           ++ rewrite Hconn, Htimer. split; [set_solver|by intros [? ?]].
           ++ by rewrite Htimer.
        -- rewrite lookup_insert_ne by done. intros Hr.
           destruct (I1 _ _ Hr) as [Hiff' Hpend']. split; [done|].
           intros h Hh. rewrite Htimers. by apply Hpend'.
      * intros h r d. rewrite Htimers. intros Hh.
        destruct (I2 _ _ _ Hh) as (c & Hr & Hct). exists c. split; [|done].
        rewrite Hrooms, lookup_insert_ne; [done|]. intros <-. congruence.
      * intros h. rewrite Htimers, Hnext. apply I3.
      * intros r c. rewrite Hrooms.
        destruct (decide (r = req_roomId req)) as [->|Hne].
        -- rewrite lookup_insert_eq. intros [= <-]. split; [done|].
           rewrite Hpass. apply sanitizedPasscode_wf.
        -- rewrite lookup_insert_ne by done. apply I4.
Qed.

Lemma registry_inv_on_close roomId ws now st :
  registry_inv st → registry_inv (on_close env roomId ws now st).
Proof.
  intros (I1 & I2 & I3 & I4).
  destruct (rooms st !! roomId) as [context|] eqn:Hroom;
    [|by rewrite on_close_absent].
  destruct (on_close_present roomId ws now st context Hroom)
    as (_ & _ & _ & _ & Hshape).
  destruct (I1 _ _ Hroom) as [Hiff Hpend].
  destruct (decide (connections context ∖ {[ws]} = ∅)) as [Hempty|Hsome];
    destruct Hshape as (Hrooms & Htimers & Hnext);
    (split; [|split; [|split]]).
  - intros r c. rewrite Hrooms.
    destruct (decide (r = roomId)) as [->|Hne].
    + rewrite lookup_insert_eq. intros [= <-]. split; cbn.
      * split; [eauto|done].
      * intros h [= <-]. eexists. by rewrite Htimers, lookup_insert_eq.
    + rewrite lookup_insert_ne by done. intros Hr.
      destruct (I1 _ _ Hr) as [Hiff' Hpend']. split; [done|].
      intros h Hh. destruct (Hpend' h Hh) as [d Hd]. exists d.
      rewrite Htimers, lookup_insert_ne, cleared_lookup.
      * case_decide as Hc; [|done].
        destruct (Hpend h Hc) as [d' Hd']. congruence.
      * intros <-. assert (nextTimer st < nextTimer st)%nat; [|lia].
        apply I3. eauto.
  - intros h r d. rewrite Htimers.
    destruct (decide (h = nextTimer st)) as [->|Hne].
    + rewrite lookup_insert_eq. intros [= <- <-]. eexists.
      by rewrite Hrooms, lookup_insert_eq.
    + rewrite lookup_insert_ne, cleared_lookup by done.
      case_decide as Hc; [done|]. intros Hh.
      destruct (I2 _ _ _ Hh) as (c & Hr & Hct). exists c. split; [|done].
      rewrite Hrooms, lookup_insert_ne; [done|]. intros <-. congruence.
  - intros h. rewrite Htimers, Hnext.
    destruct (decide (h = nextTimer st)) as [->|Hne]; [lia|].
    rewrite lookup_insert_ne, cleared_lookup by done.
    case_decide; [by intros [? ?]|]. intros Hs. specialize (I3 h Hs). lia.
  - intros r c. rewrite Hrooms.
    destruct (decide (r = roomId)) as [->|Hne].
    + rewrite lookup_insert_eq. intros [= <-]. cbn. by apply (I4 _ _ Hroom).
    + rewrite lookup_insert_ne by done. apply I4.
  - assert (cleanupTimer context = None) as Hnone.
    { destruct (cleanupTimer context) as [h|] eqn:Ht; [|done].
      exfalso. apply Hsome. assert (connections context = ∅) as ->
        by (apply Hiff; eauto). set_solver. }
    intros r c. rewrite Hrooms.
    destruct (decide (r = roomId)) as [->|Hne].
    + rewrite lookup_insert_eq. intros [= <-]. split; cbn.
      * rewrite Hnone. split; [done|by intros [? ?]].
      * by rewrite Hnone.
    + rewrite lookup_insert_ne by done. intros Hr.
      destruct (I1 _ _ Hr) as [Hiff' Hpend']. split; [done|].
      intros h Hh. rewrite Htimers. by apply Hpend'.
  - intros h r d. rewrite Htimers. intros Hh.
    destruct (I2 _ _ _ Hh) as (c & Hr & Hct).
    destruct (decide (r = roomId)) as [->|Hne].
    + eexists. rewrite Hrooms, lookup_insert_eq. split; [done|]. cbn. congruence.
    + exists c. by rewrite Hrooms, lookup_insert_ne.
  - intros h. rewrite Htimers, Hnext. apply I3.
  - intros r c. rewrite Hrooms.
    destruct (decide (r = roomId)) as [->|Hne].
    + rewrite lookup_insert_eq. intros [= <-]. cbn. by apply (I4 _ _ Hroom).
    + rewrite lookup_insert_ne by done. apply I4.
Qed.

Lemma registry_inv_fire h st :
  registry_inv st → registry_inv (fire env h st).
Proof.
  intros (I1 & I2 & I3 & I4).
  destruct (timers st !! h) as [[roomId deadline]|] eqn:Hpending;
    [|unfold fire; by rewrite Hpending].
  destruct (fire_pending h roomId deadline st Hpending)
    as (Hrooms & Htimers & Hnext).
  destruct (I2 _ _ _ Hpending) as (context & Hroom & Htimer).
  split; [|split; [|split]].
  - intros r c. rewrite Hrooms.
    intros [Hne Hr]%lookup_delete_Some.
    destruct (I1 _ _ Hr) as [Hiff' Hpend']. split; [done|].
    intros h' Hh'. destruct (Hpend' h' Hh') as [d Hd]. exists d.
    rewrite Htimers, lookup_delete_ne; [done|]. intros <-. congruence.
  - intros h' r d. rewrite Htimers.
    intros [Hne Hh']%lookup_delete_Some.
    destruct (I2 _ _ _ Hh') as (c & Hr & Hct). exists c. split; [|done].
    rewrite Hrooms, lookup_delete_ne; [done|]. intros <-. congruence.
  - intros h'. rewrite Htimers, Hnext.
    intros [x [_ Hx]%lookup_delete_Some]. apply I3. eauto.
  - intros r c. rewrite Hrooms. intros [_ Hr]%lookup_delete_Some. by apply I4.
Qed.

Lemma registry_inv_step ev st :
  registry_inv st → registry_inv (step env ev st).
Proof.
  destruct ev; cbn.
  - apply registry_inv_upgrade.
  - apply registry_inv_on_close.
  - apply registry_inv_fire.
Qed.

Lemma reachable_inv st : reachable env st → registry_inv st.
Proof.
  induction 1 as [|st ev _ IH].
  - apply registry_inv_initial.
  - by apply registry_inv_step.
Qed.

Lemma reachable_run evs st :
  reachable env st → reachable env (run env evs st).
Proof.
  revert st. induction evs as [|ev evs IH]; intros st Hst; [done|].
  cbn. apply IH. by constructor.
Qed.



(** C3, as the code has it.  On a room that holds the secret [secret],
    the connection is compared through the first 128 characters of what
    it supplies (nothing, when it supplies the empty string): when these
    differ from [secret] the socket is closed with code 4003 and the
    state is untouched; when they are [secret], as they are when the
    client supplies exactly [secret], the connection is attached.  On a
    room without a secret a connection that supplies none is attached. *)
Theorem passcode_gate (st : State) (req : Request) (ws : nat) (now : Z)
    (context : RoomContext) :
  reachable env st →
  rooms st !! req_roomId req = Some context →
  let supplied := sanitizedPasscode (req_k req) in
  let accepted (expected : option string) :=
    ∃ st' context',
      upgrade env req ws now st = (Attached, st')
      ∧ rooms st' !! req_roomId req = Some context'
      ∧ ws ∈ connections context'
      ∧ passcode context' = expected in
  (∀ secret, passcode context = Some secret →
     (supplied ≠ Some secret →
        upgrade env req ws now st = (Closed 4003 "passcode-required", st))
     ∧ (supplied = Some secret → accepted (Some secret))
     ∧ (req_k req = Some secret → accepted (Some secret)))
  ∧ (passcode context = None → req_k req = None → accepted None).
Proof.
  intros Hreach Hroom supplied accepted.
  destruct (reachable_inv st Hreach) as (_ & _ & _ & I4).
  destruct (I4 _ _ Hroom) as [Hvalid Hwf].
  pose proof (upgrade_present env req ws now st context Hvalid Hroom) as Hup.
  cbn zeta in Hup. fold supplied in Hup.
  rewrite (passcode_wf_truthy _ Hwf) in Hup.
  assert (∀ expected, passcode context = expected →
            (is_Some expected → supplied = expected) →
            adopt expected supplied = expected →
            accepted expected) as Hacc.
  { intros expected Hp Hs Ha. rewrite Hp in Hup.
    destruct (bool_decide (is_Some expected)
              && negb (bool_decide (expected = supplied))) eqn:Hdeny.
    - apply andb_true_iff in Hdeny as [H1 H2].
      apply bool_decide_eq_true in H1. apply negb_true_iff in H2.
      apply bool_decide_eq_false in H2. by rewrite Hs in H2.
    - destruct Hup as (st' & Hup & Hrooms & _).
      eexists st', _. split; [done|].
      split; [by rewrite Hrooms, lookup_insert_eq|]. cbn.
      split; [set_solver|]. by rewrite Hp, Ha. }
  split.
  - intros secret Hsecret.
    assert (supplied = Some secret → accepted (Some secret)) as Hsame.
    { intros Hs. apply Hacc; [done|by intros _|].
      unfold adopt. rewrite Hs. by destruct (negb _ && _). }
    split; [|split; [done|]].
    + intros Hdiff. rewrite Hsecret in Hup.
      rewrite (bool_decide_eq_true_2 (is_Some (Some secret))) in Hup
        by (by eexists).
      rewrite (bool_decide_eq_false_2 (Some secret = supplied)) in Hup
        by congruence.
      exact Hup.
    + intros Hk. apply Hsame. unfold supplied. rewrite Hk.
      apply sanitizedPasscode_exact. by rewrite <- Hsecret.
  - intros Hnone Hk. apply Hacc; [done|by intros [? ?]|].
    unfold supplied. by rewrite Hk.
Qed.


End Scheduler.

(** ** The theorems on runs of the sample server *)

Lemma reachable_one_connection : reachable sample_env one_connection.
Proof. apply reachable_run, reachable_initial. Qed.

Lemma reachable_waiting_eviction : reachable sample_env waiting_eviction.
Proof. apply reachable_run, reachable_one_connection. Qed.

Lemma reachable_guarded_room : reachable sample_env guarded_room.
Proof. apply reachable_run, reachable_initial. Qed.



(** A room created with a secret of 128 characters admits a connection
    that supplies a different, longer secret with the same first 128
    characters. *)
Lemma longer_secret_is_accepted :
  (passcode <$> rooms guarded_room !! "abc123") = Some (Some long_secret)
  ∧ Some (long_secret +:+ "b") ≠ Some long_secret
  ∧ fst (upgrade sample_env
           (request "abc123" (Some (long_secret +:+ "b")) "10.0.0.2") 2 7000
           guarded_room) = Attached.
Proof. repeat split; vm_compute; (reflexivity || discriminate). Qed.

Lemma passcode_gate_witness :
  ∃ context,
    rooms guarded_room !! "abc123" = Some context
    ∧ passcode context = Some long_secret
    ∧ upgrade sample_env (request "abc123" (Some "guess") "10.0.0.2") 2 7000
        guarded_room = (Closed 4003 "passcode-required", guarded_room)
    ∧ ∃ st' context',
        upgrade sample_env (request "abc123" (Some long_secret) "10.0.0.2") 2 7000
          guarded_room = (Attached, st')
        ∧ rooms st' !! "abc123" = Some context'
        ∧ 2%nat ∈ connections context'
        ∧ passcode context' = Some long_secret.
Proof.
  eexists. split; [vm_compute; reflexivity|]. split; [reflexivity|]. split.
  - destruct (passcode_gate sample_env guarded_room
                (request "abc123" (Some "guess") "10.0.0.2") 2 7000 _
                reachable_guarded_room eq_refl) as [Hsecret _].
    destruct (Hsecret long_secret eq_refl) as (Hreject & _).
    apply Hreject. vm_compute. discriminate.
  - destruct (passcode_gate sample_env guarded_room
                (request "abc123" (Some long_secret) "10.0.0.2") 2 7000 _
                reachable_guarded_room eq_refl) as [Hsecret _].
    destruct (Hsecret long_secret eq_refl) as (_ & _ & Haccept).
    by apply Haccept.
Defined.





Lemma creation_throttle_scenario_witness :
  let first := request "alpha-1" None "10.0.0.1" in
  let second := request "bravo-2" None "10.0.0.1" in
  (3000 ≤ 5000 - last_creation initial "10.0.0.1")%Z
  ∧ ∃ st1,
      upgrade sample_env first 1 5000 initial = (Attached, st1)
      ∧ is_Some (rooms st1 !! "alpha-1")
      ∧ upgrade sample_env second 2 (5000 + 500) st1 = (Aborted 429 "Rate Limit", st1)
      ∧ rooms st1 !! "bravo-2" = None
      ∧ ∃ st2,
          upgrade sample_env second 2 (5000 + 4000) st1 = (Attached, st2)
          ∧ is_Some (rooms st2 !! "alpha-1")
          ∧ is_Some (rooms st2 !! "bravo-2").
Proof.
  assert (3000 ≤ 5000 - last_creation initial "10.0.0.1")%Z as Hfirst
    by (vm_compute; discriminate).
  split; [exact Hfirst|].
  apply (creation_throttle_scenario sample_env initial
           (request "alpha-1" None "10.0.0.1") (request "bravo-2" None "10.0.0.1")
           1 2 5000);
    try reflexivity; try exact Hfirst.
  vm_compute. discriminate.
Defined.

Lemma rejected_attempts_do_not_extend_throttle_witness :
  let reqs := [(request "bravo-2" None "10.0.0.1", 2%nat, 5500%Z);
               (request "delta-3" None "10.0.0.1", 3%nat, 6000%Z)] in
  fst (attempts sample_env reqs one_connection) = [rate_limited; rate_limited]
  ∧ snd (attempts sample_env reqs one_connection) = one_connection
  ∧ fst (upgrade sample_env (request "bravo-2" None "10.0.0.1") 2 8000
           (snd (attempts sample_env reqs one_connection))) = Attached.
Proof.
  assert (fst (attempts sample_env
                 [(request "bravo-2" None "10.0.0.1", 2%nat, 5500%Z);
                  (request "delta-3" None "10.0.0.1", 3%nat, 6000%Z)]
                 one_connection) = [rate_limited; rate_limited]) as Hall
    by reflexivity.
  split; [exact Hall|].
  destruct (rejected_attempts_do_not_extend_throttle sample_env
              [(request "bravo-2" None "10.0.0.1", 2%nat, 5500%Z);
               (request "delta-3" None "10.0.0.1", 3%nat, 6000%Z)]
              one_connection) as (Hsame & _ & Hnext).
  - rewrite Hall. by repeat constructor.
  - split; [exact Hsame|].
    apply Hnext; [reflexivity|reflexivity|vm_compute; discriminate].
Defined.

End ServerTheory.

Module RegistryTheory.
Import Server Endpoints ServerTheory.

Section Events.

Variable env : Env.

(** What a request that creates its room leaves behind. *)
Lemma upgrade_creation_record req ws now st :
  valid_room_id (req_roomId req) = true →
  rooms st !! req_roomId req = None →
  (ROOM_CREATION_THROTTLE_MS env ≤ now - last_creation st (req_ip req))%Z →
  ∃ st' context,
    upgrade env req ws now st = (Attached, st')
    ∧ rooms st' = <[req_roomId req := context]> (rooms st)
    ∧ connections context = {[ws]}
    ∧ lastActive context = now
    ∧ totalRoomsCreated st' = S (totalRoomsCreated st)
    ∧ logs st' = logs st ++ [LogInfo "created room" (req_roomId req)]
    ∧ timers st' = timers st.
Proof.
  intros Hvalid Hnone Hge.
  unfold upgrade, gateway, canCreateRoom. rewrite Hvalid, Hnone. cbn.
  fold (last_creation st (req_ip req)).
  rewrite bool_decide_eq_false_2 by lia. cbn.
  destruct (ensureRoomContext_absent env (req_roomId req)
              (sanitizedPasscode (req_k req)) now
              (set_roomCreationRate (<[req_ip req := now]> (roomCreationRate st)) st)
              Hnone)
    as (context & docs & -> & Hc & Ht & Hp & Hcr & Hla).
  unfold attach. cbn. rewrite lookup_insert_eq. cbn. rewrite Ht.
  eexists _, _. split; [reflexivity|]. cbn.
  rewrite insert_insert_eq. rewrite Hc.
  repeat split; try done. by rewrite union_empty_r_L.
Qed.

(** The four ways an upgrade request ends. *)
Lemma upgrade_cases req ws now st :
  (valid_room_id (req_roomId req) = false
   ∧ upgrade env req ws now st = (Aborted 400 "Invalid Room", st))
  ∨ (valid_room_id (req_roomId req) = true
     ∧ rooms st !! req_roomId req = None
     ∧ (now - last_creation st (req_ip req) < ROOM_CREATION_THROTTLE_MS env)%Z
     ∧ upgrade env req ws now st = (Aborted 429 "Rate Limit", st))
  ∨ (valid_room_id (req_roomId req) = true
     ∧ rooms st !! req_roomId req = None
     ∧ (ROOM_CREATION_THROTTLE_MS env ≤ now - last_creation st (req_ip req))%Z)
  ∨ (valid_room_id (req_roomId req) = true
     ∧ ∃ context, rooms st !! req_roomId req = Some context).
Proof.
  destruct (valid_room_id (req_roomId req)) eqn:Hvalid.
  - right. destruct (rooms st !! req_roomId req) as [context|] eqn:Hroom.
    + right. right. eauto.
    + destruct (decide (now - last_creation st (req_ip req)
                        < ROOM_CREATION_THROTTLE_MS env)%Z) as [Hlt|Hge].
      * left. repeat split; try done. by apply upgrade_rejected.
      * right. left. repeat split; try done. lia.
  - left. split; [done|]. unfold upgrade, gateway. by rewrite Hvalid.
Qed.



(** What one event does to a registered room: its timer fires and it is
    gone, or it is left alone, or a socket is attached to it or detached
    from it. *)
Lemma step_room ev st roomId context :
  rooms st !! roomId = Some context →
  (rooms (step env ev st) !! roomId = None
   ∧ ∃ h deadline, ev = EvTimeout h ∧ timers st !! h = Some (roomId, deadline))
  ∨ rooms (step env ev st) !! roomId = Some context
  ∨ (∃ req ws now,
       ev = EvUpgrade req ws now ∧ req_roomId req = roomId
       ∧ rooms (step env ev st) !! roomId
         = Some (attached ws now (sanitizedPasscode (req_k req)) context))
  ∨ (∃ ws now timer,
       ev = EvClose roomId ws now
       ∧ rooms (step env ev st) !! roomId = Some (detached ws now timer context)).
Proof.
  intros Hroom. destruct ev as [req ws now|r ws now|h]; cbn [step].
  - destruct (upgrade_cases req ws now st)
      as [[_ ->]|[(_ & _ & _ & ->)|[(Hvalid & Hnone & Hge)|(Hvalid & c & Hc)]]].
    + right. by left.
    + right. by left.
    + destruct (upgrade_creation_record req ws now st Hvalid Hnone Hge)
        as (st' & c & -> & Hrooms & _).
      right. left. cbn. rewrite Hrooms, lookup_insert_ne; [done|].
      intros <-. congruence.
    + pose proof (upgrade_present env req ws now st c Hvalid Hc) as Hup.
      cbn in Hup. destruct (truthy (passcode c) && _).
      * right. left. by rewrite Hup.
      * destruct Hup as (st' & -> & Hrooms & _). cbn. rewrite Hrooms.
        destruct (decide (req_roomId req = roomId)) as [<-|Hne].
        -- right. right. left. exists req, ws, now.
           rewrite lookup_insert_eq. repeat split. congruence.
        -- right. left. by rewrite lookup_insert_ne.
  - destruct (decide (r = roomId)) as [->|Hne].
    + pose proof (on_close_present env roomId ws now st context Hroom)
        as (_ & _ & _ & _ & Hcl).
      right. right. right. exists ws, now.
      destruct (decide (connections context ∖ {[ws]} = ∅));
        destruct Hcl as (-> & _); rewrite lookup_insert_eq; eauto.
    + right. left.
      destruct (rooms st !! r) as [c|] eqn:Hr.
      * pose proof (on_close_present env r ws now st c Hr)
          as (_ & _ & _ & _ & Hcl).
        destruct (decide (connections c ∖ {[ws]} = ∅));
          destruct Hcl as (-> & _); by rewrite lookup_insert_ne.
      * by rewrite on_close_absent.
  - destruct (timers st !! h) as [[r deadline]|] eqn:Hh.
    + destruct (fire_pending env h r deadline st Hh) as (-> & _).
      destruct (decide (r = roomId)) as [->|Hne].
      * left. rewrite lookup_delete_eq. split; [done|]. eauto.
      * right. left. by rewrite lookup_delete_ne.
    + right. left. unfold fire. by rewrite Hh.
Qed.


(** X2. A registered room changes only through the events about it: an
    upgrade request naming another room, the close of a socket of another
    room, the timeout of another room leave its context as it was. *)
Theorem events_are_local_to_their_room
    (st : State) (ev : Event) (roomId : string) :
  event_room st ev ≠ Some roomId →
  rooms (step env ev st) !! roomId = rooms st !! roomId.
Proof.
  intros Hother. destruct ev as [req ws now|r ws now|h]; cbn in *.
  - assert (req_roomId req ≠ roomId) as Hne by congruence.
    destruct (upgrade_cases req ws now st)
      as [[_ ->]|[(_ & _ & _ & ->)|[(Hvalid & Hnone & Hge)|(Hvalid & c & Hc)]]];
      try done.
    + destruct (upgrade_creation_record req ws now st Hvalid Hnone Hge)
        as (st' & c & -> & Hrooms & _).
      cbn. by rewrite Hrooms, lookup_insert_ne.
    + pose proof (upgrade_present env req ws now st c Hvalid Hc) as Hup.
      cbn in Hup. destruct (truthy (passcode c) && _).
      * by rewrite Hup.
      * destruct Hup as (st' & -> & Hrooms & _).
        cbn. by rewrite Hrooms, lookup_insert_ne.
  - assert (r ≠ roomId) as Hne by congruence.
    destruct (rooms st !! r) as [c|] eqn:Hr.
    + pose proof (on_close_present env r ws now st c Hr)
        as (_ & _ & _ & _ & Hcl).
      destruct (decide (connections c ∖ {[ws]} = ∅));
        destruct Hcl as (-> & _); by rewrite lookup_insert_ne.
    + by rewrite on_close_absent.
  - destruct (timers st !! h) as [[r deadline]|] eqn:Hh.
    + destruct (fire_pending env h r deadline st Hh) as (-> & _).
      rewrite lookup_delete_ne; [done|]. cbn in Hother. congruence.
    + unfold fire. by rewrite Hh.
Qed.

(** X3. No event removes a room that has a live connection: after any
    event such a room is still registered, and a timeout, whichever fires,
    leaves its context untouched. *)
Theorem connected_room_survives
    (st : State) (roomId : string) (context : RoomContext) :
  reachable env st →
  rooms st !! roomId = Some context →
  connections context ≠ ∅ →
  (∀ ev, is_Some (rooms (step env ev st) !! roomId))
  ∧ (∀ h, rooms (fire env h st) !! roomId = Some context).
Proof.
  intros Hreach Hroom Hconn.
  destruct (reachable_inv env st Hreach) as (I1 & I2 & _).
  assert (∀ h deadline, timers st !! h = Some (roomId, deadline) → False) as Hno.
  { intros h deadline Hh.
    destruct (I2 h roomId deadline Hh) as (c & Hc & Ht).
    assert (c = context) as -> by congruence.
    destruct (I1 roomId context Hroom) as [Hiff _].
    apply Hconn, Hiff. by rewrite Ht. }
  split.
  - intros ev.
    destruct (step_room ev st roomId context Hroom)
      as [(_ & h & d & _ & Hh)|[->|[(req & ws & now & _ & _ & ->)
                                    |(ws & now & timer & _ & ->)]]]; try done.
    by destruct (Hno h d).
  - intros h.
    destruct (step_room (EvTimeout h) st roomId context Hroom)
      as [(_ & h' & d & _ & Hh)|[Hkeep|[(req & ws & now & Hev & _)
                                       |(ws & now & timer & Hev & _)]]];
      try done.
    by destruct (Hno h' d).
Qed.

(** X4. While a room stays registered its identity is stable: whatever
    the event, the room keeps its document, its presence object and its
    creation time, and a secret it holds is never replaced or dropped.
    The only way a room leaves the registry is its own timeout firing. *)
Theorem room_identity_is_stable
    (st : State) (ev : Event) (roomId : string) (context : RoomContext) :
  reachable env st →
  rooms st !! roomId = Some context →
  (rooms (step env ev st) !! roomId = None
   ∧ ∃ h deadline, ev = EvTimeout h ∧ timers st !! h = Some (roomId, deadline))
  ∨ ∃ context',
      rooms (step env ev st) !! roomId = Some context'
      ∧ doc context' = doc context
      ∧ awareness context' = awareness context
      ∧ createdAt context' = createdAt context
      ∧ ∀ secret, passcode context = Some secret →
          passcode context' = Some secret.
Proof.
  intros Hreach Hroom.
  destruct (reachable_inv env st Hreach) as (_ & _ & _ & I4).
  destruct (I4 roomId context Hroom) as [_ Hwf].
  destruct (step_room ev st roomId context Hroom)
    as [Hgone|[Hkeep|[(req & ws & now & _ & _ & Hatt)
                     |(ws & now & timer & _ & Hdet)]]].
  - by left.
  - right. exists context. done.
  - right. eexists. split; [exact Hatt|]. cbn. repeat split.
    intros secret Hsecret. unfold adopt.
    rewrite (passcode_wf_truthy _ Hwf), Hsecret.
    rewrite bool_decide_eq_true_2 by (by eexists). done.
  - right. eexists. split; [exact Hdet|]. done.
Qed.


Lemma timers_due_step ev st :
  registry_inv st → timers_due env st → timers_due env (step env ev st).
Proof.
  intros (I1 & I2 & _) Hdue.
  assert (∀ h r d c, timers st !! h = Some (r, d) → rooms st !! r = Some c →
            cleanupTimer c = Some h) as Hown.
  { intros h r d c Hh Hc. destruct (I2 h r d Hh) as (c' & Hc' & Ht). congruence. }
  destruct ev as [req ws now|roomId ws now|h]; cbn [step].
  - destruct (upgrade_cases req ws now st)
      as [[_ ->]|[(_ & _ & _ & ->)|[(Hvalid & Hnone & Hge)|(Hvalid & c & Hc)]]];
      try done.
    + destruct (upgrade_creation_record req ws now st Hvalid Hnone Hge)
        as (st' & c & -> & Hrooms & _ & _ & _ & _ & Htimers).
      cbn. intros h r d Hh. rewrite Htimers in Hh.
      destruct (Hdue h r d Hh) as (c' & Hc' & Hd).
      exists c'. split; [|done]. rewrite Hrooms, lookup_insert_ne; [done|].
      intros <-. congruence.
    + pose proof (upgrade_present env req ws now st c Hvalid Hc) as Hup.
      cbn in Hup. destruct (truthy (passcode c) && _).
      * by rewrite Hup.
      * destruct Hup as (st' & -> & Hrooms & Htimers & _).
        cbn. intros h r d Hh. rewrite Htimers, cleared_lookup in Hh.
        destruct (decide (cleanupTimer c = Some h)) as [|Hnot]; [done|].
        destruct (Hdue h r d Hh) as (c' & Hc' & Hd).
        exists c'. split; [|done]. rewrite Hrooms, lookup_insert_ne; [done|].
        intros <-. apply Hnot. by apply (Hown h (req_roomId req) d).
  - destruct (rooms st !! roomId) as [c|] eqn:Hc.
    + pose proof (on_close_present env roomId ws now st c Hc)
        as (_ & _ & _ & _ & Hcl).
      destruct (decide (connections c ∖ {[ws]} = ∅)) as [Hempty|Hsome];
        destruct Hcl as (Hrooms & Htimers & _); intros h r d Hh;
        rewrite Htimers in Hh.
      * destruct (decide (h = nextTimer st)) as [->|Hne].
        -- rewrite lookup_insert_eq in Hh. inversion Hh; subst.
           eexists. rewrite Hrooms, lookup_insert_eq. done.
        -- rewrite lookup_insert_ne, cleared_lookup in Hh by done.
           destruct (decide (cleanupTimer c = Some h)) as [|Hnot]; [done|].
           destruct (Hdue h r d Hh) as (c' & Hc' & Hd).
           exists c'. split; [|done]. rewrite Hrooms, lookup_insert_ne; [done|].
           intros <-. apply Hnot. by apply (Hown h roomId d).
      * destruct (Hdue h r d Hh) as (c' & Hc' & Hd).
        exists c'. split; [|done]. rewrite Hrooms, lookup_insert_ne; [done|].
        intros <-. apply Hsome.
        destruct (I1 roomId c Hc) as [Hiff _].
        assert (connections c = ∅) as ->; [|set_solver].
        apply Hiff. rewrite (Hown h roomId d c Hh Hc). by eexists.
    + by rewrite on_close_absent.
  - destruct (timers st !! h) as [[r0 d0]|] eqn:Hh0.
    + destruct (fire_pending env h r0 d0 st Hh0) as (Hrooms & Htimers & _).
      intros h' r d Hh. rewrite Htimers in Hh.
      destruct (decide (h' = h)) as [->|Hne];
        [by rewrite lookup_delete_eq in Hh|].
      rewrite lookup_delete_ne in Hh by done.
      destruct (Hdue h' r d Hh) as (c' & Hc' & Hd).
      exists c'. split; [|done]. rewrite Hrooms, lookup_delete_ne; [done|].
      intros <-. apply Hne.
      pose proof (Hown h r0 d0 c' Hh0 Hc'). pose proof (Hown h' r0 d c' Hh Hc').
      congruence.
    + unfold fire. by rewrite Hh0.
Qed.

Lemma reachable_timers_due st : reachable env st → timers_due env st.
Proof.
  induction 1 as [|st ev Hreach IH].
  - intros h r d Hh. cbn in Hh. by rewrite lookup_empty in Hh.
  - apply timers_due_step; [by apply (reachable_inv env)|done].
Qed.

(** X5. At every state the server goes through, a pending eviction
    timeout belongs to a registered room that has no connection, it is the
    only timeout of that room, and it is due exactly [ROOM_TTL_MS] after
    the room's last activity: the idle period is always counted from the
    most recent attach or close, never from an earlier one. *)
Theorem eviction_is_due_after_last_activity
    (st : State) (h : nat) (roomId : string) (deadline : Z) :
  reachable env st →
  timers st !! h = Some (roomId, deadline) →
  ∃ context,
    rooms st !! roomId = Some context
    ∧ connections context = ∅
    ∧ cleanupTimer context = Some h
    ∧ deadline = (lastActive context + ROOM_TTL_MS env)%Z
    ∧ ∀ h' deadline', timers st !! h' = Some (roomId, deadline') →
        h' = h ∧ deadline' = deadline.
Proof.
  intros Hreach Hh.
  destruct (reachable_inv env st Hreach) as (I1 & I2 & _).
  destruct (reachable_timers_due st Hreach h roomId deadline Hh)
    as (context & Hroom & Hd).
  destruct (I2 h roomId deadline Hh) as (c & Hc & Ht).
  assert (c = context) as -> by congruence.
  exists context. split; [done|]. split.
  { destruct (I1 roomId context Hroom) as [[_ Hback] _].
    apply Hback. by rewrite Ht. }
  do 2 (split; [done|]).
  - intros h' deadline' Hh'.
    destruct (I2 h' roomId deadline' Hh') as (c' & Hc' & Ht').
    assert (h' = h) as -> by congruence. split; congruence.
Qed.


Lemma creations_logged_app st e l :
  logs st = l ++ [e] →
  length (List.filter created_log (logs st))
  = length (List.filter created_log l) + (if created_log e then 1 else 0).
Proof.
  intros ->. rewrite List.filter_app, length_app. cbn.
  by destruct (created_log e).
Qed.

Lemma teardown_warnings_not_creations roomId context :
  List.filter created_log (teardown_warnings env roomId context) = [].
Proof.
  unfold teardown_warnings.
  by destruct (awareness_destroy env (awareness context)),
       (doc_destroy env (doc context)).
Qed.

(** What a firing timeout leaves of the counter and of the log. *)
Lemma fire_record h st :
  totalRoomsCreated (fire env h st) = totalRoomsCreated st
  ∧ creations_logged (fire env h st) = creations_logged st
  ∧ (size (rooms (fire env h st)) ≤ size (rooms st))%nat.
Proof.
  unfold fire. destruct (timers st !! h) as [[r d]|] eqn:Hh; [|done].
  set (st1 := set_timers (delete h (timers st)) (nextTimer st) st).
  unfold cleanupRoom_state.
  destruct (rooms st1 !! r) as [c|] eqn:Hc.
  - destruct (cleanupRoom_present env r st1 c Hc)
      as (st' & -> & Hrooms & _ & _ & _ & _ & Htotal & Hlogs).
    cbn. unfold creations_logged. rewrite Htotal, Hrooms, Hlogs.
    rewrite List.filter_app. cbn.
    rewrite teardown_warnings_not_creations, app_nil_r.
    repeat split. rewrite map_size_delete. cbn in Hc. rewrite Hc. cbn. lia.
  - by rewrite (cleanupRoom_absent env r st1 Hc).
Qed.

Lemma counters_step ev st :
  (totalRoomsCreated st ≤ totalRoomsCreated (step env ev st)
    ≤ S (totalRoomsCreated st))%nat
  ∧ ((size (rooms st) ≤ totalRoomsCreated st)%nat →
     (size (rooms (step env ev st)) ≤ totalRoomsCreated (step env ev st))%nat)
  ∧ (creations_logged st = totalRoomsCreated st →
     creations_logged (step env ev st) = totalRoomsCreated (step env ev st)).
Proof.
  destruct ev as [req ws now|roomId ws now|h]; cbn [step].
  - destruct (upgrade_cases req ws now st)
      as [[_ ->]|[(_ & _ & _ & ->)|[(Hvalid & Hnone & Hge)|(Hvalid & c & Hc)]]];
      cbn; try lia.
    + destruct (upgrade_creation_record req ws now st Hvalid Hnone Hge)
        as (st' & c & -> & Hrooms & _ & _ & Htotal & Hlogs & _).
      cbn. unfold creations_logged.
      rewrite Htotal, Hrooms, Hlogs, List.filter_app, length_app.
      rewrite map_size_insert_None by done. cbn. lia.
    + pose proof (upgrade_present env req ws now st c Hvalid Hc) as Hup.
      cbn in Hup. destruct (truthy (passcode c) && _).
      * rewrite Hup. cbn. lia.
      * destruct Hup as (st' & -> & Hrooms & _ & _ & _ & Htotal & _ & Hlogs).
        cbn. unfold creations_logged. rewrite Htotal, Hrooms, Hlogs.
        rewrite map_size_insert_Some by (by eexists). lia.
  - destruct (rooms st !! roomId) as [c|] eqn:Hc.
    + pose proof (on_close_present env roomId ws now st c Hc)
        as (_ & Htotal & _ & Hlogs & Hcl).
      unfold creations_logged. rewrite Htotal, Hlogs.
      destruct (decide (connections c ∖ {[ws]} = ∅));
        destruct Hcl as (-> & _);
        rewrite map_size_insert_Some by (by eexists); lia.
    + rewrite on_close_absent by done. lia.
  - destruct (fire_record h st) as (-> & -> & Hsize). lia.
Qed.

(** X6. The counter behind [rooms_total_created] counts creations and
    nothing else: at every state the server goes through it equals the
    number of [created room] lines of the log, it is never below the
    number of registered rooms, and one event raises it by at most one
    and never lowers it. *)
Theorem created_counter_counts_creations (st : State) :
  reachable env st →
  creations_logged st = totalRoomsCreated st
  ∧ (rooms_active st ≤ totalRoomsCreated st)%nat
  ∧ ∀ ev, (totalRoomsCreated st ≤ totalRoomsCreated (step env ev st)
           ≤ S (totalRoomsCreated st))%nat.
Proof.
  intros Hreach. split; [|split].
  - induction Hreach as [|st ev Hreach IH]; [done|].
    by apply counters_step.
  - unfold rooms_active. induction Hreach as [|st ev Hreach IH].
    + cbn. by rewrite map_size_empty.
    + by apply counters_step.
  - intros ev. apply counters_step.
Qed.

(** X7. The creation throttle is kept per origin: whatever the upgrade
    requests of other origins are and however they end, they leave the
    timestamp of an origin as it was, so the verdict of [canCreateRoom]
    for that origin is the one it would have had without them. *)
Theorem other_origins_do_not_throttle
    (reqs : list (Request * nat * Z)) (st : State) (ip : string) (now : Z) :
  Forall (λ r, req_ip r.1.1 ≠ ip) reqs →
  last_creation (snd (attempts env reqs st)) ip = last_creation st ip
  ∧ fst (canCreateRoom env ip now (snd (attempts env reqs st)))
    = fst (canCreateRoom env ip now st).
Proof.
  intros Hothers.
  assert (last_creation (snd (attempts env reqs st)) ip = last_creation st ip)
    as Hlast.
  { revert st. induction Hothers as [|[[req ws] t] reqs Hne _ IH]; intros st;
      [done|].
    cbn [attempts].
    destruct (upgrade env req ws t st) as [r st1] eqn:Hup.
    specialize (IH st1).
    destruct (attempts env reqs st1) as [rs st2]. cbn in *.
    rewrite IH.
    pose proof (upgrade_timestamp env req ws t st) as Hts.
    rewrite Hup in Hts. cbn in Hts. unfold last_creation.
    destruct Hts as [->|(_ & _ & _ & ->)]; [done|].
    by rewrite lookup_insert_ne. }
  split; [done|].
  unfold canCreateRoom. rewrite Hlast. by case_bool_decide.
Qed.


Lemma length_filter_fmap {A B} (P : B → Prop) `{!∀ x, Decision (P x)}
    (f : A → B) (l : list A) :
  length (filter P (f <$> l)) = length (filter (λ x, P (f x)) l).
Proof.
  induction l as [|x l IH]; [done|].
  rewrite fmap_cons, !filter_cons.
  destruct (decide (P (f x))); cbn [length]; by rewrite IH.
Qed.

(** The rooms that wait for their eviction are as many as the pending
    timeouts. *)
Lemma waiting_rooms_pending_timers st :
  registry_inv st → rooms_waiting_cleanup st = size (timers st).
Proof.
  intros (I1 & I2 & _). unfold rooms_waiting_cleanup.
  rewrite length_filter_fmap, <- length_map_to_list.
  set (waiting := filter (λ kv : string * RoomContext, is_Some (cleanupTimer kv.2))
                    (map_to_list (rooms st))).
  rewrite <- (length_fmap (λ kv : string * RoomContext, (kv.1, cleanupTimer kv.2))
                waiting).
  rewrite <- (length_fmap (λ hv : nat * (string * Z), (hv.2.1, Some hv.1))
                (map_to_list (timers st))).
  apply Permutation_length, NoDup_Permutation.
  - apply NoDup_fmap_2_strong.
    + intros [r c] [r' c'] Hin Hin' Heq. cbn in Heq.
      apply list_elem_of_filter in Hin as [_ Hin], Hin' as [_ Hin'].
      apply elem_of_map_to_list in Hin, Hin'.
      inversion Heq; subst. congruence.
    + apply NoDup_filter, NoDup_map_to_list.
  - apply NoDup_fmap_2_strong; [|apply NoDup_map_to_list].
    intros [h [r d]] [h' [r' d']] Hin Hin' Heq. cbn in Heq.
    apply elem_of_map_to_list in Hin, Hin'.
    inversion Heq; subst. congruence.
  - intros [r o]. rewrite !list_elem_of_fmap. split.
    + intros ([r' c] & Heq & Hin). cbn in Heq. inversion Heq; subst.
      apply list_elem_of_filter in Hin as [[h Hh] Hin]. cbn in Hh.
      apply elem_of_map_to_list in Hin.
      destruct (I1 r' c Hin) as [_ Htimer].
      destruct (Htimer h Hh) as (d & Hd).
      exists (h, (r', d)). cbn. split; [by rewrite Hh|].
      by apply elem_of_map_to_list.
    + intros ([h [r' d]] & Heq & Hin). cbn in Heq. inversion Heq; subst.
      apply elem_of_map_to_list in Hin.
      destruct (I2 h r' d Hin) as (c & Hc & Ht).
      exists (r', c). cbn. split; [by rewrite Ht|].
      apply list_elem_of_filter. cbn. split; [by rewrite Ht|].
      by apply elem_of_map_to_list.
Qed.

(** X8. At every state the server goes through, the third figure of
    [/metrics], the number of rooms holding a cleanup timer, is the number
    of timeouts pending in the event loop: each waiting room has exactly
    one timeout and each timeout one room.  It never exceeds
    [rooms_active]. *)
Theorem metrics_count_pending_timers (st : State) :
  reachable env st →
  rooms_waiting_cleanup st = size (timers st)
  ∧ (rooms_waiting_cleanup st ≤ rooms_active st)%nat
  ∧ metrics st
    = "rooms_active " +:+ pretty (size (rooms st)) +:+ newline
      +:+ "rooms_total_created " +:+ pretty (creations_logged st) +:+ newline
      +:+ "rooms_waiting_cleanup " +:+ pretty (size (timers st)) +:+ newline.
Proof.
  intros Hreach.
  pose proof (waiting_rooms_pending_timers st (reachable_inv env st Hreach))
    as Hwait.
  split; [done|]. split.
  - unfold rooms_waiting_cleanup, rooms_active.
    etrans; [apply length_filter|].
    by rewrite length_fmap, length_map_to_list.
  - unfold metrics. rewrite Hwait.
    assert (creations_logged st = totalRoomsCreated st) as ->; [|done].
    clear Hwait. induction Hreach as [|st ev Hreach IH]; [done|].
    by apply counters_step.
Qed.


Lemma cleanupRoom_state_yDocs roomId st :
  yDocs (cleanupRoom_state env roomId st)
  = match rooms st !! roomId with
    | Some _ => delete roomId (yDocs st)
    | None => yDocs st
    end.
Proof.
  unfold cleanupRoom_state.
  destruct (rooms st !! roomId) as [context|] eqn:Hroom.
  - by destruct (cleanupRoom_present env roomId st context Hroom)
      as (st' & -> & _ & Hdocs & _).
  - by rewrite (cleanupRoom_absent env roomId st Hroom).
Qed.

Lemma cleanup_each_spec keys st :
  (∀ r, rooms (cleanup_each env keys st) !! r
        = if decide (r ∈ keys) then None else rooms st !! r)
  ∧ (∀ r, yDocs st !! r = None → yDocs (cleanup_each env keys st) !! r = None)
  ∧ (∀ r, r ∈ keys → is_Some (rooms st !! r) →
          yDocs (cleanup_each env keys st) !! r = None)
  ∧ timers (cleanup_each env keys st) = timers st.
Proof.
  revert st. induction keys as [|k keys IH]; intros st.
  - unfold cleanup_each. cbn [foldl]. repeat split; try done.
    intros r. by destruct (decide (r ∈ [])) as [?%elem_of_nil|].
  - cbn [cleanup_each foldl]. fold (cleanup_each env keys (cleanupRoom_state env k st)).
    destruct (IH (cleanupRoom_state env k st)) as (Hrooms & Hkeep & Hdocs & Htimers).
    assert (∀ r, yDocs st !! r = None →
                 yDocs (cleanupRoom_state env k st) !! r = None) as Hfirst.
    { intros r Hr. rewrite cleanupRoom_state_yDocs.
      destruct (rooms st !! k); [|done].
      destruct (decide (r = k)) as [->|Hne];
        [apply lookup_delete_eq|by rewrite lookup_delete_ne]. }
    split; [|split; [|split]].
    + intros r. rewrite Hrooms, cleanupRoom_state_rooms.
      destruct (decide (r = k)) as [->|Hne].
      * rewrite lookup_delete_eq, (decide_True (P := k ∈ k :: keys)) by set_solver.
        by destruct (decide (k ∈ keys)).
      * rewrite lookup_delete_ne by done.
        destruct (decide (r ∈ keys)).
        -- by rewrite decide_True by set_solver.
        -- by rewrite decide_False by set_solver.
    + intros r Hr. by apply Hkeep, Hfirst.
    + intros r Hin [c Hc]. destruct (decide (r = k)) as [->|Hne].
      * apply Hkeep. rewrite cleanupRoom_state_yDocs, Hc. apply lookup_delete_eq.
      * apply Hdocs; [set_solver|].
        rewrite cleanupRoom_state_rooms, lookup_delete_ne by done. by eexists.
    + rewrite Htimers. apply cleanupRoom_state_timers.
Qed.

(** X9. The registry work of [shutdown] destroys every room: afterwards
    the registry is empty and no room of it keeps a document in [yDocs],
    whatever the teardown calls throw and in whatever order the map is
    walked.  It cancels no timeout; a timeout that fires later finds no
    room and changes nothing. *)
Theorem shutdown_destroys_every_room (st : State) :
  rooms (shutdown env st) = ∅
  ∧ (∀ roomId, is_Some (rooms st !! roomId) →
       yDocs (shutdown env st) !! roomId = None)
  ∧ timers (shutdown env st) = timers st
  ∧ (∀ h, rooms (fire env h (shutdown env st)) = ∅)
  ∧ (∀ keys, (∀ roomId, is_Some (rooms st !! roomId) → roomId ∈ keys) →
       rooms (cleanup_each env keys st) = ∅).
Proof.
  assert (∀ keys, (∀ roomId, is_Some (rooms st !! roomId) → roomId ∈ keys) →
            rooms (cleanup_each env keys st) = ∅) as Hall.
  { intros keys Hcover. apply map_eq. intros r.
    destruct (cleanup_each_spec keys st) as (-> & _).
    rewrite lookup_empty. destruct (decide (r ∈ keys)) as [|Hnot]; [done|].
    apply eq_None_not_Some. intros Hsome. by apply Hnot, Hcover. }
  assert (∀ roomId, is_Some (rooms st !! roomId) →
            roomId ∈ (map_to_list (rooms st)).*1) as Hkeys.
  { intros r [c Hc]. apply list_elem_of_fmap. exists (r, c).
    split; [done|]. by apply elem_of_map_to_list. }
  assert (rooms (shutdown env st) = ∅) as Hempty by (by apply Hall).
  split; [done|]. split; [|split; [|split]].
  - intros r Hr. unfold shutdown.
    destruct (cleanup_each_spec (map_to_list (rooms st)).*1 st)
      as (_ & _ & Hdocs & _).
    by apply Hdocs; [apply Hkeys|].
  - unfold shutdown. apply cleanup_each_spec.
  - intros h. unfold fire.
    destruct (timers (shutdown env st) !! h) as [[r d]|]; [|done].
    rewrite cleanupRoom_state_rooms. cbn. rewrite Hempty. apply delete_empty.
  - done.
Qed.

End Events.


(** A request for another room creates it next to [abc123], whose
    context stays what it was. *)
Lemma events_are_local_to_their_room_witness :
  let ev := EvUpgrade (request "bravo-2" None "10.0.0.9") 2 9000 in
  event_room one_connection ev ≠ Some "abc123"
  ∧ is_Some (rooms (step sample_env ev one_connection) !! "bravo-2")
  ∧ rooms (step sample_env ev one_connection) !! "abc123"
    = rooms one_connection !! "abc123".
Proof.
  assert (event_room one_connection
            (EvUpgrade (request "bravo-2" None "10.0.0.9") 2 9000)
          ≠ Some "abc123") as Hother by (vm_compute; discriminate).
  split; [exact Hother|]. split; [vm_compute; eexists; reflexivity|].
  exact (events_are_local_to_their_room sample_env one_connection _ "abc123" Hother).
Defined.

Lemma connected_room_survives_witness :
  ∃ context,
    rooms one_connection !! "abc123" = Some context
    ∧ connections context ≠ ∅
    ∧ rooms (fire sample_env 0 one_connection) !! "abc123" = Some context.
Proof.
  eexists. split; [vm_compute; reflexivity|].
  assert ({[1%nat]} ≠ (∅ : gset nat)) as Hconn by (vm_compute; discriminate).
  split; [exact Hconn|].
  exact (proj2 (connected_room_survives sample_env one_connection "abc123" _
                  reachable_one_connection eq_refl Hconn) 0%nat).
Defined.

(** The guarded room keeps its secret when a connection supplying it is
    attached. *)
Lemma room_identity_is_stable_witness :
  let ev := EvUpgrade (request "abc123" (Some long_secret) "10.0.0.2") 2 7000 in
  ∃ context context',
    rooms guarded_room !! "abc123" = Some context
    ∧ rooms (step sample_env ev guarded_room) !! "abc123" = Some context'
    ∧ doc context' = doc context
    ∧ createdAt context' = createdAt context
    ∧ passcode context' = Some long_secret.
Proof.
  eexists.
  destruct (room_identity_is_stable sample_env guarded_room
              (EvUpgrade (request "abc123" (Some long_secret) "10.0.0.2") 2 7000)
              "abc123" _ reachable_guarded_room eq_refl)
    as [[Hgone _]|(context' & Hroom & Hdoc & _ & Hcreated & Hsecret)].
  - vm_compute in Hgone. discriminate Hgone.
  - exists context'. split; [vm_compute; reflexivity|].
    split; [exact Hroom|]. split; [exact Hdoc|]. split; [exact Hcreated|].
    by apply Hsecret.
Defined.

Lemma eviction_is_due_after_last_activity_witness :
  ∃ context,
    timers waiting_eviction !! 0%nat = Some ("abc123", 3606000%Z)
    ∧ rooms waiting_eviction !! "abc123" = Some context
    ∧ connections context = ∅
    ∧ lastActive context = 6000%Z.
Proof.
  destruct (eviction_is_due_after_last_activity sample_env waiting_eviction
              0 "abc123" 3606000 reachable_waiting_eviction eq_refl)
    as (context & Hroom & Hconn & _ & Hdue & _).
  exists context. split; [reflexivity|]. split; [exact Hroom|].
  split; [exact Hconn|]. cbn in Hdue. lia.
Defined.

Lemma created_counter_counts_creations_witness :
  creations_logged waiting_eviction = 1%nat
  ∧ totalRoomsCreated waiting_eviction = 1%nat
  ∧ (rooms_active waiting_eviction ≤ 1)%nat.
Proof.
  destruct (created_counter_counts_creations sample_env waiting_eviction
              reachable_waiting_eviction) as (Hlogged & Hactive & _).
  split; [reflexivity|]. split; [reflexivity|]. exact Hactive.
Defined.

(** Two requests of [10.0.0.1], one served and one refused, leave the
    timestamp of [10.0.0.7] alone. *)
Lemma other_origins_do_not_throttle_witness :
  let reqs := [(request "bravo-2" None "10.0.0.1", 2%nat, 9000%Z);
               (request "delta-3" None "10.0.0.1", 3%nat, 9500%Z)] in
  fst (attempts sample_env reqs one_connection) = [Attached; rate_limited]
  ∧ last_creation (snd (attempts sample_env reqs one_connection)) "10.0.0.7"
    = last_creation one_connection "10.0.0.7".
Proof.
  split; [reflexivity|].
  apply (other_origins_do_not_throttle sample_env
           [(request "bravo-2" None "10.0.0.1", 2%nat, 9000%Z);
            (request "delta-3" None "10.0.0.1", 3%nat, 9500%Z)]
           one_connection "10.0.0.7" 0).
  repeat constructor; vm_compute; discriminate.
Defined.

Lemma metrics_count_pending_timers_witness :
  metrics waiting_eviction
  = "rooms_active 1" +:+ newline +:+ "rooms_total_created 1" +:+ newline
    +:+ "rooms_waiting_cleanup 1" +:+ newline
  ∧ rooms_waiting_cleanup waiting_eviction = size (timers waiting_eviction).
Proof.
  split; [reflexivity|].
  apply (metrics_count_pending_timers sample_env waiting_eviction
           reachable_waiting_eviction).
Defined.

End RegistryTheory.

Module RoutingTheory.
Import Server Routing ServerTheory RegistryTheory.

(** The characters of a string. *)
Lemma split_nonempty sep s : split sep s ≠ [].
Proof. destruct s as [|c s]; cbn -[Ascii.eqb]; [done|]. by destruct (Ascii.eqb c sep). Qed.

Lemma split_app sep a b :
  split sep (a +:+ String sep b) = split sep a ++ split sep b.
Proof.
  induction a as [|c a IH].
  - change (EmptyString +:+ String sep b) with (String sep b).
    cbn -[Ascii.eqb]. by rewrite Ascii.eqb_refl.
  - change (String c a +:+ String sep b) with (String c (a +:+ String sep b)).
    cbn -[Ascii.eqb]. rewrite IH.
    destruct (Ascii.eqb c sep); [done|].
    destruct (split sep a) as [|part parts] eqn:Hsplit; [|done].
    by destruct (split_nonempty sep a).
Qed.

Lemma split_free sep s :
  sep ∉ list_ascii_of_string s → split sep s = [s].
Proof.
  induction s as [|c s IH]; cbn -[Ascii.eqb]; [done|]. intros Hfree.
  rewrite IH by set_solver.
  destruct (Ascii.eqb_spec c sep) as [->|]; [set_solver|done].
Qed.

Lemma split_parts_free sep s part :
  part ∈ split sep s → sep ∉ list_ascii_of_string part.
Proof.
  revert part. induction s as [|c s IH]; cbn -[Ascii.eqb]; intros part Hin.
  - apply list_elem_of_singleton in Hin as ->. cbn. set_solver.
  - destruct (Ascii.eqb_spec c sep) as [->|Hne].
    + apply elem_of_cons in Hin as [->|Hin]; [cbn; set_solver|by apply IH].
    + destruct (split sep s) as [|first parts] eqn:Hsplit;
        [by destruct (split_nonempty sep s)|].
      cbn in Hin. apply elem_of_cons in Hin as [->|Hin].
      * cbn. specialize (IH first). set_solver.
      * apply IH. set_solver.
Qed.

Lemma every_prefix (ws ps : list string) index :
  every (λ segment i, bool_decide (ps !! i = Some segment)) ws index = true
  ↔ ws `prefix_of` drop index ps.
Proof.
  revert index. induction ws as [|w ws IH]; intros index; cbn.
  - split; [intros _; apply prefix_nil|done].
  - rewrite andb_true_iff, bool_decide_eq_true, IH. split.
    + intros [Hw Hrest]. rewrite (drop_S _ _ _ Hw). by apply prefix_cons.
    + intros [k Hk].
      assert (ps !! index = Some w) as Hw.
      { rewrite <- (Nat.add_0_r index), <- lookup_drop, Hk. done. }
      split; [done|]. rewrite (drop_S _ _ _ Hw) in Hk.
      exists k. by inversion Hk.
Qed.

Lemma segments_joined a b :
  segments (a +:+ String "/" b) = segments a ++ segments b.
Proof. unfold segments, filter_Boolean. by rewrite split_app, List.filter_app. Qed.

Lemma segments_single a :
  a ≠ EmptyString → "/"%char ∉ list_ascii_of_string a → segments a = [a].
Proof.
  intros Hne Hfree. unfold segments, filter_Boolean.
  rewrite split_free by done. cbn. by destruct a.
Qed.

Lemma segments_elem a segment :
  segment ∈ segments a →
  segment ≠ EmptyString ∧ "/"%char ∉ list_ascii_of_string segment.
Proof.
  unfold segments, filter_Boolean. intros Hin.
  apply list_elem_of_In, List.filter_In in Hin as [Hin Htruthy]. split.
  - by intros ->.
  - by apply (split_parts_free _ a), list_elem_of_In.
Qed.

Lemma segments_slash path : segments (String "/" path) = segments path.
Proof. done. Qed.

Lemma normalizePath_segments path : segments (normalizePath path) = segments path.
Proof. unfold normalizePath. by destruct (String.prefix "/" path). Qed.

(** X10. The path of a request matches the configured WebSocket path
    exactly when the segments of the latter are a prefix of its own: a
    request too short for a segment compares [undefined] with it and
    fails. *)
Theorem pathMatches_is_prefix (wsPathSegments pathSegments : list string) :
  pathMatches wsPathSegments pathSegments = true
  ↔ wsPathSegments `prefix_of` pathSegments.
Proof. unfold pathMatches. by rewrite every_prefix, drop_0. Qed.

(** X11. The segments of a path are its maximal slash-free non-empty
    parts: a path made of two paths joined by a slash has the segments of
    the one followed by those of the other, a non-empty slash-free string
    is its own single segment, the empty string has none.  So doubled,
    leading and trailing slashes never make or change a segment, and no
    segment is empty or holds a slash. *)
Theorem segments_of_joined_paths (a b : string) :
  segments (a +:+ "/" +:+ b) = segments a ++ segments b
  ∧ segments EmptyString = []
  ∧ (a ≠ EmptyString → "/"%char ∉ list_ascii_of_string a → segments a = [a])
  ∧ (∀ segment, segment ∈ segments a →
       segment ≠ EmptyString ∧ "/"%char ∉ list_ascii_of_string segment).
Proof.
  split; [|split; [|split]].
  - apply segments_joined.
  - done.
  - apply segments_single.
  - apply segments_elem.
Qed.

(** X12. [normalizePath] only ever adds one leading slash: its result
    starts with a slash, normalising twice is normalising once, and the
    segments of the path, which is all the handler uses of [WS_PATH], are
    those of the path as it was configured. *)
Theorem normalizePath_keeps_segments (path : string) :
  String.prefix "/" (normalizePath path) = true
  ∧ normalizePath (normalizePath path) = normalizePath path
  ∧ segments (normalizePath path) = segments path.
Proof.
  assert (String.prefix "/" (normalizePath path) = true) as Hslash.
  { unfold normalizePath. destruct (String.prefix "/" path) eqn:Hp; [done|].
    change ("/" +:+ path) with (String "/" path). cbn. by destruct path. }
  split; [done|]. split; [|apply normalizePath_segments].
  unfold normalizePath at 1. by rewrite Hslash.
Qed.

Lemma trimStart_split s :
  ∃ before, s = before +:+ trimStart s ∧ all_white before = true.
Proof.
  induction s as [|c s (before & Hs & Hwhite)]; [by exists EmptyString|].
  cbn. destruct (white_space c) eqn:Hc; [|by exists EmptyString].
  exists (String c before). split.
  - change (String c before +:+ trimStart s) with (String c (before +:+ trimStart s)).
    by rewrite <- Hs.
  - unfold all_white. cbn. by rewrite Hc.
Qed.

Lemma trimEnd_split s :
  ∃ after, s = trimEnd s +:+ after ∧ all_white after = true.
Proof.
  induction s as [|c s (after & Hs & Hwhite)]; [by exists EmptyString|].
  cbn. destruct (trimEnd s) as [|d r] eqn:Hend.
  - change (EmptyString +:+ after) with after in Hs. subst after.
    destruct (white_space c) eqn:Hc.
    + exists (String c s). split; [done|]. unfold all_white. cbn. by rewrite Hc.
    + by exists s.
  - exists after. split; [|done].
    change (String c (String d r) +:+ after)
      with (String c (String d r +:+ after)).
    by rewrite <- Hs.
Qed.

Lemma trimEnd_cons c t :
  white_space c = false → trimEnd (String c t) = String c (trimEnd t).
Proof. intros Hc. cbn. rewrite Hc. by destruct (trimEnd t). Qed.

Lemma trimEnd_idem s : trimEnd (trimEnd s) = trimEnd s.
Proof.
  induction s as [|c s IH]; [done|]. cbn.
  destruct (trimEnd s) as [|d r] eqn:Hend.
  - destruct (white_space c) eqn:Hc; [done|]. cbn. by rewrite Hc.
  - cbn [trimEnd] in *. by rewrite IH.
Qed.

Lemma trim_head s :
  trim s = EmptyString
  ∨ ∃ c t, trimStart s = String c t ∧ white_space c = false
           ∧ trim s = String c (trimEnd t).
Proof.
  unfold trim. induction s as [|c s IH]; [by left|]. cbn [trimStart].
  destruct (white_space c) eqn:Hc; [done|].
  right. exists c, s. by rewrite trimEnd_cons.
Qed.

Lemma room_char_not_white c : room_char c = true → white_space c = false.
Proof.
  destruct c as [[] [] [] [] [] [] [] []]; vm_compute; congruence.
Qed.

Lemma trim_no_white s :
  forallb (λ c, negb (white_space c)) (list_ascii_of_string s) = true →
  trim s = s.
Proof.
  intros Hall. assert (trimEnd s = s) as Hend.
  { induction s as [|c s IH]; [done|]. cbn in Hall.
    apply andb_true_iff in Hall as [Hc Hall].
    rewrite trimEnd_cons by (by destruct (white_space c)).
    by rewrite IH. }
  unfold trim. destruct s as [|c s]; [done|]. cbn [trimStart].
  cbn in Hall. apply andb_true_iff in Hall as [Hc _].
  destruct (white_space c); [done|]. exact Hend.
Qed.

(** X16. [trim] removes white space at the two ends and nothing else:
    the string is its trimmed form between two runs of white space, the
    trimmed form has nothing left to strip at either end, and trimming
    twice is trimming once.  An id that passes the room-id check holds no
    white space, so trimming leaves it as it is: the ids that reach the
    registry are already in trimmed form. *)
Theorem trim_strips_both_ends_only (s : string) :
  (∃ before after,
     s = before +:+ trim s +:+ after
     ∧ all_white before = true ∧ all_white after = true)
  ∧ trimStart (trim s) = trim s
  ∧ trimEnd (trim s) = trim s
  ∧ trim (trim s) = trim s
  ∧ (valid_room_id s = true → trim s = s).
Proof.
  assert (trimStart (trim s) = trim s) as Hstart.
  { destruct (trim_head s) as [->|(c & t & _ & Hc & ->)]; [done|].
    cbn. by rewrite Hc. }
  assert (trimEnd (trim s) = trim s) as Hend by apply trimEnd_idem.
  split; [|split; [done|split; [done|split]]].
  - destruct (trimStart_split s) as (before & Hs & Hbefore).
    destruct (trimEnd_split (trimStart s)) as (after & Ht & Hafter).
    exists before, after. split; [|done]. unfold trim. by rewrite <- Ht.
  - unfold trim at 1. by rewrite Hstart.
  - unfold valid_room_id. intros Hvalid.
    apply andb_true_iff in Hvalid as [Hvalid _].
    apply andb_true_iff in Hvalid as [Hchars _].
    apply trim_no_white.
    apply forallb_forall. intros c Hin.
    rewrite (room_char_not_white c); [done|].
    by apply (proj1 (forallb_forall _ _) Hchars).
Qed.

Section Handler.

Variable env : Env.
Variable WS_PATH : string.
Variable decodeURIComponent : string → Outcome string.

(** X13. Once the host header and the URL are read, the handler looks at
    the segments of the path only: it answers 404 unless those of
    [WS_PATH] are a prefix of them, 400 [Room Required] when nothing
    follows that prefix, and otherwise takes the very next segment as the
    room, decoded and trimmed.  Whatever follows the room segment plays no
    part, and an exception of [decodeURIComponent] is not caught. *)
Theorem route_reads_the_segment_after_the_prefix
    (inc : Incoming) (requestUrl : Url) :
  truthy (headers_host inc) = true →
  url inc = Some requestUrl →
  (¬ segments WS_PATH `prefix_of` segments (pathname requestUrl) →
     route WS_PATH decodeURIComponent inc = Abort 404 "Not Found" None)
  ∧ (segments (pathname requestUrl) = segments WS_PATH →
     route WS_PATH decodeURIComponent inc = Abort 400 "Room Required" None)
  ∧ (∀ roomSegment rest,
       segments (pathname requestUrl) = segments WS_PATH ++ roomSegment :: rest →
       route WS_PATH decodeURIComponent inc
       = match decodeURIComponent roomSegment with
         | Threw err => Uncaught err
         | Returned decoded =>
             Proceed {| req_roomId := trim decoded;
                        req_k := search_k requestUrl;
                        req_mode := search_mode requestUrl;
                        req_ip := extractIp (x_forwarded_for inc)
                                    (remoteAddress inc) |}
         end).
Proof.
  intros Hhost Hurl. unfold route, wsPathSegments, normalizedWsPath.
  rewrite Hhost, Hurl, normalizePath_segments. cbn [negb].
  split; [|split].
  - intros Hnot.
    destruct (pathMatches (segments WS_PATH) (segments (pathname requestUrl)))
      eqn:Hm; [|done].
    by apply every_prefix in Hm; rewrite drop_0 in Hm.
  - intros ->.
    assert (pathMatches (segments WS_PATH) (segments WS_PATH) = true) as ->
      by (by apply every_prefix; rewrite drop_0).
    cbn [negb]. by rewrite lookup_ge_None_2.
  - intros roomSegment rest Hsegments.
    assert (pathMatches (segments WS_PATH) (segments (pathname requestUrl)) = true)
      as -> by (apply every_prefix; rewrite drop_0, Hsegments; by eexists).
    cbn [negb].
    assert (roomSegment ≠ EmptyString) as Hne.
    { apply (segments_elem (pathname requestUrl)). rewrite Hsegments. set_solver. }
    rewrite Hsegments, lookup_app_r, Nat.sub_diag by done. cbn.
    by destruct roomSegment.
Qed.



(** X15. The origin that the creation throttle sees is the first entry of
    [x-forwarded-for] whenever that header is a non-empty string: the text
    before its first comma, trimmed, whatever the address of the socket.
    The socket's address, or [unknown] without one, is used only when the
    header is missing or empty. *)
Theorem extractIp_reads_first_forwarded_entry
    (first rest : string) (remoteAddress : option string) :
  ","%char ∉ list_ascii_of_string first →
  extractIp (ForwardedString (first +:+ "," +:+ rest)) remoteAddress = trim first
  ∧ (first ≠ EmptyString →
     extractIp (ForwardedString first) remoteAddress = trim first)
  ∧ extractIp (ForwardedString EmptyString) remoteAddress
    = default "unknown" remoteAddress
  ∧ extractIp NoForwarded remoteAddress = default "unknown" remoteAddress
  ∧ extractIp (ForwardedArray []) remoteAddress = default "unknown" remoteAddress
  ∧ extractIp (ForwardedArray (first :: [rest])) remoteAddress = first.
Proof.
  intros Hfree. split; [|split; [|done]].
  - change ("," +:+ rest) with (String "," rest).
    assert (head (split "," (first +:+ String "," rest)) = Some first) as Hhead.
    { rewrite split_app, split_free by done. done. }
    destruct (first +:+ String "," rest) as [|c s] eqn:Happ.
    + by destruct first.
    + unfold extractIp. by rewrite Hhead.
  - intros Hne. destruct first as [|c s]; [done|].
    unfold extractIp. by rewrite split_free.
Qed.
End Handler.

(** The configured path is [/ws]; the request has doubled slashes and a
    segment after the room, which is written with white space around it. *)
Lemma route_reads_the_segment_after_the_prefix_witness :
  route "/ws" sample_decode (incoming "//ws///%20abc123%20/extra/" NoForwarded)
  = Proceed (request "abc123" None "10.0.0.1").
Proof.
  pose proof (route_reads_the_segment_after_the_prefix "/ws" sample_decode
                (incoming "//ws///%20abc123%20/extra/" NoForwarded) _
                eq_refl eq_refl) as (_ & _ & Hroom).
  exact (Hroom "%20abc123%20" ["extra"] eq_refl).
Defined.


(** Two entries in the header: the throttle sees the first, not the
    socket's address. *)
Lemma extractIp_reads_first_forwarded_entry_witness :
  extractIp (ForwardedString " 203.0.113.7 , 10.0.0.1") (Some "10.0.0.1")
  = "203.0.113.7".
Proof.
  assert (","%char ∉ list_ascii_of_string " 203.0.113.7 ") as Hfree
    by (vm_compute; set_solver).
  exact (proj1 (extractIp_reads_first_forwarded_entry " 203.0.113.7 " " 10.0.0.1"
                  (Some "10.0.0.1") Hfree)).
Defined.

End RoutingTheory.

Module PageTheory.
Import Client Page ArrayTheory ReconcilerTheory.

Section Throttle.

Context {A : Type}.
Variable wait : Z.
Hypothesis wait_nonneg : (0 ≤ wait)%Z.

Lemma spaced_snoc (times : list Z) (time : Z) :
  spaced wait times →
  (∀ earlier, earlier ∈ times → wait ≤ time - earlier)%Z →
  spaced wait (times ++ [time]).
Proof using wait_nonneg.
  induction times as [|t1 [|t2 rest] IH]; intros Hspaced Hgap; [done|..].
  - cbn. split; [|done]. apply Hgap. set_solver.
  - destruct Hspaced as [H12 Hrest]. split; [done|].
    apply IH; [done|]. intros earlier Hin. apply Hgap. set_solver.
Qed.

Lemma throttle_inv_tick (t : Throttle A) (latest : option (Z * A)) (ev : Tick A) :
  throttle_inv wait t latest → timely t ev →
  throttle_inv wait (tick wait t ev)
    match ev with
    | Call now args => Some (now, args)
    | Expire _ => latest
    end.
Proof using wait_nonneg.
  intros (Hspaced & Hlast & Hdue & Hlatest) Htimely.
  destruct ev as [now args|now]; cbn [tick].
  - unfold throttled, throttle_inv.
    case_bool_decide as Hnow; cbn [calls last timeout trailing].
    + rewrite fmap_app. cbn. split; [|split; [|split]].
      * apply spaced_snoc; [done|]. intros earlier Hin.
        specialize (Hlast earlier Hin). lia.
      * intros time [Hin|Hin%list_elem_of_singleton]%elem_of_app; [|lia].
        specialize (Hlast time Hin). lia.
      * done.
      * exists now. by rewrite last_snoc.
    + split; [done|]. split; [done|]. split.
      * intros due. destruct (timeout t) as [due'|] eqn:Ht.
        -- intros [= <-]. by apply Hdue.
        -- intros [= <-]. lia.
      * destruct (timeout t) as [due'|] eqn:Ht.
        -- split; [done|]. rewrite (Hdue due' eq_refl). lia.
        -- split; [done|]. lia.
  - destruct Htimely as (due & Ht & Hle). unfold expire, throttle_inv.
    rewrite Ht. cbn [calls last timeout trailing].
    rewrite (Hdue due Ht) in Hle.
    assert (∀ time, time ∈ (calls t).*1 → wait ≤ now - time)%Z as Hgap.
    { intros time Hin. specialize (Hlast time Hin). lia. }
    split; [|split; [|split]].
    + destruct (trailing t); [|by rewrite app_nil_r].
      rewrite fmap_app. cbn. by apply spaced_snoc.
    + intros time Hin. destruct (trailing t).
      * rewrite fmap_app in Hin.
        apply elem_of_app in Hin as [Hin|Hin%list_elem_of_singleton]; [|cbn in Hin; lia].
        specialize (Hgap time Hin). lia.
      * rewrite app_nil_r in Hin. specialize (Hgap time Hin). lia.
    + done.
    + destruct latest as [[now' args]|]; [|done].
      rewrite Ht in Hlatest. destruct Hlatest as [-> Hnow'].
      exists now. rewrite last_snoc. split; [done|].
      rewrite (Hdue due Ht) in Hnow'. lia.
Qed.

Lemma last_call_snoc (evs : list (Tick A)) ev :
  last_call (evs ++ [ev])
  = match ev with
    | Call now args => Some (now, args)
    | Expire _ => last_call evs
    end.
Proof using wait_nonneg. unfold last_call. rewrite foldl_snoc. by destruct ev. Qed.

Lemma timely_run_snoc (evs : list (Tick A)) ev t :
  timely_run wait (evs ++ [ev]) t
  ↔ timely_run wait evs t ∧ timely (ticks wait evs t) ev.
Proof using wait_nonneg.
  revert t. induction evs as [|ev' evs IH]; intros t; cbn.
  - tauto.
  - rewrite IH. tauto.
Qed.

Lemma throttle_inv_run (evs : list (Tick A)) :
  timely_run wait evs throttle →
  throttle_inv wait (ticks wait evs throttle) (last_call evs).
Proof using wait_nonneg.
  induction evs as [|ev evs IH] using rev_ind; intros Hrun.
  - cbn. repeat split; try done. intros time Hin. by apply elem_of_nil in Hin.
  - apply timely_run_snoc in Hrun as [Hrun Hev].
    unfold ticks. rewrite foldl_snoc, last_call_snoc.
    by apply throttle_inv_tick; [apply IH|].
Qed.

(** X17. A throttled function runs at most once per [wait] milliseconds:
    whatever the sequence of calls and of timeouts firing when due, two
    successive runs of the wrapped function are at least [wait] apart. *)
Theorem throttle_spaces_the_calls (evs : list (Tick A)) :
  timely_run wait evs throttle →
  spaced wait (fst <$> calls (ticks wait evs throttle)).
Proof using wait_nonneg. intros Hrun. by apply throttle_inv_run. Qed.

(** X18. A throttled function loses no final call: once no timeout is
    pending, the wrapped function has last run with the arguments of the
    most recent call, at or after the time of that call; while a timeout
    is pending those arguments wait in [trailing], and the timeout is due
    exactly [wait] after the previous run. *)
Theorem throttle_delivers_the_latest_call
    (evs : list (Tick A)) (now : Z) (args : A) :
  timely_run wait evs throttle →
  last_call evs = Some (now, args) →
  let t := ticks wait evs throttle in
  match timeout t with
  | None => ∃ time, list.last (calls t) = Some (time, args) ∧ (now ≤ time)%Z
  | Some due => trailing t = Some args ∧ (now ≤ due)%Z
                ∧ due = (last t + wait)%Z
  end.
Proof using wait_nonneg.
  intros Hrun Hlatest.
  destruct (throttle_inv_run evs Hrun) as (_ & _ & Hdue & Hinv).
  rewrite Hlatest in Hinv. cbn zeta.
  destruct (timeout (ticks wait evs throttle)) as [due|] eqn:Ht; [|done].
  destruct Hinv. split; [done|]. split; [done|]. by apply Hdue.
Qed.

End Throttle.

(** Three edits within 120 ms and the timeout that follows: the handler
    runs for the first and, when the timeout fires, for the third. *)
Lemma throttle_spaces_the_calls_witness :
  let evs := [Call 1000 "a"; Call 1050 "b"; Call 1100 "c"; Expire 1125]%Z in
  calls (ticks 120 evs throttle) = [(1000, "a"); (1125, "c")]%Z
  ∧ spaced 120 (fst <$> calls (ticks 120 evs throttle)).
Proof.
  split; [reflexivity|].
  apply (throttle_spaces_the_calls 120); [lia|].
  cbn. repeat split; try done. exists 1120%Z. split; [reflexivity|lia].
Defined.

Lemma throttle_delivers_the_latest_call_witness :
  let evs := [Call 1000 "a"; Call 1050 "b"; Call 1100 "c"; Expire 1125]%Z in
  ∃ time, list.last (calls (ticks 120 evs throttle)) = Some (time, "c")
          ∧ (1100 ≤ time)%Z.
Proof.
  apply (throttle_delivers_the_latest_call 120 ltac:(lia)
           [Call 1000 "a"; Call 1050 "b"; Call 1100 "c"; Expire 1125]%Z
           1100 "c"); [|reflexivity].
  cbn. repeat split; try done. exists 1120%Z. split; [reflexivity|lia].
Defined.


(** X19. Of the two tests that lead to redo, only [Ctrl+Y] ever decides:
    a key press with [Ctrl] whose key is [z] in either case, [Shift] held
    or not, is taken by the undo test that comes first.  So [Ctrl+Shift+Z]
    undoes, and redo is triggered by [Ctrl+Y] and by nothing else. *)
Theorem ctrl_shift_z_undoes (event : KeyboardEvent) :
  (handleKeyDown event = DoUndo
   ↔ ctrlKey event = true ∧ toLowerCase (key event) = "z")
  ∧ (handleKeyDown event = DoRedo
     ↔ ctrlKey event = true ∧ toLowerCase (key event) = "y")
  ∧ handleKeyDown {| ctrlKey := true; shiftKey := true; key := "Z" |} = DoUndo.
Proof.
  split; [|split; [|done]].
  all: unfold handleKeyDown; cbn zeta.
  all: destruct (ctrlKey event), (shiftKey event),
         (String.eqb_spec (toLowerCase (key event)) "z") as [Hz|Hz],
         (String.eqb_spec (toLowerCase (key event)) "y") as [Hy|Hy];
       cbn [andb orb]; try (rewrite Hz in Hy; discriminate Hy).
  all: (split; [intros H|intros [H1 H2]]); try done; try congruence.
  all: repeat case_match; discriminate.
Qed.

Lemma handleSelect_spec cl conn layer fid :
  connection cl = Some conn → featureId layer = Some fid → fid ≠ EmptyString →
  handleSelect layer cl
  = set_connection (Some (selection_set fid conn))
      (set_localSelectionRef (Some fid) cl).
Proof.
  intros Hconn Hfid Hne. unfold handleSelect. rewrite Hconn, Hfid.
  by destruct fid.
Qed.

Lemma handleUnselect_spec cl conn layer fid :
  connection cl = Some conn → featureId layer = Some fid → fid ≠ EmptyString →
  handleUnselect layer cl
  = if bool_decide (localSelectionRef cl = Some fid)
    then set_connection (Some (selection_delete conn))
           (set_localSelectionRef None cl)
    else cl.
Proof.
  intros Hconn Hfid Hne. unfold handleUnselect. rewrite Hconn, Hfid.
  by destruct fid.
Qed.

(** X20. A client has at most one selection and a stale [pm:unselect]
    does not clear it: after selecting a layer and then another, the
    entry of the client in the selection map is the second feature;
    unselecting the first changes nothing; unselecting the second removes
    the entry.  None of this touches the entries of other clients, the
    feature list or its undo history. *)
Theorem unselect_clears_only_the_current_selection
    (cl : Client) (conn : Connection) (la lb : Layer) (a b : string) :
  connection cl = Some conn →
  featureId la = Some a → featureId lb = Some b →
  a ≠ EmptyString → b ≠ EmptyString → a ≠ b →
  let c1 := handleSelect lb (handleSelect la cl) in
  (∃ conn1,
     connection c1 = Some conn1
     ∧ selectionMap conn1 = <[clientId conn := b]> (selectionMap conn)
     ∧ clientId conn1 = clientId conn)
  ∧ localSelectionRef c1 = Some b
  ∧ doc_view c1 = doc_view cl
  ∧ handleUnselect la c1 = c1
  ∧ (∃ conn2,
       connection (handleUnselect lb c1) = Some conn2
       ∧ selectionMap conn2 = delete (clientId conn) (selectionMap conn))
  ∧ localSelectionRef (handleUnselect lb c1) = None
  ∧ doc_view (handleUnselect lb c1) = doc_view cl.
Proof.
  intros Hconn Ha Hb Hane Hbne Hab. cbn zeta.
  rewrite (handleSelect_spec cl conn la a) by done.
  erewrite (handleSelect_spec _ _ lb b); [|reflexivity|done|done].
  set (c1 := set_connection _ _).
  rewrite (handleUnselect_spec c1 _ la a eq_refl) by done.
  rewrite (handleUnselect_spec c1 _ lb b eq_refl) by done.
  subst c1. cbn [localSelectionRef set_connection set_localSelectionRef].
  rewrite bool_decide_eq_false_2 by congruence.
  rewrite bool_decide_eq_true_2 by done.
  unfold doc_view, feature_transactions. cbn. rewrite Hconn. cbn.
  rewrite !filter_app, !filter_cons_False, !filter_nil, !app_nil_r by done.
  split; [|repeat split; try done].
  - eexists. split; [done|]. cbn. by rewrite insert_insert_eq.
  - eexists. split; [done|]. cbn. by rewrite insert_insert_eq, delete_insert_eq.
Qed.

Lemma unselect_clears_only_the_current_selection_witness :
  let la := {| featureId := Some "a"; layer_feature := Some feature_a;
               shape := CircleMarker (1, 1)%Z |} in
  let lb := {| featureId := Some "b"; layer_feature := Some feature_b;
               shape := CircleMarker (2, 2)%Z |} in
  let c1 := handleSelect lb (handleSelect la (sample_client false)) in
  localSelectionRef c1 = Some "b" ∧ handleUnselect la c1 = c1.
Proof.
  destruct (unselect_clears_only_the_current_selection (sample_client false) _
              {| featureId := Some "a"; layer_feature := Some feature_a;
                 shape := CircleMarker (1, 1)%Z |}
              {| featureId := Some "b"; layer_feature := Some feature_b;
                 shape := CircleMarker (2, 2)%Z |}
              "a" "b" eq_refl eq_refl eq_refl)
    as (_ & Hlocal & _ & Hstale & _); try discriminate.
  by split.
Defined.


(** ** Editing a feature in place *)

Lemma live_pos_spec (del : gset nat) (o : list nat) index :
  let p := live_pos del o index in
  filter (λ i, i ∉ del) (take p o) = take index (filter (λ i, i ∉ del) o)
  ∧ filter (λ i, i ∉ del) (drop p o) = drop index (filter (λ i, i ∉ del) o).
Proof.
  revert index. induction o as [|i o IH]; intros index; cbn zeta.
  - cbn. by rewrite take_nil, drop_nil.
  - destruct (decide (i ∈ del)) as [Hin|Hout].
    + cbn [live_pos]. rewrite decide_True by done. cbn [take drop].
      rewrite !(filter_cons_False _ i) by (by intros ?). apply IH.
    + cbn [live_pos]. rewrite decide_False by done.
      rewrite (filter_cons_True _ i o) by done.
      destruct index as [|k]; cbn [take drop].
      * by rewrite filter_cons_True.
      * rewrite filter_cons_True by done.
        destruct (IH k) as [-> ->]. done.
Qed.

Lemma toJSON_insert index fs arr :
  wf_array arr → (index ≤ length (toJSON arr))%nat →
  toJSON (yarray_insert index fs arr)
  = take index (toJSON arr) ++ fs ++ drop index (toJSON arr).
Proof.
  intros (Hlt & Hdel & Hnd & Hc) Hindex.
  assert (∀ i, i ∈ live_order arr → is_Some (content arr !! i)) as Hdef
    by (intros i Hi; by apply Hc, live_order_subseteq).
  assert (length (toJSON arr) = length (live_order arr)) as Hlen.
  { unfold toJSON. clear Hindex. induction (live_order arr) as [|i l IH]; [done|].
    cbn. destruct (Hdef i) as [f ->]; [set_solver|]. cbn. f_equal.
    apply IH. intros j Hj. apply Hdef. set_solver. }
  unfold yarray_insert. rewrite decide_True by lia.
  unfold toJSON at 1. unfold live_order at 1. cbn [order deleted content].
  destruct (live_pos_spec (deleted arr) (order arr) index) as [Htake Hdrop].
  rewrite !filter_app, Htake, Hdrop.
  rewrite (filter_all _ (seq _ _)).
  - rewrite !omap_app. f_equal; [|f_equal].
    + unfold toJSON. rewrite <- omap_take by done.
      apply omap_ext_in. intros i Hi%subseteq_take.
      apply list_elem_of_filter in Hi as [_ Hi].
      apply insert_items_notin. intros Hs%elem_of_seq.
      specialize (Hlt i Hi). lia.
    + apply omap_insert_items; [apply NoDup_seq|by rewrite length_seq].
    + unfold toJSON. rewrite <- omap_drop by done.
      apply omap_ext_in. intros i Hi%subseteq_drop.
      apply list_elem_of_filter in Hi as [_ Hi].
      apply insert_items_notin. intros Hs%elem_of_seq.
      specialize (Hlt i Hi). lia.
  - intros i Hi%elem_of_seq Hd. specialize (Hlt i (Hdel i Hd)). lia.
Qed.

Lemma findIndex_Some id l index :
  findIndex id l = Some index →
  ∃ old, l !! index = Some old ∧ f_id old = id.
Proof.
  revert index. induction l as [|item l IH]; intros index; cbn; [done|].
  case_bool_decide as Hid.
  - intros [= <-]. by exists item.
  - destruct (findIndex id l) as [k|]; [|done]. intros [= <-].
    by apply IH.
Qed.

Lemma findIndex_None id l : findIndex id l = None → id ∉ f_id <$> l.
Proof.
  induction l as [|item l IH]; cbn; [set_solver|].
  case_bool_decide as Hid; [done|].
  destruct (findIndex id l); [done|]. intros _. set_solver.
Qed.

(** X22. Committing an edited feature replaces it where it stands: the
    feature of the same id, at the first place it has in the list, gives
    way to the new one; the list keeps its length, its order and every
    other feature, so the ids are the same in the same order.  When no
    feature of the list has the id, nothing is committed and the client
    is left as it was. *)
Theorem commitFeatureUpdate_replaces_in_place
    (cl : Client) (conn : Connection) (feature : Feature) :
  connection cl = Some conn →
  wf_array (features conn) →
  match findIndex (f_id feature) (toJSON (features conn)) with
  | None =>
      (f_id feature ∉ f_id <$> toJSON (features conn))
      ∧ commitFeatureUpdate feature cl = cl
  | Some index =>
      ∃ conn' old,
        connection (commitFeatureUpdate feature cl) = Some conn'
        ∧ toJSON (features conn) !! index = Some old
        ∧ f_id old = f_id feature
        ∧ toJSON (features conn') = <[index := feature]> (toJSON (features conn))
        ∧ f_id <$> toJSON (features conn') = f_id <$> toJSON (features conn)
  end.
Proof.
  intros Hconn Hwf. unfold commitFeatureUpdate. rewrite Hconn.
  destruct (findIndex (f_id feature) (toJSON (features conn))) as [index|] eqn:Hfind.
  - destruct (findIndex_Some _ _ _ Hfind) as (old & Hold & Hid).
    destruct (transact_spec [Delete index 1; Insert index [feature]] cl conn Hconn)
      as (Hview & _).
    apply doc_view_Some in Hview as (conn' & Hconn' & Hfeatures & _).
    exists conn', old. do 3 (split; [done|]).
    assert (toJSON (features conn') = <[index := feature]> (toJSON (features conn)))
      as Hlist.
    { rewrite Hfeatures. cbn.
      pose proof (lookup_lt_Some _ _ _ Hold) as Hlt.
      rewrite toJSON_insert; [|by apply wf_yarray_delete|].
      - rewrite toJSON_delete by done.
        rewrite take_app_le, take_take by (rewrite length_take; lia).
        rewrite Nat.min_id.
        rewrite drop_app_ge by (rewrite length_take; lia).
        rewrite length_take, Nat.min_l, Nat.sub_diag, drop_0 by lia.
        rewrite Nat.add_1_r. symmetry. by apply insert_take_drop.
      - rewrite toJSON_delete by done.
        rewrite length_app, length_take. lia. }
    split; [done|]. rewrite Hlist, list_fmap_insert.
    apply list_insert_id. rewrite list_lookup_fmap, Hold. cbn. by rewrite Hid.
  - split; [by apply findIndex_None|done].
Qed.

(** The second of three points is moved: it stays second. *)
Lemma commitFeatureUpdate_replaces_in_place_witness :
  let cl := receive [Push [feature_a; feature_b; feature_c]] (sample_client false) in
  let moved := {| f_id := "b"; f_geometry := Point (20, 20)%Z;
                  f_kind := point; f_name := None |} in
  ∃ conn', connection (commitFeatureUpdate moved cl) = Some conn'
           ∧ toJSON (features conn') = [feature_a; moved; feature_c].
Proof.
  cbn zeta.
  pose proof (commitFeatureUpdate_replaces_in_place
                (receive [Push [feature_a; feature_b; feature_c]] (sample_client false))
                _ {| f_id := "b"; f_geometry := Point (20, 20)%Z;
                     f_kind := point; f_name := None |} eq_refl) as Hedit.
  destruct Hedit as (conn' & old & Hconn' & _ & _ & Hlist & _).
  - exact (proj1 (apply_ops_wf_extends [Push [feature_a; feature_b; feature_c]]
                    empty_array wf_empty)).
  - exists conn'. split; [exact Hconn'|]. rewrite Hlist. reflexivity.
Defined.


(** ** What the layers show *)



(** ** GPX import *)

Section GpxImport.

Variable nanoid : nat → string.

Lemma supplied_nil n : supplied nanoid n n [].
Proof.
  exists []. split; [done|]. split; [apply NoDup_nil_2|].
  by intros j ?%elem_of_nil.
Qed.

Lemma supplied_app n k k' fs fs' :
  (n ≤ k)%nat → (k ≤ k')%nat →
  supplied nanoid n k fs → supplied nanoid k k' fs' →
  supplied nanoid n k' (fs ++ fs').
Proof.
  intros Hnk Hkk' (ks & Hids & Hnd & Hrange) (ks' & Hids' & Hnd' & Hrange').
  exists (ks ++ ks'). rewrite !fmap_app, Hids, Hids'. split; [done|]. split.
  - apply NoDup_app. split; [done|]. split; [|done].
    intros j Hj Hj'. specialize (Hrange j Hj). specialize (Hrange' j Hj'). lia.
  - intros j [Hj|Hj]%elem_of_app.
    + specialize (Hrange j Hj). lia.
    + specialize (Hrange' j Hj). lia.
Qed.

Lemma supplied_weaken n k k' fs :
  (k ≤ k')%nat → supplied nanoid n k fs → supplied nanoid n k' fs.
Proof.
  intros Hkk' (ks & Hids & Hnd & Hrange). exists ks.
  split; [done|]. split; [done|].
  intros j Hj. specialize (Hrange j Hj). lia.
Qed.

Lemma imap_imported_ids feature (geometry : list (Z * Z) → Geometry) kind m
    (multi : list (list (Z * Z))) :
  f_id <$> imap (λ i coords, imported feature (nanoid (m + i)) (geometry coords) kind)
             multi
  = nanoid <$> seq m (length multi).
Proof.
  revert m. induction multi as [|coords multi IH]; intros m; [done|].
  cbn. rewrite Nat.add_0_r. f_equal. rewrite <- IH. f_equal.
  apply imap_ext. intros i c _. cbn. by rewrite Nat.add_succ_r.
Qed.

Lemma imap_imported_point_ids feature kind m (multi : list (Z * Z)) :
  f_id <$> imap (λ i coord, imported feature (nanoid (m + i)) (Point coord) kind)
             multi
  = nanoid <$> seq m (length multi).
Proof.
  revert m. induction multi as [|coord multi IH]; intros m; [done|].
  cbn. rewrite Nat.add_0_r. f_equal. rewrite <- IH. f_equal.
  apply imap_ext. intros i c _. cbn. by rewrite Nat.add_succ_r.
Qed.

Lemma ensureFeature_supplied feature n :
  (n < snd (ensureFeature nanoid feature n))%nat
  ∧ supplied nanoid n (snd (ensureFeature nanoid feature n))
      (fst (ensureFeature nanoid feature n)).
Proof.
  unfold ensureFeature.
  destruct (g_geometry feature) as [coords|coord|multi|multi|]; cbn [fst snd].
  - split; [lia|]. exists [n]. split; [done|]. split; [apply NoDup_singleton|].
    intros j ->%list_elem_of_singleton. lia.
  - split; [lia|]. exists [n]. split; [done|]. split; [apply NoDup_singleton|].
    intros j ->%list_elem_of_singleton. lia.
  - split; [lia|]. exists (seq (S n) (length multi)).
    split; [apply (imap_imported_ids feature LineString)|].
    split; [apply NoDup_seq|]. intros j Hj%elem_of_seq. lia.
  - split; [lia|]. exists (seq (S n) (length multi)).
    split; [apply imap_imported_point_ids|].
    split; [apply NoDup_seq|]. intros j Hj%elem_of_seq. lia.
  - split; [lia|]. eapply supplied_weaken; [|apply supplied_nil]. lia.
Qed.

Lemma ensureFeatures_supplied features n :
  (n ≤ snd (ensureFeatures nanoid features n))%nat
  ∧ supplied nanoid n (snd (ensureFeatures nanoid features n))
      (fst (ensureFeatures nanoid features n)).
Proof.
  unfold ensureFeatures.
  induction features as [|feature features IH] using rev_ind.
  - cbn. split; [lia|apply supplied_nil].
  - rewrite foldl_snoc.
    destruct (foldl _ ([], n) features) as [fs k]. cbn [fst snd] in IH.
    destruct IH as [Hnk Hfs].
    destruct (ensureFeature_supplied feature k) as [Hk Hnew].
    destruct (ensureFeature nanoid feature k) as [fs' k']. cbn [fst snd] in *.
    split; [lia|]. by apply (supplied_app n k k'); [|lia|..].
Qed.

Lemma import_files_supplied files n :
  (n ≤ ids_used (import_files nanoid files n))%nat
  ∧ supplied nanoid n (ids_used (import_files nanoid files n))
      (importedFeatures (import_files nanoid files n)).
Proof.
  unfold import_files.
  induction files as [|file files IH] using rev_ind.
  - cbn. split; [lia|apply supplied_nil].
  - rewrite foldl_snoc. destruct IH as [Hnk Hfs].
    unfold import_file at 1 3 5.
    destruct (_ <? _)%N; [done|]. destruct (gpx file) as [features|]; [|done].
    pose proof (ensureFeatures_supplied features
                  (ids_used (foldl (import_file nanoid)
                               {| importedFeatures := []; ids_used := n;
                                  errors := [] |} files))) as [Hk Hnew].
    destruct (ensureFeatures nanoid features _) as [fs' k']. cbn [fst snd] in *.
    cbn. split; [lia|]. by eapply supplied_app.
Qed.

Lemma import_fold_ext files acc1 acc2 :
  importedFeatures acc1 = importedFeatures acc2 →
  ids_used acc1 = ids_used acc2 →
  importedFeatures (foldl (import_file nanoid) acc1 files)
  = importedFeatures (foldl (import_file nanoid) acc2 files)
  ∧ ids_used (foldl (import_file nanoid) acc1 files)
    = ids_used (foldl (import_file nanoid) acc2 files).
Proof.
  revert acc1 acc2.
  induction files as [|file files IH]; intros acc1 acc2 Hfs Hk; [done|].
  cbn [foldl]. apply IH.
  - unfold import_file. rewrite Hfs, Hk.
    destruct (_ <? _)%N; [done|]. destruct (gpx file); [|done].
    by destruct (ensureFeatures _ _ _).
  - unfold import_file. rewrite Hk.
    destruct (_ <? _)%N; [done|]. destruct (gpx file); [|done].
    by destruct (ensureFeatures _ _ _).
Qed.

(** A file that is too large or cannot be read adds an error toast and
    nothing else. *)
Lemma import_files_skip before bad after n :
  (MAX_FILE_SIZE < file_size bad)%N ∨ gpx bad = None →
  importedFeatures (import_files nanoid (before ++ bad :: after) n)
  = importedFeatures (import_files nanoid (before ++ after) n)
  ∧ ids_used (import_files nanoid (before ++ bad :: after) n)
    = ids_used (import_files nanoid (before ++ after) n).
Proof.
  intros Hbad. unfold import_files. rewrite !foldl_app. cbn [foldl].
  apply import_fold_ext.
  - unfold import_file. destruct Hbad as [Hbig%N.ltb_lt|Hnone].
    + by rewrite Hbig.
    + rewrite Hnone. by destruct (_ <? _)%N.
  - unfold import_file. destruct Hbad as [Hbig%N.ltb_lt|Hnone].
    + by rewrite Hbig.
    + rewrite Hnone. by destruct (_ <? _)%N.
Qed.

(** X21. Every imported feature gets an id of its own: each is the
    result of a call of [nanoid] made during the import, no two features
    share a call, so the ids are distinct as long as [nanoid] never
    returns the same id twice; a multi-part geometry gives one feature,
    and one id, per part.  A file above 10 MB or one that cannot be read
    is skipped, and the files around it are imported as if it were not
    there. *)
Theorem imported_features_get_distinct_ids (files : list File) (n : nat) :
  Inj (=) (=) nanoid →
  let result := import_files nanoid files n in
  NoDup (f_id <$> importedFeatures result)
  ∧ (∀ f, f ∈ importedFeatures result →
       ∃ k, (n ≤ k < ids_used result)%nat ∧ f_id f = nanoid k)
  ∧ (∀ before bad after,
       files = before ++ bad :: after →
       (MAX_FILE_SIZE < file_size bad)%N ∨ gpx bad = None →
       importedFeatures result
       = importedFeatures (import_files nanoid (before ++ after) n)).
Proof.
  intros Hinj. cbn zeta.
  destruct (import_files_supplied files n) as [_ (ks & Hids & Hnd & Hrange)].
  split; [|split].
  - rewrite Hids. by apply NoDup_fmap_2.
  - intros f Hf.
    assert (f_id f ∈ nanoid <$> ks) as Hin
      by (rewrite <- Hids; by apply list_elem_of_fmap_2).
    apply list_elem_of_fmap in Hin as (k & Hk & Hin). exists k.
    split; [by apply Hrange|done].
  - intros before bad after -> Hbad. by apply import_files_skip.
Qed.


Lemma toasts_keep_connection msgs cl :
  connection (foldl (λ c msg, toast msg c) cl msgs) = connection cl
  ∧ readOnly (foldl (λ c msg, toast msg c) cl msgs) = readOnly cl.
Proof.
  revert cl. induction msgs as [|msg msgs IH]; intros cl; [done|].
  cbn [foldl]. destruct (IH (toast msg cl)) as [-> ->]. done.
Qed.

(** X23. On a connected client that may write, importing files appends
    the imported features to the document in one transaction, after the
    features it holds and in the order of the files; nothing is committed
    when no feature was imported.  The ids of the document stay distinct
    provided [nanoid] returns fresh ids. *)
Theorem import_appends_to_the_document
    (files : list File) (n : nat) (cl : Client) (conn : Connection) :
  connection cl = Some conn →
  readOnly cl = false →
  wf_array (features conn) →
  let result := import_files nanoid files n in
  ∃ conn',
    connection (handleImportFileList nanoid files n cl) = Some conn'
    ∧ toJSON (features conn')
      = toJSON (features conn) ++ importedFeatures result
    ∧ (importedFeatures result = [] → conn' = conn)
    ∧ (Inj (=) (=) nanoid →
       NoDup (f_id <$> toJSON (features conn)) →
       (∀ k, nanoid k ∉ f_id <$> toJSON (features conn)) →
       NoDup (f_id <$> toJSON (features conn'))).
Proof.
  intros Hconn Hro Hwf. cbn zeta.
  unfold handleImportFileList. rewrite Hconn, Hro.
  set (result := import_files nanoid files n).
  set (cl1 := foldl (λ c msg, toast msg c) cl (errors result)).
  destruct (toasts_keep_connection (errors result) cl) as [Hconn1 Hro1].
  fold cl1 in Hconn1, Hro1. rewrite Hconn in Hconn1. rewrite Hro in Hro1.
  assert (∀ conn', toJSON (features conn')
                   = toJSON (features conn) ++ importedFeatures result →
            Inj (=) (=) nanoid →
            NoDup (f_id <$> toJSON (features conn)) →
            (∀ k, nanoid k ∉ f_id <$> toJSON (features conn)) →
            NoDup (f_id <$> toJSON (features conn'))) as Hfresh.
  { intros conn' -> Hinj Hnd Hnew. rewrite fmap_app.
    destruct (import_files_supplied files n) as [_ (ks & Hids & Hks & _)].
    fold result in Hids.
    apply NoDup_app. split; [done|]. split.
    - intros id Hin. rewrite Hids. intros (k & -> & _)%list_elem_of_fmap.
      by apply (Hnew k).
    - rewrite Hids. by apply NoDup_fmap_2. }
  unfold handleImportFiles. rewrite Hconn1, Hro1.
  destruct (importedFeatures result) as [|f fs] eqn:Himported.
  - exists conn. split; [exact Hconn1|]. split; [by rewrite app_nil_r|].
    split; [done|]. apply Hfresh. by rewrite app_nil_r.
  - destruct (transact_spec [Push (f :: fs)] cl1 conn Hconn1) as (Hview & _).
    apply doc_view_Some in Hview as (conn' & Hconn' & Hfeatures & _).
    exists conn'. split; [exact Hconn'|].
    assert (toJSON (features conn') = toJSON (features conn) ++ f :: fs) as Hlist
      by (rewrite Hfeatures; cbn; by apply toJSON_push).
    split; [done|]. split; [done|]. by apply Hfresh.
Qed.

End GpxImport.

Lemma sample_nanoid_inj : Inj (=) (=) sample_nanoid.
Proof.
  intros n m Heq. unfold sample_nanoid in Heq.
  apply (inj (String.app "id-")) in Heq. by apply (inj pretty) in Heq.
Qed.

(** Of three files the first is too large and the last unreadable; the
    track of two parts and the waypoint of the second give three
    features. *)
Lemma imported_features_get_distinct_ids_witness :
  f_id <$> importedFeatures (import_files sample_nanoid sample_files 0)
  = ["id-1"; "id-2"; "id-3"]
  ∧ NoDup (f_id <$> importedFeatures (import_files sample_nanoid sample_files 0)).
Proof.
  split; [reflexivity|].
  apply (imported_features_get_distinct_ids sample_nanoid sample_files 0
           sample_nanoid_inj).
Defined.


(** The client holds a point that a peer drew; the sample files add
    their three features after it. *)
Lemma import_appends_to_the_document_witness :
  ∃ conn',
    connection (handleImportFileList sample_nanoid sample_files 0
                  (receive [Push [feature_a]] (sample_client false))) = Some conn'
    ∧ f_id <$> toJSON (features conn') = ["a"; "id-1"; "id-2"; "id-3"].
Proof.
  destruct (import_appends_to_the_document sample_nanoid sample_files 0
              (receive [Push [feature_a]] (sample_client false)) _
              eq_refl eq_refl
              (proj1 (apply_ops_wf_extends [Push [feature_a]] empty_array wf_empty)))
    as (conn' & Hconn' & Hlist & _).
  exists conn'. split; [exact Hconn'|]. rewrite Hlist. reflexivity.
Defined.



End PageTheory.

Module HomeTheory.
Import Server Routing Page Home RoutingTheory.

Lemma length_append a b :
  String.length (a +:+ b) = (String.length a + String.length b)%nat.
Proof.
  induction a as [|c a IH]; [done|].
  change (String c a +:+ b) with (String c (a +:+ b)). cbn. by rewrite IH.
Qed.

Lemma all_chars_append p a b :
  all_chars p (a +:+ b) = all_chars p a && all_chars p b.
Proof.
  unfold all_chars. induction a as [|c a IH]; [done|].
  change (String c a +:+ b) with (String c (a +:+ b)). cbn.
  by rewrite IH, andb_assoc.
Qed.

Lemma all_chars_impl (p q : ascii → bool) s :
  (∀ c, p c = true → q c = true) → all_chars p s = true → all_chars q s = true.
Proof.
  intros Hpq. unfold all_chars. induction s as [|c s IH]; [done|]. cbn.
  intros [Hc Hs]%andb_true_iff. by rewrite (Hpq c Hc), IH.
Qed.

(** ** Each step of [slugify] *)

Lemma strip_symbols_kept s : all_chars kept (strip_symbols s) = true.
Proof.
  unfold all_chars. induction s as [|c s IH]; [done|]. cbn.
  destruct (kept c) eqn:Hc; [|done]. cbn. by rewrite Hc.
Qed.

Lemma strip_symbols_length s :
  (String.length (strip_symbols s) ≤ String.length s)%nat.
Proof. induction s as [|c s IH]; cbn; [done|]. destruct (kept c); cbn; lia. Qed.

Lemma trimStart_chars p s :
  all_chars p s = true → all_chars p (trimStart s) = true.
Proof.
  unfold all_chars. induction s as [|c s IH]; [done|]. cbn.
  intros [Hc Hs]%andb_true_iff. destruct (white_space c); [by apply IH|].
  cbn. by rewrite Hc.
Qed.

Lemma trimEnd_chars p s :
  all_chars p s = true → all_chars p (trimEnd s) = true.
Proof.
  unfold all_chars. induction s as [|c s IH]; [done|]. cbn.
  intros [Hc Hs]%andb_true_iff. specialize (IH Hs).
  destruct (trimEnd s) as [|d r].
  - destruct (white_space c); [done|]. cbn. by rewrite Hc.
  - cbn in *. by rewrite Hc.
Qed.

Lemma trimStart_length s : (String.length (trimStart s) ≤ String.length s)%nat.
Proof. induction s as [|c s IH]; cbn; [done|]. destruct (white_space c); cbn; lia. Qed.

Lemma trimEnd_length s : (String.length (trimEnd s) ≤ String.length s)%nat.
Proof.
  induction s as [|c s IH]; cbn; [done|].
  destruct (trimEnd s); [destruct (white_space c)|]; cbn in *; lia.
Qed.

Lemma trim_length s : (String.length (trim s) ≤ String.length s)%nat.
Proof.
  unfold trim. etrans; [apply trimEnd_length|apply trimStart_length].
Qed.

Lemma kept_not_separator c :
  kept c = true → separator c = false → slug_source c = true.
Proof.
  destruct c as [[] [] [] [] [] [] [] []]; vm_compute; congruence.
Qed.

Lemma hyphenate_chars in_run s :
  all_chars kept s = true → all_chars slug_source (hyphenate in_run s) = true.
Proof.
  unfold all_chars. revert in_run. induction s as [|c s IH]; intros in_run; [done|].
  cbn. intros [Hc Hs]%andb_true_iff.
  destruct (separator c) eqn:Hsep.
  - destruct in_run; [by apply IH|]. cbn. by apply IH.
  - cbn. rewrite (kept_not_separator c Hc Hsep). by apply IH.
Qed.

Lemma hyphenate_length in_run s :
  (String.length (hyphenate in_run s) ≤ String.length s)%nat.
Proof.
  revert in_run. induction s as [|c s IH]; intros in_run; cbn; [done|].
  destruct (separator c); [destruct in_run|]; cbn.
  - specialize (IH true). lia.
  - specialize (IH true). lia.
  - specialize (IH false). lia.
Qed.

Lemma separator_hyphen c : hyphen c = true → separator c = true.
Proof. destruct c as [[] [] [] [] [] [] [] []]; vm_compute; congruence. Qed.

Lemma hyphenate_single in_run s :
  single_hyphens (hyphenate in_run s) = true
  ∧ (in_run = true → ∀ c, first_char (hyphenate in_run s) = Some c → hyphen c = false).
Proof.
  revert in_run. induction s as [|c s IH]; intros in_run; [done|]. cbn.
  destruct (separator c) eqn:Hsep.
  - destruct (IH true) as [Hsingle Hfirst]. destruct in_run.
    + split; [done|]. intros _. by apply Hfirst.
    + split; [|done]. cbn. rewrite Hsingle, andb_true_r.
      destruct (hyphenate true s) as [|c' r] eqn:Hh; [done|].
      by rewrite (Hfirst eq_refl c' eq_refl).
  - destruct (IH false) as [Hsingle _].
    assert (hyphen c = false) as Hc.
    { destruct (hyphen c) eqn:Hh; [|done]. by rewrite (separator_hyphen c Hh) in Hsep. }
    split.
    + cbn. rewrite Hsingle, andb_true_r, Hc. by destruct (hyphenate false s).
    + intros _ c' [= <-]. done.
Qed.

Lemma strip_leading_chars p s :
  all_chars p s = true → all_chars p (strip_leading_hyphens s) = true.
Proof.
  unfold all_chars. induction s as [|c s IH]; [done|]. cbn.
  intros [Hc Hs]%andb_true_iff. destruct (hyphen c); [by apply IH|].
  cbn. by rewrite Hc.
Qed.

Lemma strip_trailing_chars p s :
  all_chars p s = true → all_chars p (strip_trailing_hyphens s) = true.
Proof.
  unfold all_chars. induction s as [|c s IH]; [done|]. cbn.
  intros [Hc Hs]%andb_true_iff. specialize (IH Hs).
  destruct (strip_trailing_hyphens s) as [|d r].
  - destruct (hyphen c); [done|]. cbn. by rewrite Hc.
  - cbn in *. by rewrite Hc.
Qed.

Lemma strip_leading_length s :
  (String.length (strip_leading_hyphens s) ≤ String.length s)%nat.
Proof. induction s as [|c s IH]; cbn; [done|]. destruct (hyphen c); cbn; lia. Qed.

Lemma strip_trailing_length s :
  (String.length (strip_trailing_hyphens s) ≤ String.length s)%nat.
Proof.
  induction s as [|c s IH]; cbn; [done|].
  destruct (strip_trailing_hyphens s); [destruct (hyphen c)|]; cbn in *; lia.
Qed.

Lemma single_hyphens_tail c s :
  single_hyphens (String c s) = true → single_hyphens s = true.
Proof. cbn. by intros [_ ?]%andb_true_iff. Qed.

Lemma strip_leading_single s :
  single_hyphens s = true → single_hyphens (strip_leading_hyphens s) = true.
Proof.
  induction s as [|c s IH]; [done|]. intros Hs. cbn [strip_leading_hyphens].
  destruct (hyphen c); [|done]. by apply IH, (single_hyphens_tail c).
Qed.

Lemma strip_trailing_first s c :
  first_char s = Some c → hyphen c = false →
  first_char (strip_trailing_hyphens s) = Some c.
Proof.
  destruct s as [|c' s]; [done|]. intros [= ->] Hc. cbn.
  rewrite Hc. by destruct (strip_trailing_hyphens s).
Qed.

Lemma strip_trailing_single s :
  single_hyphens s = true → single_hyphens (strip_trailing_hyphens s) = true.
Proof.
  induction s as [|c s IH]; [done|]. intros Hs.
  pose proof (single_hyphens_tail c s Hs) as Htail. specialize (IH Htail).
  cbn [strip_trailing_hyphens].
  destruct (strip_trailing_hyphens s) as [|d r] eqn:Hstrip.
  - by destruct (hyphen c).
  - change (single_hyphens (String c (String d r)))
      with (negb (hyphen c && hyphen d) && single_hyphens (String d r)).
    rewrite IH, andb_true_r.
    destruct s as [|c' s']; [done|].
    cbn [single_hyphens] in Hs. apply andb_true_iff in Hs as [Hcc' _].
    destruct (hyphen c) eqn:Hc; [|done]. cbn in Hcc'.
    destruct (hyphen c') eqn:Hc'; [done|].
    pose proof (strip_trailing_first (String c' s') c' eq_refl Hc') as Hfirst.
    rewrite Hstrip in Hfirst. cbn in Hfirst. injection Hfirst as ->.
    by rewrite Hc'.
Qed.

Lemma strip_leading_first s c :
  first_char (strip_leading_hyphens s) = Some c → hyphen c = false.
Proof.
  induction s as [|c' s IH]; [done|]. cbn.
  destruct (hyphen c') eqn:Hc'; [done|]. by intros [= <-].
Qed.

Lemma strip_trailing_last s c :
  last_char (strip_trailing_hyphens s) = Some c → hyphen c = false.
Proof.
  induction s as [|c' s IH]; [done|]. cbn [strip_trailing_hyphens].
  destruct (strip_trailing_hyphens s) as [|d r] eqn:Hstrip.
  - destruct (hyphen c') eqn:Hc'; [done|]. by intros [= <-].
  - intros Hlast. by apply IH.
Qed.

Lemma hyphen_lower c : hyphen (lower c) = hyphen c.
Proof. by destruct c as [[] [] [] [] [] [] [] []]. Qed.

Lemma slug_source_lower c : slug_source c = true → slug_char (lower c) = true.
Proof. destruct c as [[] [] [] [] [] [] [] []]; vm_compute; congruence. Qed.

Lemma slug_char_room c : slug_char c = true → room_char c = true.
Proof. destruct c as [[] [] [] [] [] [] [] []]; vm_compute; congruence. Qed.

Lemma toLowerCase_chars s :
  all_chars slug_source s = true → all_chars slug_char (toLowerCase s) = true.
Proof.
  unfold all_chars. induction s as [|c s IH]; [done|]. cbn.
  intros [Hc Hs]%andb_true_iff. by rewrite (slug_source_lower c Hc), IH.
Qed.

Lemma toLowerCase_length s : String.length (toLowerCase s) = String.length s.
Proof. induction s as [|c s IH]; cbn; [done|]. by rewrite IH. Qed.

Lemma toLowerCase_first s : first_char (toLowerCase s) = lower <$> first_char s.
Proof. by destruct s. Qed.

Lemma toLowerCase_last s : last_char (toLowerCase s) = lower <$> last_char s.
Proof.
  induction s as [|c s IH]; [done|]. cbn.
  destruct s as [|c' s']; [done|]. exact IH.
Qed.

Lemma toLowerCase_single s :
  single_hyphens s = true → single_hyphens (toLowerCase s) = true.
Proof.
  induction s as [|c s IH]; [done|]. cbn.
  intros [Hc Hs]%andb_true_iff. rewrite (IH Hs), andb_true_r.
  destruct s as [|c' s']; [done|]. cbn. by rewrite !hyphen_lower.
Qed.


Section Slug.

Variable normalize_NFKD : string → string.

Lemma slugify_chars value :
  all_chars slug_char (slugify normalize_NFKD value) = true.
Proof.
  unfold slugify, strip_hyphens.
  apply toLowerCase_chars, strip_trailing_chars, strip_leading_chars,
    hyphenate_chars, trimEnd_chars, trimStart_chars, strip_symbols_kept.
Qed.

(** X25. Whatever the name, its slug is written in [a-z], [0-9] and
    hyphens only, it neither starts nor ends with a hyphen, and it never
    has two hyphens in a row: every run of white space, underscores and
    hyphens of the name has become one hyphen, and every other symbol is
    gone. *)
Theorem slug_is_lowercase_alphanumeric_with_single_hyphens (value : string) :
  all_chars slug_char (slugify normalize_NFKD value) = true
  ∧ first_char (slugify normalize_NFKD value) ≠ Some "-"%char
  ∧ last_char (slugify normalize_NFKD value) ≠ Some "-"%char
  ∧ single_hyphens (slugify normalize_NFKD value) = true.
Proof.
  unfold slugify, strip_hyphens.
  set (s := hyphenate false (trim (strip_symbols (normalize_NFKD value)))).
  assert (all_chars slug_source s = true) as Hchars.
  { apply hyphenate_chars, trimEnd_chars, trimStart_chars, strip_symbols_kept. }
  assert (single_hyphens s = true) as Hsingle by apply hyphenate_single.
  split; [|split; [|split]].
  - apply slugify_chars.
  - rewrite toLowerCase_first.
    destruct (first_char (strip_trailing_hyphens (strip_leading_hyphens s)))
      as [c|] eqn:Hfirst; [|done].
    cbn. intros [= Hc].
    assert (hyphen c = false) as Hnot.
    { destruct (strip_leading_hyphens s) as [|c' t] eqn:Hlead; [done|].
      pose proof (strip_leading_first s c') as Hc'. rewrite Hlead in Hc'.
      specialize (Hc' eq_refl).
      rewrite (strip_trailing_first (String c' t) c' eq_refl Hc') in Hfirst.
      by injection Hfirst as <-. }
    rewrite <- hyphen_lower, Hc in Hnot. done.
  - rewrite toLowerCase_last.
    destruct (last_char (strip_trailing_hyphens (strip_leading_hyphens s)))
      as [c|] eqn:Hlast; [|done].
    cbn. intros [= Hc].
    pose proof (strip_trailing_last _ _ Hlast) as Hnot.
    rewrite <- hyphen_lower, Hc in Hnot. done.
  - by apply toLowerCase_single, strip_trailing_single, strip_leading_single.
Qed.

Lemma slugify_length value :
  normalize_NFKD value = value →
  (String.length (slugify normalize_NFKD value) ≤ String.length value)%nat.
Proof.
  intros Hid. unfold slugify, strip_hyphens. rewrite Hid, toLowerCase_length.
  etrans; [apply strip_trailing_length|].
  etrans; [apply strip_leading_length|].
  etrans; [apply hyphenate_length|].
  etrans; [apply trim_length|]. apply strip_symbols_length.
Qed.

(** X26. The room id that the home page builds from a session name
    passes the character test of the server, and the length test exactly
    when it has at most 64 characters: the slug, a hyphen and the eight
    characters of the suffix.  A name of at most 55 characters that NFKD
    leaves as it is, as it does ASCII, always gives an id that the server
    accepts; a longer name may give one that it refuses. *)
Theorem room_slug_passes_the_server_check_up_to_64 (name suffix : string) :
  normalize_NFKD (trim name) = trim name →
  String.length suffix = 8%nat →
  all_chars room_char suffix = true →
  let roomId := buildRoomSlug normalize_NFKD name suffix in
  all_chars room_char roomId = true
  ∧ (8 ≤ String.length roomId ≤ String.length name + 9)%nat
  ∧ (valid_room_id roomId = true ↔ (String.length roomId ≤ 64)%nat)
  ∧ ((String.length name ≤ 55)%nat → valid_room_id roomId = true).
Proof.
  intros Hid Hlen Hsuffix. cbn zeta.
  assert (all_chars room_char (buildRoomSlug normalize_NFKD name suffix) = true
          ∧ (8 ≤ String.length (buildRoomSlug normalize_NFKD name suffix)
             ≤ String.length name + 9)%nat) as [Hchars Hbounds].
  { unfold buildRoomSlug. cbn zeta.
    destruct (negb (truthy (Some (trim name)))); [split; [done|lia]|].
    destruct (truthy (Some (slugify normalize_NFKD (trim name))));
      [|split; [done|lia]].
    split.
    - rewrite !all_chars_append, Hsuffix, andb_true_r. cbn.
      apply (all_chars_impl slug_char); [apply slug_char_room|].
      apply slugify_chars.
    - rewrite !length_append, Hlen. cbn.
      pose proof (slugify_length (trim name) Hid).
      pose proof (trim_length name). lia. }
  split; [done|]. split; [done|].
  assert (valid_room_id (buildRoomSlug normalize_NFKD name suffix) = true
          ↔ (String.length (buildRoomSlug normalize_NFKD name suffix) ≤ 64)%nat)
    as Hvalid.
  { unfold valid_room_id. fold (all_chars room_char
                                  (buildRoomSlug normalize_NFKD name suffix)).
    rewrite Hchars, !andb_true_iff, !Nat.leb_le. split; [tauto|].
    intros Hle. repeat split; [lia|done]. }
  split; [done|]. intros Hname. apply Hvalid. lia.
Qed.

End Slug.

(** A name in ASCII, which NFKD leaves as it is, and what the server
    makes of the id. *)
Lemma room_slug_passes_the_server_check_up_to_64_witness :
  buildRoomSlug id "  Sortie VTT_du --samedi (2)!  " "V1StGXR8"
  = "sortie-vtt-du-samedi-2-V1StGXR8"
  ∧ valid_room_id
      (buildRoomSlug id "  Sortie VTT_du --samedi (2)!  " "V1StGXR8") = true.
Proof.
  split; [reflexivity|].
  apply (room_slug_passes_the_server_check_up_to_64 id
           "  Sortie VTT_du --samedi (2)!  " "V1StGXR8");
    [reflexivity|reflexivity|reflexivity|vm_compute; lia].
Defined.

(** A name of sixty letters gives an id of sixty-nine characters, which
    the server refuses. *)
Example long_name_is_refused :
  String.length (buildRoomSlug id long_name "V1StGXR8") = 69%nat
  ∧ fst (gateway sample_env
           (request (buildRoomSlug id long_name "V1StGXR8") None "10.0.0.1")
           5000 initial)
    = Refuse 400 "Invalid Room".
Proof. split; reflexivity. Qed.

End HomeTheory.

(** * Properties of the client's connection settings *)

Module HookTheory.
Import Server Routing Hook RoutingTheory.







End HookTheory.

(** * Properties of the first server's registry *)

Module LegacyTheory.
Import Legacy.

Lemma fold_collect_lookup now (entries : list (string * RoomInfo)) (acc : Rooms) r :
  foldl (collect now) acc entries !! r
  = if decide (r ∈ (filter (λ e : string * RoomInfo,
                              (now - lastSeen e.2 > ROOM_TTL_MS)%Z) entries).*1)
    then None else acc !! r.
Proof.
  revert acc. induction entries as [|[k info] entries IH]; intros acc.
  - cbn. destruct (decide _) as [Hin|]; [|done]. by apply elem_of_nil in Hin.
  - cbn [foldl]. rewrite IH. unfold collect at 1. cbn [fst snd].
    rewrite filter_cons.
    destruct (decide (now - lastSeen (k, info).2 > ROOM_TTL_MS)%Z) as [Hstale|Hfresh];
      cbn [snd] in *.
    + rewrite bool_decide_eq_true_2 by done. rewrite fmap_cons. cbn [fst].
      destruct (decide (r ∈ _.*1)) as [Hin|Hnot].
      * rewrite decide_True; [done|]. set_solver.
      * destruct (decide (r = k)) as [->|Hne].
        -- rewrite decide_True by set_solver. apply lookup_delete_eq.
        -- rewrite decide_False by set_solver. by apply lookup_delete_ne.
    + by rewrite bool_decide_eq_false_2 by done.
Qed.

(** X28. A sweep of the collector removes exactly the rooms last seen
    more than sixty minutes before it: a room seen at most sixty minutes
    ago is kept as it is, one seen earlier is removed, whatever its count
    of clients, and no other room is touched.  Sweeping again at the same
    moment changes nothing. *)
Theorem garbage_collect_removes_the_stale_rooms (now : Z) (rooms : Rooms) :
  (∀ roomId,
     garbage_collect now rooms !! roomId
     = match rooms !! roomId with
       | Some info =>
           if bool_decide (now - lastSeen info ≤ 60 * 60 * 1000)%Z
           then Some info else None
       | None => None
       end)
  ∧ garbage_collect now (garbage_collect now rooms) = garbage_collect now rooms.
Proof.
  assert (∀ (m : Rooms) roomId,
            garbage_collect now m !! roomId
            = match m !! roomId with
              | Some info =>
                  if bool_decide (now - lastSeen info ≤ 60 * 60 * 1000)%Z
                  then Some info else None
              | None => None
              end) as Hsweep.
  { intros m r. unfold garbage_collect. rewrite fold_collect_lookup.
    destruct (decide _) as [Hin|Hnot].
    - apply list_elem_of_fmap in Hin as ([k info] & Hk & Hin).
      cbn [fst] in Hk. subst r.
      apply list_elem_of_filter in Hin as [Hstale Hin].
      apply elem_of_map_to_list in Hin. cbn [snd] in Hstale. rewrite Hin.
      rewrite bool_decide_eq_false_2; [done|]. unfold ROOM_TTL_MS in Hstale. lia.
    - destruct (m !! r) as [info|] eqn:Hr; [|done].
      case_bool_decide as Hfresh; [done|]. destruct Hnot.
      apply list_elem_of_fmap. exists (r, info). split; [done|].
      apply list_elem_of_filter. split; [|by apply elem_of_map_to_list].
      cbn. unfold ROOM_TTL_MS. lia. }
  split; [apply Hsweep|].
  apply map_eq. intros r. rewrite !Hsweep.
  destruct (rooms !! r) as [info|]; [|done].
  case_bool_decide as Hfresh; [|done]. by rewrite bool_decide_eq_true_2.
Qed.

Lemma count_fold_perm (l1 l2 : list RoomInfo) :
  l1 ≡ₚ l2 → ∀ a : Z,
  foldl (λ acc info, (acc + clientsCount info)%Z) a l1
  = foldl (λ acc info, (acc + clientsCount info)%Z) a l2.
Proof.
  induction 1 as [|x l1 l2 _ IH|x y l|l1 l2 l3 _ IH1 _ IH2]; intros a; cbn.
  - done.
  - apply IH.
  - f_equal. lia.
  - by rewrite IH1, IH2.
Qed.

Lemma count_fold_shift (l : list RoomInfo) (a : Z) :
  foldl (λ acc info, (acc + clientsCount info)%Z) a l
  = (a + foldl (λ acc info, (acc + clientsCount info)%Z) 0%Z l)%Z.
Proof.
  revert a. induction l as [|x l IH]; intros a; cbn; [lia|].
  rewrite (IH (a + clientsCount x)%Z), (IH (0 + clientsCount x)%Z). lia.
Qed.

Lemma clientCount_insert (rooms : Rooms) roomId info :
  clientCount (<[roomId := info]> rooms)
  = (clientCount rooms
     - from_option clientsCount 0%Z (rooms !! roomId) + clientsCount info)%Z.
Proof.
  unfold clientCount.
  assert (∀ m : Rooms, m !! roomId = None →
            foldl (λ acc i, (acc + clientsCount i)%Z) 0%Z
              (map_to_list (<[roomId := info]> m)).*2
            = (clientsCount info
               + foldl (λ acc i, (acc + clientsCount i)%Z) 0%Z (map_to_list m).*2)%Z)
    as Hfresh.
  { intros m Hm.
    rewrite (count_fold_perm _ (((roomId, info) :: map_to_list m).*2))
      by (by rewrite map_to_list_insert).
    cbn. by rewrite count_fold_shift. }
  destruct (rooms !! roomId) as [old|] eqn:Hold; cbn.
  - rewrite <- (insert_delete_eq rooms roomId info).
    rewrite Hfresh by apply lookup_delete_eq.
    rewrite (count_fold_perm (map_to_list rooms).*2
               (((roomId, old) :: map_to_list (delete roomId rooms)).*2))
      by (by rewrite map_to_list_delete).
    cbn. rewrite (count_fold_shift _ (0 + clientsCount old)). lia.
  - rewrite Hfresh by done. lia.
Qed.

(** X29. The two updates of the registry touch one field of one room and
    never create a room: for an id that is not registered they leave the
    registry as it is; for a registered one, [updateLastSeen] keeps the
    room through every sweep of the next sixty minutes, and
    [updateClientsCount] changes the [clientCount] of [/metrics] by the
    difference between the new count and the old one, the number of rooms
    staying the same. *)
Theorem registry_updates_touch_one_room
    (rooms : Rooms) (roomId : string) (now : Z) (count : Z) :
  (rooms !! roomId = None →
     updateLastSeen roomId now rooms = rooms
     ∧ updateClientsCount roomId count rooms = rooms)
  ∧ (∀ info, rooms !! roomId = Some info →
       (∀ later, (later - now ≤ 60 * 60 * 1000)%Z →
          garbage_collect later (updateLastSeen roomId now rooms) !! roomId
          = Some {| doc := doc info; clientsCount := clientsCount info;
                    lastSeen := now |})
       ∧ clientCount (updateClientsCount roomId count rooms)
         = (clientCount rooms - clientsCount info + count)%Z
       ∧ roomCount (updateClientsCount roomId count rooms) = roomCount rooms)
  ∧ (∀ other, other ≠ roomId →
       updateLastSeen roomId now rooms !! other = rooms !! other
       ∧ updateClientsCount roomId count rooms !! other = rooms !! other).
Proof.
  unfold updateLastSeen, updateClientsCount. split; [|split].
  - by intros ->.
  - intros info Hinfo. rewrite Hinfo. split; [|split].
    + intros later Hlater. unfold garbage_collect. rewrite fold_collect_lookup.
      rewrite decide_False; [apply lookup_insert_eq|].
      intros ([k stale] & Hk & Hin)%list_elem_of_fmap. cbn [fst] in Hk. subst k.
      apply list_elem_of_filter in Hin as [Hstale Hin].
      apply elem_of_map_to_list in Hin. rewrite lookup_insert_eq in Hin.
      injection Hin as <-. cbn [snd lastSeen] in Hstale.
      unfold ROOM_TTL_MS in Hstale. lia.
    + by rewrite clientCount_insert, Hinfo.
    + unfold roomCount. rewrite !length_fmap, !length_map_to_list.
      apply map_size_insert_Some. by eexists.
  - intros other Hne. destruct (rooms !! roomId); [|done].
    by rewrite !lookup_insert_ne.
Qed.

(** Two rooms, one seen an hour and a second before the sweep. *)
Example registry_sweep_sample :
  let rooms := setRoom "abc123" {| doc := 1; clientsCount := 2; lastSeen := 1000 |}
                 (setRoom "bravo-2" {| doc := 2; clientsCount := 1; lastSeen := 0 |} ∅) in
  clientCount rooms = 3%Z
  ∧ clientCount (updateClientsCount "abc123" 5 rooms) = 6%Z
  ∧ garbage_collect 3601000 rooms !! "bravo-2" = None
  ∧ is_Some (garbage_collect 3601000 rooms !! "abc123").
Proof.
  cbn zeta. repeat split; try (vm_compute; reflexivity).
  vm_compute. eexists. reflexivity.
Qed.

End LegacyTheory.

(** * Properties of the allowed origins *)

Module CorsTheory.
Import Server Routing Home RoutingTheory HomeTheory.

Lemma trim_idem s : trim (trim s) = trim s.
Proof.
  destruct (trim_head s) as [->|(c & t & _ & Hc & Hs)]; [done|].
  unfold trim at 1. rewrite Hs. cbn [trimStart]. rewrite Hc.
  rewrite <- Hs. apply trimEnd_idem.
Qed.

Lemma all_chars_elem (p : ascii → bool) s :
  all_chars p s = true ↔ ∀ c, c ∈ list_ascii_of_string s → p c = true.
Proof.
  unfold all_chars. rewrite forallb_forall.
  split; intros H c Hc; apply H; by apply list_elem_of_In.
Qed.

Lemma allowedOrigins_joined a b :
  allowedOrigins (Some (a +:+ "," +:+ b))
  = allowedOrigins (Some a) ++ allowedOrigins (Some b).
Proof.
  unfold allowedOrigins, filter_Boolean. cbn -[append split trim List.filter].
  change ("," +:+ b) with (String "," b).
  by rewrite split_app, fmap_app, List.filter_app.
Qed.

(** X30. The allowed origins are the entries of [CORS_ORIGINS] between
    its commas, each trimmed, the empty ones dropped: one setting made of
    two joined by a comma allows the origins of both, no allowed origin
    is empty, holds a comma or has white space at either end, and without
    the setting none is allowed and the check is not installed.  Where it
    is installed, a request without [Origin] passes, and a request with
    one passes exactly when its origin is, to the letter, an allowed
    one. *)
Theorem allowed_origins_are_the_trimmed_entries
    (CORS_ORIGINS : option string) (a b : string) (origin : string) :
  allowedOrigins (Some (a +:+ "," +:+ b))
  = allowedOrigins (Some a) ++ allowedOrigins (Some b)
  ∧ allowedOrigins None = []
  ∧ cors None (Some origin) = None
  ∧ (∀ entry, entry ∈ allowedOrigins CORS_ORIGINS →
       entry ≠ EmptyString ∧ trim entry = entry
       ∧ ","%char ∉ list_ascii_of_string entry)
  ∧ cors_origin (allowedOrigins CORS_ORIGINS) None = OriginAllowed
  ∧ (origin ≠ EmptyString →
     (cors_origin (allowedOrigins CORS_ORIGINS) (Some origin) = OriginAllowed
      ↔ origin ∈ allowedOrigins CORS_ORIGINS)).
Proof.
  split; [apply allowedOrigins_joined|]. do 2 (split; [done|]).
  split; [|split; [done|]].
  - intros entry Hin. unfold allowedOrigins, filter_Boolean in Hin.
    apply list_elem_of_In, List.filter_In in Hin as [Hin Htruthy].
    apply list_elem_of_In, list_elem_of_fmap in Hin as (part & -> & Hpart).
    split; [by intros Heq; rewrite Heq in Htruthy|].
    split; [apply trim_idem|].
    pose proof (split_parts_free _ _ _ Hpart) as Hfree.
    assert (all_chars (λ c, negb (Ascii.eqb c ",")) part = true) as Hall.
    { apply all_chars_elem. intros c Hc.
      destruct (Ascii.eqb_spec c ",") as [->|]; [done|done]. }
    apply trimStart_chars, trimEnd_chars in Hall. fold (trim part) in Hall.
    intros Hcomma. apply (proj1 (all_chars_elem _ _) Hall) in Hcomma. done.
  - intros Hne. unfold cors_origin.
    assert (truthy (Some origin) = true) as -> by (by destruct origin).
    cbn [negb orb default]. case_bool_decide; split; done.
Qed.

(** Three entries, one of them empty, with white space around. *)
Example allowed_origins_sample :
  allowedOrigins (Some " https://a.example , ,https://b.example")
  = ["https://a.example"; "https://b.example"]
  ∧ cors (Some " https://a.example , ,https://b.example") (Some "https://c.example")
    = Some (OriginRefused "Origin not allowed by CORS").
Proof. split; reflexivity. Qed.

End CorsTheory.
